(** * Bee node: netstore, push-sync, joiner, chunk feeder, mock storer, SOC

    A shallow embedding of the netstore, the push-sync protocol, the joiner's
    level computation, the chunk feeder, the mock storer's pinning and the
    single-owner chunk of the bee sources, and the properties that the
    specification states about them.

    Conventions of the embedding:
    - Go [int]/[int64] values are [Z]; byte slices are [list byte];
    - Go [float64] values are Rocq's primitive floats, which are IEEE 754
      binary64 with the same correctly rounded operations;
    - a Go function returning [(T, error)] returns [result T];
    - calls into collaborators (local store, retrieval client, accounting,
      streamer, ...) are answered by an environment record and logged, in
      program order, in a list of events;
    - logging, metrics and tracing calls never influence control flow and are
      left out. *)

From Stdlib Require Import ZArith List Lia Bool String.
From Stdlib Require Import Strings.Byte.
From Stdlib Require Floats.PrimFloat Numbers.Cyclic.Int63.Uint63.
From stdpp Require Import base list.
Import ListNotations.

Local Open Scope Z_scope.

(** ** Shared vocabulary *)

(** Go errors.  [Wrap msg e] is [fmt.Errorf(msg + ": %w", e)]. *)
Inductive error : Type :=
| ErrNotFound            (* storage.ErrNotFound *)
| ErrInvalidChunk        (* storage.ErrInvalidChunk / swarm.ErrInvalidChunk *)
| ErrRecoveryAttempt     (* netstore.ErrRecoveryAttempt *)
| TopologyErrNotFound    (* topology.ErrNotFound *)
| ErrWantSelf            (* topology.ErrWantSelf *)
| DeadlineExceeded       (* context.DeadlineExceeded *)
| Canceled               (* context.Canceled *)
| ErrOther (what : string)
| Wrap (msg : string) (e : error).

Definition error_head_eqb (a b : error) : bool :=
  match a, b with
  | ErrNotFound, ErrNotFound => true
  | ErrInvalidChunk, ErrInvalidChunk => true
  | ErrRecoveryAttempt, ErrRecoveryAttempt => true
  | TopologyErrNotFound, TopologyErrNotFound => true
  | ErrWantSelf, ErrWantSelf => true
  | DeadlineExceeded, DeadlineExceeded => true
  | Canceled, Canceled => true
  | ErrOther x, ErrOther y => String.eqb x y
  | _, _ => false
  end.

(** [errors.Is(err, target)] for a sentinel [target]: walks the [%w] chain. *)
Fixpoint errors_Is (err target : error) : bool :=
  match err with
  | Wrap _ e => errors_Is e target
  | _ => error_head_eqb err target
  end.

Inductive result (A : Type) : Type :=
| Ok (a : A)
| Err (e : error).
Arguments Ok {A} a.
Arguments Err {A} e.

(** A Go call either returns or panics at run time. *)
Inductive panic : Type :=
| NilDereference       (* invalid memory address or nil pointer dereference *)
| IndexOutOfRange      (* index out of range *)
| SliceBounds          (* slice bounds out of range *)
| DivideByZero.        (* integer divide by zero *)

Inductive outcome (A : Type) : Type :=
| Returned (a : A)
| Panicked (p : panic).
Arguments Returned {A} a.
Arguments Panicked {A} p.

Definition Address := list byte.

Definition Address_eq_dec : forall a b : Address, {a = b} + {a <> b} :=
  List.list_eq_dec Byte.byte_eq_dec.

(** [a.Equal(b)], and also [a.String() == b.String()]: the hex rendering of
    the bytes is injective. *)
Definition Address_Equal (a b : Address) : bool :=
  if Address_eq_dec a b then true else false.

(** [swarm.Chunk]: address, data and the tag id set by [WithTagID]. *)
Record Chunk : Type := mkChunk { chAddress : Address; chData : list byte; chTagID : Z }.

(** [swarm.NewChunk(addr, data)]: the tag id starts at its zero value. *)
Definition NewChunk (addr : Address) (data : list byte) : Chunk := mkChunk addr data 0.

(** [storage.ModeGet], [storage.ModePut] and [storage.ModeSet]. *)
Inductive ModeGet : Type :=
| ModeGetRequest | ModeGetSync | ModeGetLookup | ModeGetPin.

Inductive ModePut : Type :=
| ModePutRequest | ModePutSync | ModePutUpload.

Inductive ModeSet : Type :=
| ModeSetAccess | ModeSetSync | ModeSetRemove | ModeSetPin | ModeSetUnpin.

(** ** float64 (Go's [float64], [math.Log] and the conversions to and from
    [int64]) *)
Module Float64.
Import PrimFloat Uint63.

Definition float64 : Set := PrimFloat.float.

Definition one : float64 := 1%float.

(** The conversion [float64(c)] of an [int64]: the nearest [float64], ties
    to even.  [of_uint63] converts the non-negative integers below [2^63]
    in this way. *)
Definition float64_of_int64 (c : Z) : float64 :=
  if (c =? -9223372036854775808)%Z then (-0x1p63)%float
  else if (c <? 0)%Z then PrimFloat.opp (PrimFloat.of_uint63 (Uint63.of_Z (- c)))
  else PrimFloat.of_uint63 (Uint63.of_Z c).

(** The integer part of a float [a] with [1 <= a < 2^63]: [frshiftexp]
    gives [a = m * 2^(se - 2101)] with [1/2 <= m < 1], [normfr_mantissa]
    the integer [m * 2^53], which is then shifted by [se - 2101 - 53]. *)
Definition trunc_uint63 (a : float64) : int :=
  let '(m, se) := PrimFloat.frshiftexp a in
  let mant := PrimFloat.normfr_mantissa m in
  let e := Uint63.sub se 2101%uint63 in
  if Uint63.leb e 53%uint63 then Uint63.lsr mant (Uint63.sub 53%uint63 e)
  else Uint63.lsl mant (Uint63.sub e 53%uint63).

(** The conversion [int(f)] of a [float64] on a 64-bit platform: the
    fraction is discarded (truncation towards zero).  For a NaN and for a
    value outside [int64] the language leaves the result to the
    implementation; amd64 gives the least [int64], which is what this
    function returns. *)
Definition int_of_float64 (f : float64) : Z :=
  if PrimFloat.ltb (-0x1p63)%float f && PrimFloat.ltb f 0x1p63%float then
    let a := PrimFloat.abs f in
    if PrimFloat.ltb a 1%float then 0%Z
    else if PrimFloat.ltb f 0%float then (- Uint63.to_Z (trunc_uint63 a))%Z
    else Uint63.to_Z (trunc_uint63 a)
  else (-9223372036854775808)%Z.

(** The constants of [math.Log], by their bit patterns. *)
Definition Ln2Hi : float64 := 0x1.62e42fee00000p-1%float.   (* 3fe62e42 fee00000 *)
Definition Ln2Lo : float64 := 0x1.a39ef35793c76p-33%float.  (* 3dea39ef 35793c76 *)
Definition L1 : float64 := 0x1.5555555555593p-1%float.      (* 3FE55555 55555593 *)
Definition L2 : float64 := 0x1.999999997fa04p-2%float.      (* 3FD99999 9997FA04 *)
Definition L3 : float64 := 0x1.2492494229359p-2%float.      (* 3FD24924 94229359 *)
Definition L4 : float64 := 0x1.c71c51d8e78afp-3%float.      (* 3FCC71C5 1D8E78AF *)
Definition L5 : float64 := 0x1.7466496cb03dep-3%float.      (* 3FC74664 96CB03DE *)
Definition L6 : float64 := 0x1.39a09d078c69fp-3%float.      (* 3FC39A09 D078C69F *)
Definition L7 : float64 := 0x1.2f112df3e5244p-3%float.      (* 3FC2F112 DF3E5244 *)

(** [math.Sqrt2/2] as a [float64]. *)
Definition Sqrt2_2 : float64 := 0x1.6a09e667f3bcdp-1%float.

(** [math.Frexp(x)] for a finite non-zero [x], with the exponent already
    converted to [float64] (the conversion is exact: the exponent is a small
    integer). *)
Definition Frexp (x : float64) : float64 * float64 :=
  let '(m, se) := PrimFloat.frshiftexp x in
  (m, PrimFloat.sub (PrimFloat.of_uint63 se) 2101%float).

(** [math.Log(x)] as Go's math package computes it (log.go, after FreeBSD's
    e_log.c; the amd64 assembly takes the same steps): special cases,
    reduction of [x] to [2^k * (1+f)] with [sqrt(2)/2 <= 1+f < sqrt(2)], and
    the polynomial for [log(1+f)].  Every operation is rounded to [float64]
    on its own, none is fused. *)
Definition Log (x : float64) : float64 :=
  if PrimFloat.is_nan x || PrimFloat.eqb x PrimFloat.infinity then x
  else if PrimFloat.ltb x 0%float then PrimFloat.nan
  else if PrimFloat.eqb x 0%float then PrimFloat.neg_infinity
  else
    let '(f1, k) := Frexp x in
    let '(f1, k) :=
      if PrimFloat.ltb f1 Sqrt2_2
      then (PrimFloat.mul f1 2%float, PrimFloat.sub k 1%float)
      else (f1, k) in
    let f := PrimFloat.sub f1 1%float in
    let s := PrimFloat.div f (PrimFloat.add 2%float f) in
    let s2 := PrimFloat.mul s s in
    let s4 := PrimFloat.mul s2 s2 in
    let t1 := PrimFloat.mul s2 (PrimFloat.add L1 (PrimFloat.mul s4
                (PrimFloat.add L3 (PrimFloat.mul s4
                   (PrimFloat.add L5 (PrimFloat.mul s4 L7)))))) in
    let t2 := PrimFloat.mul s4 (PrimFloat.add L2 (PrimFloat.mul s4
                (PrimFloat.add L4 (PrimFloat.mul s4 L6)))) in
    let R := PrimFloat.add t1 t2 in
    let hfsq := PrimFloat.mul (PrimFloat.mul 0.5%float f) f in
    PrimFloat.sub (PrimFloat.mul k Ln2Hi)
      (PrimFloat.sub
         (PrimFloat.sub hfsq
            (PrimFloat.add (PrimFloat.mul s (PrimFloat.add hfsq R))
                           (PrimFloat.mul k Ln2Lo)))
         f).

(** [math.Log(128)]. *)
Definition L128 : float64 := Eval vm_compute in Log 128%float.

(** Whether [int(math.Log(float64(p))/math.Log(128) + 1)] is [n], decided on
    the float itself. *)
Definition levels_is (n : Z) (p : positive) : bool :=
  let q := PrimFloat.add
             (PrimFloat.div (Log (PrimFloat.of_uint63 (Uint63.of_pos p))) L128) one in
  PrimFloat.ltb (-0x1p63)%float q && PrimFloat.ltb q 0x1p63%float &&
  negb (PrimFloat.ltb (PrimFloat.abs q) 1%float) && negb (PrimFloat.ltb q 0%float) &&
  Uint63.eqb (trunc_uint63 (PrimFloat.abs q)) (Uint63.of_Z n).

(** [P] on every positive number that extends the bits of [p] by [k] more
    bits. *)
Fixpoint all_bits (k : nat) (p : positive) (P : positive -> bool) : bool :=
  match k with
  | O => P p
  | S k' => all_bits k' (p~0) P && all_bits k' (p~1) P
  end.

(** [levels_is n] on every number of [k + 1] bits, for each [k] of [ks]. *)
Definition levels_checked (n : Z) (ks : list nat) : bool :=
  forallb (fun k => all_bits k 1 (levels_is n)) ks.

End Float64.

(** ** Joiner: tree levels from the file length
    (pkg/file/joiner/internal/job.go) *)
Module Joiner.

(** The exact floor of the logarithm, for comparison with the code: the
    largest [e] with [b^e <= c], by repeated division; [fuel] bounds the
    number of divisions. *)
Fixpoint floor_log_fuel (fuel : nat) (b c : Z) : Z :=
  match fuel with
  | O => 0
  | S f => if c <? b then 0 else 1 + floor_log_fuel f b (c / b)
  end.

Definition floor_log (b c : Z) : Z :=
  floor_log_fuel (S (Z.to_nat (Z.log2 c))) b c.

(** [int64] arithmetic wraps around. *)
Definition int64 (z : Z) : Z :=
  (z + 9223372036854775808) mod 18446744073709551616 - 9223372036854775808.

(** [int(math.Log(float64(c))/math.Log(float64(b)) + 1)], in [float64]. *)
Definition log_quot_plus1_trunc (c b : Z) : Z :=
  Float64.int_of_float64
    (PrimFloat.add
       (PrimFloat.div (Float64.Log (Float64.float64_of_int64 c))
                      (Float64.Log (Float64.float64_of_int64 b)))
       Float64.one).

(** [l], [sectionSize] and [branches] are [int64] values; the division
    panics on a zero [sectionSize]. *)
Definition getLevelsFromLength (l sectionSize branches : Z) : outcome Z :=
  let s := sectionSize in
  let b := branches in
  if l =? 0 then Returned 0
  else if l <=? int64 (s * b) then Returned 1
  else if s =? 0 then Panicked DivideByZero
  else
    let c := int64 (Z.quot (int64 (l - 1)) s) in
    Returned (log_quot_plus1_trunc c b).

(** The formula as the specification words it: least [e] with
    [num <= den * k^e], that is [ceil (log_k (num/den))]. *)
Fixpoint ceil_log_fuel (fuel : nat) (k num den : Z) : Z :=
  match fuel with
  | O => 0
  | S f => if num <=? den then 0 else 1 + ceil_log_fuel f k num (den * k)
  end.

Definition ceil_log (k num den : Z) : Z :=
  ceil_log_fuel (S (Z.to_nat (Z.log2 num))) k num den.

(** [ceil(log_k((l-1)/32)) + 1] with the quotient read as a real number. *)
Definition spec_levels_real (l s k : Z) : Z := ceil_log k (l - 1) s + 1.

(** The same with the quotient read as Go's integer division. *)
Definition spec_levels_int (l s k : Z) : Z := ceil_log k ((l - 1) / s) 1 + 1.

(** Modelled from the spec: [swarm.SectionSize] and [swarm.Branches], which
    the swarm package (not among the sources) declares; the specification
    gives 32-byte sections and 128 branches. *)
Definition SectionSize : Z := 32.
Definition Branches : Z := 128.

Definition byte_to_Z (b : byte) : Z := Z.of_N (Byte.to_N b).

(** [binary.LittleEndian.Uint64(b)]: [uint64(b[0]) | uint64(b[1])<<8 | ...];
    the bounds check [_ = b[7]] panics on fewer than 8 bytes. *)
Definition Uint64 (b : list byte) : outcome Z :=
  match b with
  | b0 :: b1 :: b2 :: b3 :: b4 :: b5 :: b6 :: b7 :: _ =>
    Returned
      (Z.lor (Z.lor (Z.lor (Z.lor (Z.lor (Z.lor (Z.lor
         (byte_to_Z b0)
         (Z.shiftl (byte_to_Z b1) 8))
         (Z.shiftl (byte_to_Z b2) 16))
         (Z.shiftl (byte_to_Z b3) 24))
         (Z.shiftl (byte_to_Z b4) 32))
         (Z.shiftl (byte_to_Z b5) 40))
         (Z.shiftl (byte_to_Z b6) 48))
         (Z.shiftl (byte_to_Z b7) 56))
  | _ => Panicked IndexOutOfRange
  end.

(** The conversion [int64(v)] of a [uint64]. *)
Definition int64_of_uint64 (v : Z) : Z :=
  if v <? 2 ^ 63 then v else v - 2 ^ 64.

(** A Go byte slice: the elements up to its length, and the bytes of the
    backing array between its length and its capacity, which a slice
    expression can bring back into view. *)
Record bslice : Type := mkSlice { elems : list byte; spare : list byte }.

Definition nil_slice : bslice := mkSlice [] [].

Definition slice_len (s : bslice) : Z := Z.of_nat (length (elems s)).

(** [s[i:]]: the bound is the length. [None] is the run-time panic. *)
Definition slice_tail (s : bslice) (i : Z) : option bslice :=
  if (0 <=? i) && (i <=? slice_len s)
  then Some (mkSlice (drop (Z.to_nat i) (elems s)) (spare s))
  else None.

(** [s[i:j]]: the upper bound is the capacity. *)
Definition slice_range (s : bslice) (i j : Z) : option bslice :=
  let all := elems s ++ spare s in
  if (0 <=? i) && (i <=? j) && (j <=? Z.of_nat (length all))
  then Some (mkSlice (take (Z.to_nat (j - i)) (drop (Z.to_nat i) all))
                     (drop (Z.to_nat j) all))
  else None.

(** The fields of [SimpleJoinerJob]; [cursors] and [data] are the two arrays
    of length 9, and [dataC] lists the values sent on the channel so far. *)
Record SimpleJoinerJob : Type := mkJob {
  spanLength : Z;
  levelCount : Z;
  readCount : Z;
  cursors : list Z;
  data : list bslice;
  dataC : list (list byte)
}.

(** [NewSimpleJoinerJob(ctx, store, rootChunk)] up to the start of the
    goroutine, as a function of [rootChunk.Data()].  On data shorter than 8
    bytes one of the two slice expressions [Data()[:8]], [Data()[8:]]
    panics, whatever the capacity of the slice; [j.data[levelCount-1]] is an
    index into an array of 9. *)
Definition NewSimpleJoinerJob (rootData : bslice) : outcome SimpleJoinerJob :=
  if slice_len rootData <? 8 then Panicked SliceBounds
  else
    match Uint64 (take 8 (elems rootData)) with
    | Panicked p => Panicked p
    | Returned span =>
      match getLevelsFromLength (int64_of_uint64 span) SectionSize Branches with
      | Panicked p => Panicked p
      | Returned lc =>
        match slice_tail rootData 8 with
        | None => Panicked SliceBounds
        | Some payload =>
          if (0 <=? lc - 1) && (lc - 1 <? 9) then
            Returned (mkJob (int64_of_uint64 span) lc 0 (repeat 0 9)
                        (<[Z.to_nat (lc - 1) := payload]> (repeat nil_slice 9)) [])
          else Panicked IndexOutOfRange
        end
      end
    end.

(** [a[i]] for an array held as a list: [None] is the index panic. *)
Definition index {T : Type} (a : list T) (i : Z) : option T :=
  if i <? 0 then None else a !! Z.to_nat i.

Definition set_cursor (j : SimpleJoinerJob) (level c : Z) : SimpleJoinerJob :=
  mkJob (spanLength j) (levelCount j) (readCount j)
        (<[Z.to_nat level := c]> (cursors j)) (data j) (dataC j).

Definition set_data (j : SimpleJoinerJob) (level : Z) (d : bslice) : SimpleJoinerJob :=
  mkJob (spanLength j) (levelCount j) (readCount j)
        (cursors j) (<[Z.to_nat level := d]> (data j)) (dataC j).

(** [j.dataC <- data; j.readCount += int64(len(data))]. *)
Definition send (j : SimpleJoinerJob) (d : bslice) : SimpleJoinerJob :=
  mkJob (spanLength j) (levelCount j) (readCount j + slice_len d)
        (cursors j) (data j) (dataC j ++ [elems d]).

Section Traversal.

(** [j.store.Get(j.ctx, storage.ModeGetRequest, address)], giving the
    chunk's [Data()]. *)
Variable Get : Address -> result bslice.

(** [j.descend(level, address)]: the job afterwards and the returned error.
    [depth] bounds the recursion ([None] when it runs out); the recursion
    goes down one level at a time, so [Z.to_nat level] is enough. *)
Fixpoint descend (depth : nat) (level : Z) (address : Address) (j : SimpleJoinerJob)
  : option (outcome (SimpleJoinerJob * option error)) :=
  match Get address with
  | Err err => Some (Returned (j, Some err))
  | Ok chData =>
    if level >? 0 then
      match depth with
      | O => None
      | S depth' =>
        match index (data j) level, index (cursors j) level with
        | Some dl, Some cl =>
          let fresh := slice_len dl =? cl in
          match (if fresh then slice_tail chData 8 else Some dl) with
          | None => Some (Panicked SliceBounds)
          | Some dl' =>
            let j1 := if fresh then set_cursor (set_data j level dl') level 0 else j in
            let cursor := if fresh then 0 else cl in
            match slice_range dl' cursor (cursor + SectionSize) with
            | None => Some (Panicked SliceBounds)
            | Some next =>
              match descend depth' (level - 1) (elems next) j1 with
              | Some (Returned (j2, None)) =>
                match index (cursors j2) level with
                | Some c => Some (Returned (set_cursor j2 level (c + SectionSize), None))
                | None => Some (Panicked IndexOutOfRange)
                end
              | other => other
              end
            end
          end
        | _, _ => Some (Panicked IndexOutOfRange)
        end
      end
    else
      match slice_tail chData 8 with
      | None => Some (Panicked SliceBounds)
      | Some d => Some (Returned (send j d, None))
      end
  end.

(** The loop of [j.start()] at the top level [level]. *)
Fixpoint start_loop (fuel : nat) (level : Z) (j : SimpleJoinerJob)
  : option (outcome (SimpleJoinerJob * option error)) :=
  match index (cursors j) level, index (data j) level with
  | Some cl, Some dl =>
    if cl <? slice_len dl then
      match fuel with
      | O => None
      | S fuel' =>
        match slice_range dl cl (cl + SectionSize) with
        | None => Some (Panicked SliceBounds)
        | Some addressBytes =>
          match descend (Z.to_nat (level - 1)) (level - 1) (elems addressBytes) j with
          | Some (Returned (j1, None)) =>
            match index (cursors j1) level with
            | Some c => start_loop fuel' level (set_cursor j1 level (c + SectionSize))
            | None => Some (Panicked IndexOutOfRange)
            end
          | other => other
          end
        end
      end
    else Some (Returned (j, None))
  | _, _ => Some (Panicked IndexOutOfRange)
  end.

(** [j.start()]; the cursor advances by 32 in each round, so one round per
    byte of the top level is more than enough. *)
Definition start (j : SimpleJoinerJob) : option (outcome (SimpleJoinerJob * option error)) :=
  let level := levelCount j - 1 in
  match index (data j) level with
  | Some dl => start_loop (S (length (elems dl))) level j
  | None => Some (Panicked IndexOutOfRange)
  end.

(** The goroutine of [NewSimpleJoinerJob], with a reader that takes every
    block: the blocks sent on [dataC], in order, and whether the channel is
    closed at the end, which it is exactly when [start] returns an error. *)
Definition goroutine (j : SimpleJoinerJob) : option (outcome (list (list byte) * bool)) :=
  match start j with
  | None => None
  | Some (Panicked p) => Some (Panicked p)
  | Some (Returned (j', err)) =>
    Some (Returned (dataC j', match err with Some _ => true | None => false end))
  end.

(** What the traversal is to fetch for a list of references: the payloads of
    the chunks in order, up to the first reference that the store fails on. *)
Fixpoint fetch (refs : list Address) : list (list byte) * option error :=
  match refs with
  | [] => ([], None)
  | r :: rest =>
    match Get r with
    | Err err => ([], Some err)
    | Ok d => let '(out, e) := fetch rest in (drop 8 (elems d) :: out, e)
    end
  end.

End Traversal.

(** [copy(b, data)]. *)
Definition copy (b data : list byte) : list byte :=
  take (length b) data ++ drop (length data) b.

(** [j.Read(b)] while the context is not done.  [pending] are the blocks the
    goroutine has still to hand over, [closed] whether it closes the channel
    after them.  The result is the buffer, the count and the error, with the
    blocks left; [None] is a [Read] that blocks until the context is done.
    [ErrOther "EOF"] stands for [io.EOF]. *)
Definition Read (b : list byte) (pending : list (list byte)) (closed : bool)
  : option (list byte * Z * option error * list (list byte)) :=
  match pending with
  | d :: rest => Some (copy b d, Z.of_nat (length b), None, rest)
  | [] => if closed then Some (b, 0, Some (ErrOther "EOF"), []) else None
  end.

End Joiner.

(** ** File pipeline: the chunk feeder
    (pkg/file/pipeline/chunkfeeder_writer.go) *)
Module Pipeline.

(** [pipeWriteArgs]: the feeder only sets [data]; the reference, key and
    span fields keep their zero values. *)
Record pipeWriteArgs : Type := mkArgs { data : list byte }.

Definition byte_of_Z (z : Z) : byte :=
  match Byte.of_N (Z.to_N (z mod 256)) with
  | Some b => b
  | None => x00
  end.

(** [binary.LittleEndian.PutUint64(buf[:8], v)]: byte [k] is [byte(v >> 8k)]. *)
Definition PutUint64 (v : Z) : list byte :=
  map (fun k => byte_of_Z (Z.shiftr v (8 * k))) [0; 1; 2; 3; 4; 5; 6; 7].

Definition len {A} (b : list A) : Z := Z.of_nat (length b).

(** [b[i:]]; [None] is the run-time panic of an out-of-range slice. *)
Definition slice_from (b : list byte) (i : Z) : option (list byte) :=
  if (0 <=? i) && (i <=? len b) then Some (drop (Z.to_nat i) b) else None.

(** [b[i:j]] for [j] within the length of [b]. *)
Definition slice (b : list byte) (i j : Z) : option (list byte) :=
  if (0 <=? i) && (i <=? j) && (j <=? len b)
  then Some (take (Z.to_nat (j - i)) (drop (Z.to_nat i) b))
  else None.

Section Feeder.
Context {NS : Type}.

(** [f.next.ChainWrite(args)]: the next stage, with its own state. *)
Variable ChainWrite : NS -> pipeWriteArgs -> NS * result Z.

(** The loop of [chunkFeeder.Write], from loop index [i] and running total
    [w].  [log] collects the arguments of the chain writes made so far.  The
    [i] bound by [i, err := ...] in the body is a new variable of the block,
    so the loop index advances by [size] alone.  The result [Err e] is Go's
    [(0, err)], [Ok w] is [(w, nil)]; [None] means the loop has not ended
    within [fuel] iterations. *)
Fixpoint Write_loop (fuel : nat) (size : Z) (b : list byte) (i w : Z)
    (st : NS) (log : list pipeWriteArgs)
  : option (NS * list pipeWriteArgs * outcome (result Z)) :=
  if i <? len b then
    match fuel with
    | O => None
    | S fuel' =>
      let l := len b in
      let d := if i + size >? l then slice_from b i else slice b i (i + size) in
      match d with
      | None => Some (st, log, Panicked SliceBounds)
      | Some d =>
        let data := PutUint64 (len d) ++ d in
        let args := mkArgs data in
        let '(st', r) := ChainWrite st args in
        match r with
        | Err err => Some (st', log ++ [args], Returned (Err err))
        | Ok n => Write_loop fuel' size b (i + size) (w + n) st' (log ++ [args])
        end
      end
    end
  else Some (st, log, Returned (Ok w)).

(** [chunkFeeder.Write(b)] for a feeder of size [size].  [len(b)] iterations
    are enough whenever [size >= 1]. *)
Definition Write (size : Z) (b : list byte) (st : NS)
  : option (NS * list pipeWriteArgs * outcome (result Z)) :=
  Write_loop (length b) size b 0 0 st [].

(** Feeding a list of records to the next stage, in order, until one fails. *)
Fixpoint feed (recs : list pipeWriteArgs) (w : Z) (st : NS) (log : list pipeWriteArgs)
  : NS * list pipeWriteArgs * outcome (result Z) :=
  match recs with
  | [] => (st, log, Returned (Ok w))
  | a :: rest =>
    let '(st', r) := ChainWrite st a in
    match r with
    | Err err => (st', log ++ [a], Returned (Err err))
    | Ok n => feed rest (w + n) st' (log ++ [a])
    end
  end.

End Feeder.

(** The consecutive [n]-sized pieces of [b], the last one possibly shorter. *)
Fixpoint pieces_fuel (fuel n : nat) (b : list byte) : list (list byte) :=
  match fuel with
  | O => []
  | S f =>
    match b with
    | [] => []
    | _ :: _ => take n b :: pieces_fuel f n (drop n b)
    end
  end.

Definition pieces (n : nat) (b : list byte) : list (list byte) :=
  pieces_fuel (length b) n b.

(** The record the specification expects for a piece: its length as 8
    little-endian bytes, then the piece. *)
Definition record_of (d : list byte) : pipeWriteArgs :=
  mkArgs (PutUint64 (len d) ++ d).

(** A next stage that stores nothing and fails on every write. *)
Definition failing_next (st : unit) (a : pipeWriteArgs) : unit * result Z :=
  (st, Err (ErrOther "trie full")).

(** A next stage that accepts every write and reports the bytes taken. *)
Definition accepting_next (st : unit) (a : pipeWriteArgs) : unit * result Z :=
  (st, Ok (len (data a))).

(** Two 32-byte references and a store that holds under them the two
    records the feeder makes of three bytes at size 2, for examples. *)
Definition ref_a : Address := repeat x0a 32.
Definition ref_b : Address := repeat x0b 32.

Definition two_records (a : Address) : result Joiner.bslice :=
  if Address_Equal a ref_a then Ok (Joiner.mkSlice (data (record_of [x01; x02])) [])
  else if Address_Equal a ref_b then Ok (Joiner.mkSlice (data (record_of [x03])) [])
  else Err ErrNotFound.

(** A store of three levels over [two_records]: the chunk under [ref_c]
    lists [ref_a] and [ref_b], the chunk under [ref_d] is empty. *)
Definition ref_c : Address := repeat x0c 32.
Definition ref_d : Address := repeat x0d 32.

Definition three_levels (a : Address) : result Joiner.bslice :=
  if Address_Equal a ref_c then Ok (Joiner.mkSlice (PutUint64 8192 ++ concat [ref_a; ref_b]) [])
  else if Address_Equal a ref_d then Ok Joiner.nil_slice
  else two_records a.

End Pipeline.

(** ** Netstore (pkg/netstore/netstore.go) *)
Module Netstore.

(** [context.Context], as far as [Get] looks at it: the value stored under
    [targetsContextKey], if any. *)
Record Context : Type := mkContext { targets : option (list (list byte)) }.

(** What [Get] and [Put] do to their collaborators, in program order. *)
Inductive event : Type :=
| StorerGet (mode : ModeGet) (addr : Address)        (* s.Storer.Get *)
| RetrieveChunk (addr : Address)                     (* s.retrieval.RetrieveChunk *)
| GoRecoveryCallback (addr : Address)                (* go s.recoveryCallback(ctx, addr) *)
| StorerPut (mode : ModePut) (chs : list Chunk).     (* s.Storer.Put *)

(** The [store] struct.  [S] is the state of the wrapped [storage.Storer];
    [recoveryCallback = None] is the nil callback left by [New]. *)
Record store (S : Type) : Type := mkStore {
  Storer_Get : S -> ModeGet -> Address -> S * result Chunk;
  Storer_Put : S -> ModePut -> list Chunk -> S * result (list bool);
  retrieval : Address -> result (list byte);
  validators : list (Chunk -> bool);
  recoveryCallback : option (Address -> result unit)
}.
Arguments Storer_Get {S} s.
Arguments Storer_Put {S} s.
Arguments retrieval {S} s.
Arguments validators {S} s.
Arguments recoveryCallback {S} s.

(** [New(s, r, logger, validators...)]. *)
Definition New {S : Type}
    (get : S -> ModeGet -> Address -> S * result Chunk)
    (put : S -> ModePut -> list Chunk -> S * result (list bool))
    (r : Address -> result (list byte)) (vs : list (Chunk -> bool)) : store S :=
  mkStore S get put r vs None.

(** [WithRecoveryCallback(f)]. *)
Definition WithRecoveryCallback {S : Type} (s : store S) (f : Address -> result unit)
  : store S :=
  mkStore S (Storer_Get s) (Storer_Put s) (retrieval s) (validators s) (Some f).

(** The validator loop of [store.valid]. *)
Fixpoint valid_loop (vs : list (Chunk -> bool)) (ch : Chunk) : bool :=
  match vs with
  | [] => false
  | v :: rest => if v ch then true else valid_loop rest ch
  end.

Definition valid {S : Type} (s : store S) (ch : Chunk) : bool :=
  valid_loop (validators s) ch.

Definition is_nil {A : Type} (o : option A) : bool :=
  match o with Some _ => false | None => true end.

(** [store.Get]. *)
Definition Get {S : Type} (s : store S) (ctx : Context) (mode : ModeGet)
    (addr : Address) (st : S) : S * list event * result Chunk :=
  let '(st1, r) := Storer_Get s st mode addr in
  match r with
  | Err err =>
    if errors_Is err ErrNotFound then
      (* request from network *)
      match retrieval s addr with
      | Err err' =>
        if negb (is_nil (recoveryCallback s)) && negb (is_nil (targets ctx)) then
          (st1, [StorerGet mode addr; RetrieveChunk addr; GoRecoveryCallback addr],
           Err ErrRecoveryAttempt)
        else
          (st1, [StorerGet mode addr; RetrieveChunk addr],
           Err (Wrap "netstore retrieve chunk" err'))
      | Ok data =>
        let ch := NewChunk addr data in
        if negb (valid s ch) then
          (st1, [StorerGet mode addr; RetrieveChunk addr], Err ErrInvalidChunk)
        else
          let '(st2, r2) := Storer_Put s st1 ModePutRequest [ch] in
          let tr := [StorerGet mode addr; RetrieveChunk addr;
                     StorerPut ModePutRequest [ch]] in
          match r2 with
          | Err err2 => (st2, tr, Err (Wrap "netstore retrieve put" err2))
          | Ok _ => (st2, tr, Ok ch)
          end
      end
    else (st1, [StorerGet mode addr], Err (Wrap "netstore get" err))
  | Ok ch => (st1, [StorerGet mode addr], Ok ch)
  end.

(** The validation loop at the head of [store.Put]: [false] as soon as one
    chunk is not valid. *)
Fixpoint all_valid {S : Type} (s : store S) (chs : list Chunk) : bool :=
  match chs with
  | [] => true
  | ch :: rest => if negb (valid s ch) then false else all_valid s rest
  end.

(** [store.Put]. *)
Definition Put {S : Type} (s : store S) (mode : ModePut) (chs : list Chunk) (st : S)
  : S * list event * result (list bool) :=
  if all_valid s chs then
    let '(st', r) := Storer_Put s st mode chs in
    (st', [StorerPut mode chs], r)
  else (st, [], Err ErrInvalidChunk).

(** A local store that holds nothing and accepts every put. *)
Definition empty_Get (st : unit) (mode : ModeGet) (addr : Address) : unit * result Chunk :=
  (st, Err ErrNotFound).

Definition accept_Put (st : unit) (mode : ModePut) (chs : list Chunk)
  : unit * result (list bool) :=
  (st, Ok (map (fun _ => false) chs)).

(** [mock.Validator]: accepts every chunk. *)
Definition mock_Validate (ch : Chunk) : bool := true.

(** Example configurations: a node whose local store is empty and whose
    retrieval client delivers one byte of data for every address. *)
Definition deliver_2a (addr : Address) : result (list byte) := Ok [x2a].

Definition plain_store : store unit :=
  New empty_Get accept_Put deliver_2a [mock_Validate].

Definition recovering_store : store unit :=
  WithRecoveryCallback plain_store (fun _ => Ok tt).

Definition unvalidated_store : store unit :=
  New empty_Get accept_Put deliver_2a [].

Definition with_targets : Context := mkContext (Some [[x01]]).

End Netstore.

(** ** Single-owner chunks (pkg/soc/soc.go) *)
Module Soc.

Definition IdSize : Z := 32.
Definition SignatureSize : Z := 65.
(** [crypto.AddressSize]. *)
Definition AddressSize : Z := 20.

Record Owner : Type := mkOwner { address : list byte }.

(** [NewOwner(address)]. *)
Definition NewOwner (addr : list byte) : result Owner :=
  if negb (Z.of_nat (length addr) =? AddressSize)
  then Err (ErrOther "invalid address")
  else Ok (mkOwner addr).

(** [crypto.Signer], as far as this file calls it. *)
Record Signer : Type := mkSigner {
  PublicKey : result (list byte);
  Sign : list byte -> result (list byte)
}.

(** The [Soc] struct.  [owner] and [signer] are a pointer and an interface:
    [None] is nil. *)
Record Soc : Type := mkSoc {
  id : list byte;
  signature : list byte;
  signer : option Signer;
  owner : option Owner;
  chunk : Chunk
}.

(** [NewSoc(id, ch)]: every field not named keeps its zero value. *)
Definition NewSoc (i : list byte) (ch : Chunk) : Soc :=
  mkSoc i [] None None ch.

(** [s.WithOwnerAddress(ownerAddress)]; the argument is a pointer. *)
Definition WithOwnerAddress (s : Soc) (ownerAddress : option Owner) : Soc :=
  mkSoc (id s) (signature s) (signer s) ownerAddress (chunk s).

Section Crypto.

(** The legacy Keccak-256 hasher behind [swarm.NewHasher()]; its [Write]
    never returns an error. *)
Variable keccak256 : list byte -> list byte.

(** [crypto.NewEthereumAddress(publicKey)]. *)
Variable NewEthereumAddress : list byte -> result (list byte).

(** [s.AddSigner(signer)]: the updated struct and the returned error. *)
Definition AddSigner (s : Soc) (sg : Signer) : Soc * option error :=
  match PublicKey sg with
  | Err err => (s, Some err)
  | Ok publicKey =>
    match NewEthereumAddress publicKey with
    | Err err => (s, Some err)
    | Ok ownerAddressBytes =>
      match NewOwner ownerAddressBytes with
      | Err err => (s, Some err)
      | Ok ownerAddress =>
        (mkSoc (id s) (signature s) (Some sg) (Some ownerAddress) (chunk s), None)
      end
    end
  end.

(** [s.OwnerAddress()]: reads [s.owner.address]. *)
Definition OwnerAddress (s : Soc) : outcome (list byte) :=
  match owner s with
  | None => Panicked NilDereference
  | Some o => Returned (address o)
  end.

(** [CreateAddress(id, owner)]: writes [id], then [owner.address], into the
    hasher and returns the sum. *)
Definition CreateAddress (i : list byte) (o : option Owner) : outcome (result Address) :=
  match o with
  | None => Panicked NilDereference
  | Some ow => Returned (Ok (keccak256 (i ++ address ow)))
  end.

(** [s.Address()]. *)
Definition Address (s : Soc) : outcome (result Address) :=
  CreateAddress (id s) (owner s).

End Crypto.

(** [s.CreateChunk()], for a [Soc] that wraps a chunk (a non-nil
    [swarm.Chunk]).  The bytes signed are [append(s.id, payloadSum...)], the
    identifier followed by the address of the wrapped chunk. *)
Definition CreateChunk (keccak256 : list byte -> list byte) (s : Soc)
  : outcome (result Chunk) :=
  match signer s with
  | None => Returned (Err (ErrOther "signer missing"))
  | Some sg =>
    let payloadSum := chAddress (chunk s) in
    let toSignBytes := id s ++ payloadSum in
    (* sign the update *)
    match Sign sg toSignBytes with
    | Err err => Returned (Err err)
    | Ok sig =>
      (* prepare the payload *)
      let buf := id s ++ sig ++ chData (chunk s) in
      (* create chunk *)
      match Address keccak256 s with
      | Panicked p => Panicked p
      | Returned (Err err) => Returned (Err err)
      | Returned (Ok socAddress) => Returned (Ok (NewChunk socAddress buf))
      end
    end
  end.

End Soc.

(** ** Mock storer: pinning (pkg/storage/mock/storer.go) *)
Module MockStorer.

(** [uint64] arithmetic wraps around. *)
Definition u64 (z : Z) : Z := z mod 2 ^ 64.

(** The fields of [MockStorer] that [Set'] touches.  [modeSet] is keyed by [addr.String()], the hex form of the
    address bytes, so by the address itself. *)
Record MockStorer : Type := mkStorer {
  modeSet : Address -> option ModeSet;
  pinnedAddress : list Address;
  pinnedCounter : list Z
}.

(** [NewStorer()]. *)
Definition NewStorer : MockStorer := mkStorer (fun _ => None) [] [].

(** [swarm.NewAddress([]byte{0})], the filler written into the vacated last
    slot when an entry is removed. *)
Definition filler : Address := [x00].

(** The pin loop over [range m.pinnedAddress], from index [i]; [rs] is what
    is left of the ranged slice.  Returns the counters and [found]. *)
Fixpoint pin_loop (rs : list Address) (i : nat) (addr : Address)
    (cnt : list Z) (found : bool) : outcome (list Z * bool) :=
  match rs with
  | [] => Returned (cnt, found)
  | ad :: rest =>
    if Address_Equal addr ad then
      match cnt !! i with
      | None => Panicked IndexOutOfRange
      | Some c => pin_loop rest (S i) addr (<[i := u64 (c + 1)]> cnt) true
      end
    else pin_loop rest (S i) addr cnt found
  end.

Definition pin (m : MockStorer) (addr : Address) : outcome MockStorer :=
  match pin_loop (pinnedAddress m) 0 addr (pinnedCounter m) false with
  | Panicked p => Panicked p
  | Returned (cnt, found) =>
    if negb found
    then Returned (mkStorer (modeSet m) (pinnedAddress m ++ [addr]) (cnt ++ [1]))
    else Returned (mkStorer (modeSet m) (pinnedAddress m) cnt)
  end.

(** [copy(s[i:], s[i+1:]); s[len(s)-1] = zero] on a slice of length [n]
    that sits at the front of the backing array [arr]: the elements after
    [i] move one place down, the last slot of the slice receives [zero], and
    the array beyond the slice is untouched.  The caller then shortens the
    slice to [n - 1]. *)
Definition shift_out {T : Type} (zero : T) (i n : nat) (arr : list T) : list T :=
  take i arr ++ drop (S i) (take n arr) ++ zero :: drop n arr.

(** The unpin loop.  [range m.pinnedAddress] fixes the slice header once: the
    loop visits the indices below the original length and reads each element
    from the backing array [arrA] as it is at that moment, while
    [m.pinnedAddress] and [m.pinnedCounter] (backing arrays [arrA], [arrC],
    current lengths [lenA], [lenC]) shrink under it.  [todo] counts the
    indices not yet visited, [i] is the current one. *)
Fixpoint unpin_loop (todo : nat) (i : nat) (addr : Address)
    (arrA : list Address) (lenA : nat) (arrC : list Z) (lenC : nat)
  : outcome (list Address * nat * (list Z * nat)) :=
  match todo with
  | O => Returned (arrA, lenA, (arrC, lenC))
  | S todo' =>
    match arrA !! i with
    | None => Panicked IndexOutOfRange
    | Some ad =>
      if Address_Equal addr ad then
        if negb (i <? lenC)%nat then Panicked IndexOutOfRange
        else
          match arrC !! i with
          | None => Panicked IndexOutOfRange
          | Some c =>
            let arrC1 := <[i := u64 (c - 1)]> arrC in
            if u64 (c - 1) =? 0 then
              if negb (S i <=? lenA)%nat then Panicked SliceBounds
              else
                let arrA2 := shift_out filler i lenA arrA in
                let arrC2 := shift_out 0 i lenC arrC1 in
                unpin_loop todo' (S i) addr arrA2 (lenA - 1) arrC2 (lenC - 1)
            else unpin_loop todo' (S i) addr arrA lenA arrC1 lenC
          end
      else unpin_loop todo' (S i) addr arrA lenA arrC lenC
    end
  end.

Definition unpin (m : MockStorer) (addr : Address) : outcome MockStorer :=
  let n := length (pinnedAddress m) in
  match unpin_loop n 0 addr (pinnedAddress m) n
                   (pinnedCounter m) (length (pinnedCounter m)) with
  | Panicked p => Panicked p
  | Returned (arrA, lenA, (arrC, lenC)) =>
    Returned (mkStorer (modeSet m) (take lenA arrA) (take lenC arrC))
  end.

(** The body of the loop over [addrs] in [Set']. *)
Definition Set_addr (m : MockStorer) (mode : ModeSet) (addr : Address)
  : outcome MockStorer :=
  let m1 := mkStorer (fun a => if Address_Equal a addr then Some mode else modeSet m a)
                     (pinnedAddress m) (pinnedCounter m) in
  match mode with
  | ModeSetPin => pin m1 addr
  | ModeSetUnpin => unpin m1 addr
  | _ => Returned m1
  end.

(** [m.Set(ctx, mode, addrs...)]; the returned error is always nil.  ([Set]
    itself is a reserved word here.) *)
Fixpoint Set' (m : MockStorer) (mode : ModeSet) (addrs : list Address)
  : outcome MockStorer :=
  match addrs with
  | [] => Returned m
  | addr :: rest =>
    match Set_addr m mode addr with
    | Panicked p => Panicked p
    | Returned m' => Set' m' mode rest
    end
  end.

(** Running a sequence of [Set'] calls from a given storer. *)
Fixpoint run (m : MockStorer) (calls : list (ModeSet * list Address))
  : outcome MockStorer :=
  match calls with
  | [] => Returned m
  | (mode, addrs) :: rest =>
    match Set' m mode addrs with
    | Panicked p => Panicked p
    | Returned m' => run m' rest
    end
  end.

(** The pinned set as the two slices hold it. *)
Definition pins (o : outcome MockStorer) : outcome (list Address * list Z) :=
  match o with
  | Panicked p => Panicked p
  | Returned m => Returned (pinnedAddress m, pinnedCounter m)
  end.

(** The counter the two slices hold for [a]: the one next to the first
    occurrence of [a], and 0 when [a] is not pinned. *)
Fixpoint count_in (A : list Address) (C : list Z) (a : Address) : Z :=
  match A, C with
  | ad :: A', c :: C' => if Address_Equal a ad then c else count_in A' C' a
  | _, _ => 0
  end.

Definition count (m : MockStorer) (a : Address) : Z :=
  count_in (pinnedAddress m) (pinnedCounter m) a.

(** The shape [Set'] keeps the two slices in: same length, no address twice,
    every counter a non-zero [uint64]. *)
Definition wf (m : MockStorer) : Prop :=
  length (pinnedAddress m) = length (pinnedCounter m) /\
  NoDup (pinnedAddress m) /\
  Forall (fun c => 1 <= c < 2 ^ 64) (pinnedCounter m).

(** [m.PinnedChunks(ctx, cursor)]: the pinned addresses with their
    counters. *)
Fixpoint PinnedChunks_loop (rs : list Address) (i : nat) (cnt : list Z)
    (pinnedChunks : list (Address * Z)) : outcome (list (Address * Z)) :=
  match rs with
  | [] => Returned pinnedChunks
  | addr :: rest =>
    match cnt !! i with
    | None => Panicked IndexOutOfRange
    | Some c => PinnedChunks_loop rest (S i) cnt (pinnedChunks ++ [(addr, c)])
    end
  end.

Definition PinnedChunks (m : MockStorer) : outcome (result (list (Address * Z))) :=
  if (length (pinnedAddress m) =? 0)%nat then Returned (Ok [])
  else
    match PinnedChunks_loop (pinnedAddress m) 0 (pinnedCounter m) [] with
    | Panicked p => Panicked p
    | Returned [] => Returned (Err (ErrOther "pin chunks: leveldb: not found"))
    | Returned l => Returned (Ok l)
    end.

(** [m.PinInfo(address)]. *)
Fixpoint PinInfo_loop (rs : list Address) (i : nat) (address : Address) (cnt : list Z)
  : outcome (result Z) :=
  match rs with
  | [] => Returned (Err ErrNotFound)
  | addr :: rest =>
    if Address_Equal addr address then
      match cnt !! i with
      | None => Panicked IndexOutOfRange
      | Some c => Returned (Ok c)
      end
    else PinInfo_loop rest (S i) address cnt
  end.

Definition PinInfo (m : MockStorer) (address : Address) : outcome (result Z) :=
  PinInfo_loop (pinnedAddress m) 0 address (pinnedCounter m).

(** [m.GetModeSet(addr)]; [zero] is the zero value of [storage.ModeSet], which
    the named result holds when the map has no entry. *)
Definition GetModeSet (zero : ModeSet) (m : MockStorer) (addr : Address) : ModeSet :=
  match modeSet m addr with
  | Some mode => mode
  | None => zero
  end.

(** The number of addresses that a sequence of [Set'] calls pins. *)
Fixpoint pin_requests (calls : list (ModeSet * list Address)) : Z :=
  match calls with
  | [] => 0
  | (ModeSetPin, addrs) :: rest => Z.of_nat (length addrs) + pin_requests rest
  | _ :: rest => pin_requests rest
  end.

(** No call of the sequence unpins the filler address. *)
Fixpoint spares_filler (calls : list (ModeSet * list Address)) : Prop :=
  match calls with
  | [] => True
  | (ModeSetUnpin, addrs) :: rest => ~ In filler addrs /\ spares_filler rest
  | _ :: rest => spares_filler rest
  end.

(** The fields of [MockStorer] that [Get], [Put] and [Has] touch.  [store] is
    the map keyed by [addr.String()]; [validator = None] is the nil
    validator. *)
Record Chunks : Type := mkChunks {
  store : Address -> option (list byte);
  validator : option (Chunk -> bool);
  baseAddress : list byte;
  bins : list Z
}.

(** [m.Get(ctx, mode, addr)]. *)
Definition Get (m : Chunks) (mode : ModeGet) (addr : Address) : result Chunk :=
  match store m addr with
  | None => Err ErrNotFound
  | Some v => Ok (NewChunk addr v)
  end.

(** [m.has(ctx, addr)] and [m.Has(ctx, addr)]. *)
Definition has (m : Chunks) (addr : Address) : result bool :=
  match store m addr with
  | None => Ok false
  | Some _ => Ok true
  end.

Definition Has (m : Chunks) (addr : Address) : result bool := has m addr.

(** [m.store[ch.Address().String()] = ch.Data()]. *)
Definition store_set (m : Chunks) (ch : Chunk) : Chunks :=
  mkChunks (fun a => if Address_Equal a (chAddress ch) then Some (chData ch) else store m a)
           (validator m) (baseAddress m) (bins m).

Section Put.

(** [swarm.Proximity]. *)
Variable Proximity : list byte -> list byte -> nat.

(** The loop of [m.Put] over [chs]; [exist] is the slice built so far. *)
Fixpoint Put_loop (m : Chunks) (chs : list Chunk) (exist : list bool)
  : outcome (Chunks * result (list bool)) :=
  match chs with
  | [] => Returned (m, Ok exist)
  | ch :: rest =>
    if match validator m with
       | Some v => negb (v ch)
       | None => false
       end
    then Returned (m, Err ErrInvalidChunk)
    else
      let m1 := store_set m ch in
      match has m1 (chAddress ch) with
      | Err _ => Put_loop m1 rest (exist ++ [false])
      | Ok yes =>
        if yes then Put_loop m1 rest (exist ++ [true])
        else
          let po := Proximity (chAddress ch) (baseAddress m1) in
          match bins m1 !! po with
          | None => Panicked IndexOutOfRange
          | Some c =>
            Put_loop (mkChunks (store m1) (validator m1) (baseAddress m1)
                               (<[po := u64 (c + 1)]> (bins m1)))
                     rest (exist ++ [false])
          end
      end
  end.

(** [m.Put(ctx, mode, chs...)]. *)
Definition Put (m : Chunks) (mode : ModePut) (chs : list Chunk)
  : outcome (Chunks * result (list bool)) :=
  Put_loop m chs [].

End Put.

(** Every chunk passes the storer's validator, if it has one. *)
Definition accepted (m : Chunks) (chs : list Chunk) : Prop :=
  match validator m with
  | Some v => Forall (fun ch => v ch = true) chs
  | None => True
  end.

End MockStorer.

(** ** A netstore over the mock storer

    The netstore holds its local store behind the [storage.Storer] interface;
    here the interface is filled with the mock storer's [Get] and [Put]. *)
Module NetOverMock.

Definition mock_Get (m : MockStorer.Chunks) (mode : ModeGet) (addr : Address)
  : MockStorer.Chunks * result Chunk :=
  (m, MockStorer.Get m mode addr).

(** A panic of the mock's [Put] would unwind through the netstore; it is
    shown below never to happen, and is given a place-holder result here. *)
Definition mock_Put (Proximity : list byte -> list byte -> nat)
    (m : MockStorer.Chunks) (mode : ModePut) (chs : list Chunk)
  : MockStorer.Chunks * result (list bool) :=
  match MockStorer.Put Proximity m mode chs with
  | Returned r => r
  | Panicked _ => (m, Err (ErrOther "panic"))
  end.

Definition netstore (Proximity : list byte -> list byte -> nat)
    (r : Address -> result (list byte)) (vs : list (Chunk -> bool))
  : Netstore.store MockStorer.Chunks :=
  Netstore.New mock_Get (mock_Put Proximity) r vs.

End NetOverMock.

(** ** Push-sync (pkg/pushsync/pushsync.go) *)
Module PushSync.

Definition maxPeers : nat := 5.

(** [time.Minute] and [3 * time.Second], in nanoseconds. *)
Definition blocklistDuration : Z := 60 * 1000000000.
Definition timeToWaitForReceipt : Z := 3 * 1000000000.

Record Receipt : Type := mkReceipt { Receipt_Address : Address }.

(** What the originator and the handler do to their collaborators, in
    program order. *)
Inductive event : Type :=
| ClosestPeer (addr : Address)                  (* ps.peerSuggester.ClosestPeer *)
| EachPeerRev                                   (* ps.peerSuggester.EachPeerRev *)
| TaggerGet (tagID : Z)                         (* ps.tagger.Get *)
| TagIncSent (tagID : Z)                        (* t.Inc(tags.StateSent) *)
| Reserve (peer : Address) (price : Z)          (* ps.accounting.Reserve *)
| Release (peer : Address) (price : Z)          (* ps.accounting.Release *)
| Credit (peer : Address) (price : Z)           (* ps.accounting.Credit *)
| Debit (peer : Address) (price : Z)            (* ps.accounting.Debit *)
| NewStream (peer : Address)                    (* ps.streamer.NewStream *)
| SendDelivery (peer : Address) (addr : Address) (data : list byte)
| ReceiveReceipt (peer : Address)
| StreamReset (peer : Address)                  (* streamer.Reset() *)
| GoFullClose (peer : Address)                  (* go streamer.FullClose() *)
| Blocklist (peer : Address) (duration : Z)     (* ps.streamer.Blocklist *)
| ReadDelivery                                  (* read pb.Delivery from the sender *)
| GoCallback                                    (* go callback() *)
| StorerPut (mode : ModePut) (ch : Chunk)       (* ps.storer.Put *)
| SendReceipt (sender : Address) (addr : Address)
| InboundReset                                  (* stream.Reset() *)
| InboundFullClose.                             (* stream.FullClose() *)

(** How the collaborators answer.  A peer is tried at most once in a call,
    so the answers of a stream are indexed by its peer. *)
Record Env : Type := mkEnv {
  ctxErr : nat -> option error;        (* ctx.Err() if ctx is done at attempt i *)
  topoClosestPeer : Address -> result Address;
  topoPeers : list Address;            (* the peers EachPeerRev visits, in order *)
  DistanceCmp : Address -> Address -> Address -> result Z;   (* swarm.DistanceCmp *)
  tagFound : Z -> bool;                (* tagger.Get: err == nil && t != nil *)
  tagInc : Z -> option error;          (* t.Inc(tags.StateSent) *)
  PeerPrice : Address -> Address -> Z;
  Price : Address -> Z;
  accReserve : Address -> Z -> option error;
  accCredit : Address -> Z -> option error;
  accDebit : Address -> Z -> option error;
  newStream : Address -> option error;
  sendDelivery : Address -> option error;       (* w.WriteMsgWithContext *)
  receiveReceipt : Address -> result Address;   (* r.ReadMsgWithContext *)
  blocklist : Address -> option error;
  readDelivery : result (Address * list byte);
  ValidWithCallback : Chunk -> bool * bool;     (* (valid, callback != nil) *)
  storerPut : ModePut -> Chunk -> option error;
  sendReceipt : Address -> option error
}.

(** [a.IsZero()]: equal to [swarm.ZeroAddress], the address of no bytes. *)
Definition IsZero (a : Address) : bool :=
  match a with [] => true | _ :: _ => false end.

(** The callback that [closestPeer] hands to [EachPeerRev], folded over the
    peers it is called on; [closest] is the captured variable. *)
Fixpoint closestPeer_each (env : Env) (addr : Address) (skipPeers : list Address)
    (peers : list Address) (closest : Address) : result Address :=
  match peers with
  | [] => Ok closest
  | peer :: rest =>
    if existsb (fun a => Address_Equal a peer) skipPeers
    then closestPeer_each env addr skipPeers rest closest
    else if IsZero closest
    then closestPeer_each env addr skipPeers rest peer
    else
      match DistanceCmp env addr closest peer with
      | Err err => Err (Wrap "distance compare error" err)
      | Ok dcmp =>
        if dcmp =? -1
        then closestPeer_each env addr skipPeers rest peer   (* current peer is closer *)
        else closestPeer_each env addr skipPeers rest closest
      end
  end.

(** [ps.closestPeer(addr, skipPeers)]. *)
Definition closestPeer (env : Env) (addr : Address) (skipPeers : list Address)
  : result Address :=
  match closestPeer_each env addr skipPeers (topoPeers env) [] with
  | Err err => Err err
  | Ok closest => if IsZero closest then Err TopologyErrNotFound else Ok closest
  end.

(** The variables of [PushChunkToClosest] that live across attempts, the
    deferred calls (latest first) and the events so far. *)
Record LoopState : Type := mkLoop {
  skipPeers : list Address;
  lastErr : option error;
  deferred : list event;
  trace : list event
}.

Definition log (s : LoopState) (evs : list event) : LoopState :=
  mkLoop (skipPeers s) (lastErr s) (deferred s) (trace s ++ evs).

Definition defer (s : LoopState) (ev : event) : LoopState :=
  mkLoop (skipPeers s) (lastErr s) (ev :: deferred s) (trace s).

Definition set_lastErr (s : LoopState) (err : error) : LoopState :=
  mkLoop (skipPeers s) (Some err) (deferred s) (trace s).

Definition skip (s : LoopState) (peer : Address) : LoopState :=
  mkLoop (skipPeers s ++ [peer]) (lastErr s) (deferred s) (trace s).

(** [ps.blocklistPeer(peer)]; the answer of [Blocklist] is only logged. *)
Definition blocklistPeer (s : LoopState) (peer : Address) : LoopState :=
  log s [Blocklist peer blocklistDuration].

(** The tag update shared by both successful ends of an attempt: [None] when
    the code goes on, [Some err] when [t.Inc] fails and the error is
    returned. *)
Definition incSent (env : Env) (ch : Chunk) (s : LoopState) : LoopState * option error :=
  let s1 := log s [TaggerGet (chTagID ch)] in
  if tagFound env (chTagID ch) then
    (log s1 [TagIncSent (chTagID ch)], tagInc env (chTagID ch))
  else (s1, None).

(** One pass through the loop body either returns from the function or goes
    on to the next iteration ([continue], or the end of the body). *)
Definition step : Type := LoopState * option (result Receipt).

(** The loop body from [skipPeers = append(skipPeers, peer)] on. *)
Definition push_to_peer (env : Env) (ch : Chunk) (peer : Address) (s : LoopState) : step :=
  let addr := chAddress ch in
  let s := skip s peer in
  let receiptPrice := PeerPrice env peer addr in
  let s := log s [Reserve peer receiptPrice] in
  match accReserve env peer receiptPrice with
  | Some err => (s, Some (Err (Wrap "reserve balance for peer" err)))
  | None =>
    let s := defer s (Release peer receiptPrice) in
    let s := log s [NewStream peer] in
    match newStream env peer with
    | Some err => (set_lastErr s (Wrap "new stream for peer" err), None)
    | None =>
      let s := defer s (GoFullClose peer) in
      let s := log s [SendDelivery peer addr (chData ch)] in
      match sendDelivery env peer with
      | Some err =>
        let s := log s [StreamReset peer] in
        let s := set_lastErr s (Wrap "chunk deliver to peer" err) in
        let s := if errors_Is err DeadlineExceeded then blocklistPeer s peer else s in
        (s, None)
      | None =>
        let s := log s [ReceiveReceipt peer] in
        match receiveReceipt env peer with
        | Err err =>
          let s := log s [StreamReset peer] in
          let s := set_lastErr s (Wrap "receive receipt from peer" err) in
          let s := if errors_Is err DeadlineExceeded then blocklistPeer s peer else s in
          (s, None)
        | Ok receiptAddress =>
          (* if you manage to get a tag, just increment the respective counter *)
          match incSent env ch s with
          | (s, Some err) => (s, Some (Err err))
          | (s, None) =>
            (* Check if the receipt is valid *)
            if negb (Address_Equal addr receiptAddress) then
              (log s [StreamReset peer], Some (Err (ErrOther "invalid receipt")))
            else
              let s := log s [Credit peer receiptPrice] in
              match accCredit env peer receiptPrice with
              | Some err => (s, Some (Err err))
              | None => (s, Some (Ok (mkReceipt receiptAddress)))
              end
          end
        end
      end
    end
  end.

(** The body of the loop [for i := 0; i < maxPeers; i++]. *)
Definition attempt (env : Env) (ch : Chunk) (i : nat) (s : LoopState) : step :=
  let addr := chAddress ch in
  match ctxErr env i with
  | Some err => (s, Some (Err err))
  | None =>
    if (i =? 0)%nat then
      let s := log s [ClosestPeer addr] in
      match topoClosestPeer env addr with
      | Err err =>
        if errors_Is err TopologyErrNotFound then (s, None)   (* NOTE: needed for tests *)
        else if errors_Is err ErrWantSelf then
          match incSent env ch s with
          | (s, Some err') => (s, Some (Err err'))
          | (s, None) => (s, Some (Ok (mkReceipt addr)))
          end
        else (s, Some (Err (Wrap "closest peer" err)))
      | Ok peer => push_to_peer env ch peer s
      end
    else
      let s' := log s [EachPeerRev] in
      match closestPeer env addr (skipPeers s) with
      | Err err => (s', Some (Err (Wrap "closest peer" err)))
      | Ok peer => push_to_peer env ch peer s'
      end
  end.

(** [n] more iterations of the loop, starting at index [i], and what follows
    the loop. *)
Fixpoint attempts (env : Env) (ch : Chunk) (n i : nat) (s : LoopState)
  : LoopState * result Receipt :=
  match n with
  | O =>
    match lastErr s with
    | Some err => (s, Err err)
    | None => (s, Err TopologyErrNotFound)
    end
  | S n' =>
    match attempt env ch i s with
    | (s', Some r) => (s', r)
    | (s', None) => attempts env ch n' (S i) s'
    end
  end.

(** [ps.PushChunkToClosest(ctx, ch)]: the events, with the deferred calls run
    at the return, and the result. *)
Definition PushChunkToClosest (env : Env) (ch : Chunk) : list event * result Receipt :=
  let '(s, r) := attempts env ch maxPeers 0 (mkLoop [] None [] []) in
  (trace s ++ deferred s, r).

(** [ps.handleDeliveryResponse(ctx, w, p, chunk)]. *)
Definition handleDeliveryResponse (env : Env) (p : Address) (chunk : Chunk)
  : list event * option error :=
  (* Store the chunk in the local store *)
  match storerPut env ModePutSync chunk with
  | Some err => ([StorerPut ModePutSync chunk], Some (Wrap "chunk store" err))
  | None =>
    (* Send a receipt immediately once the storage of the chunk is successfully *)
    match sendReceipt env (chAddress chunk) with
    | Some err =>
      ([StorerPut ModePutSync chunk; SendReceipt p (chAddress chunk)],
       Some (Wrap "send receipt to peer" err))
    | None =>
      let price := Price env (chAddress chunk) in
      ([StorerPut ModePutSync chunk; SendReceipt p (chAddress chunk); Debit p price],
       accDebit env p price)
    end
  end.

(** The forwarding part of [handler], from [PeerPrice] on; its second
    component lists the deferred calls, latest first. *)
Definition forward (env : Env) (p peer : Address) (chunk : Chunk)
  : list event * list event * option error :=
  let addr := chAddress chunk in
  let receiptPrice := PeerPrice env peer addr in
  match accReserve env peer receiptPrice with
  | Some err => ([Reserve peer receiptPrice], [], Some (Wrap "reserve balance for peer" err))
  | None =>
    let d1 := [Release peer receiptPrice] in
    let t1 := [Reserve peer receiptPrice; NewStream peer] in
    match newStream env peer with
    | Some err => (t1, d1, Some (Wrap "new stream peer" err))
    | None =>
      let t2 := t1 ++ [SendDelivery peer addr (chData chunk)] in
      match sendDelivery env peer with
      | Some err =>
        (t2, StreamReset peer :: d1, Some (Wrap "forward chunk to peer" err))
      | None =>
        let t3 := t2 ++ [ReceiveReceipt peer] in
        match receiveReceipt env peer with
        | Err err =>
          (t3, StreamReset peer :: d1, Some (Wrap "receive receipt from peer" err))
        | Ok receiptAddress =>
          if negb (Address_Equal addr receiptAddress) then
            (t3, StreamReset peer :: d1, Some (ErrOther "invalid receipt from peer"))
          else
            let t4 := t3 ++ [Credit peer receiptPrice] in
            match accCredit env peer receiptPrice with
            | Some err => (t4, StreamReset peer :: d1, Some err)
            | None =>
              let t5 := t4 ++ [SendReceipt p receiptAddress] in
              match sendReceipt env receiptAddress with
              | Some err =>
                (t5, StreamReset peer :: d1, Some (Wrap "send receipt to peer" err))
              | None =>
                let price := Price env addr in
                let r := accDebit env p price in
                (t5 ++ [Debit p price],
                 (match r with Some _ => StreamReset peer | None => GoFullClose peer end)
                   :: d1,
                 r)
              end
            end
        end
      end
    end
  end.

(** [ps.handler(ctx, p, stream)] for the sender [p]: the events, ending with
    the deferred reset or close of the inbound stream, and the error. *)
Definition handler (env : Env) (p : Address) : list event * option error :=
  let finish (tr : list event) (err : option error) :=
    (tr ++ [match err with Some _ => InboundReset | None => InboundFullClose end], err) in
  match readDelivery env with
  | Err err => finish [ReadDelivery] (Some (Wrap "pushsync read delivery" err))
  | Ok (chAddr, chDat) =>
    let chunk := NewChunk chAddr chDat in
    (* validate the chunk and returns the delivery callback for the validator *)
    let '(valid, callback) := ValidWithCallback env chunk in
    if negb valid then finish [ReadDelivery] (Some ErrInvalidChunk)
    else
      (* Select the closest peer to forward the chunk *)
      let tr := [ReadDelivery; ClosestPeer (chAddress chunk)] in
      match topoClosestPeer env (chAddress chunk) with
      | Err err =>
        (* If i am the closest peer then store the chunk and send receipt *)
        if errors_Is err ErrWantSelf then
          let tr := if callback then tr ++ [GoCallback] else tr in
          let '(tr', r) := handleDeliveryResponse env p chunk in
          finish (tr ++ tr') r
        else finish tr (Some err)
      | Ok peer =>
        if Address_Equal p peer then
          let '(tr', r) := handleDeliveryResponse env p chunk in
          finish (tr ++ tr') r
        else
          let '(tr', dfr, r) := forward env p peer chunk in
          finish (tr ++ tr' ++ dfr) r
      end
  end.

(** Example set-ups.  [base_env] is a node with no tags whose collaborators
    all succeed: the topology names [closest] as the closest peer and lists
    [peers], and every peer acknowledges with the address [ack]. *)
Definition base_env (closest : result Address) (peers : list Address) (ack : Address)
  : Env :=
  mkEnv (fun _ => None) (fun _ => closest) peers (fun _ _ _ => Ok 0)
        (fun _ => false) (fun _ => None)
        (fun _ _ => 1) (fun _ => 1)
        (fun _ _ => None) (fun _ _ => None) (fun _ _ => None)
        (fun _ => None) (fun _ => None) (fun _ => Ok ack)
        (fun _ => None)
        (Ok (ack, [x2a])) (fun _ => (true, true))
        (fun _ _ => None) (fun _ => None).

Definition with_sendDelivery (env : Env) (f : Address -> option error) : Env :=
  mkEnv (ctxErr env) (topoClosestPeer env) (topoPeers env) (DistanceCmp env)
        (tagFound env) (tagInc env) (PeerPrice env) (Price env)
        (accReserve env) (accCredit env) (accDebit env)
        (newStream env) f (receiveReceipt env) (blocklist env)
        (readDelivery env) (ValidWithCallback env) (storerPut env) (sendReceipt env).

Definition with_storerPut (env : Env) (f : ModePut -> Chunk -> option error) : Env :=
  mkEnv (ctxErr env) (topoClosestPeer env) (topoPeers env) (DistanceCmp env)
        (tagFound env) (tagInc env) (PeerPrice env) (Price env)
        (accReserve env) (accCredit env) (accDebit env)
        (newStream env) (sendDelivery env) (receiveReceipt env) (blocklist env)
        (readDelivery env) (ValidWithCallback env) f (sendReceipt env).

Definition with_tag (env : Env) : Env :=
  mkEnv (ctxErr env) (topoClosestPeer env) (topoPeers env) (DistanceCmp env)
        (fun _ => true) (tagInc env) (PeerPrice env) (Price env)
        (accReserve env) (accCredit env) (accDebit env)
        (newStream env) (sendDelivery env) (receiveReceipt env) (blocklist env)
        (readDelivery env) (ValidWithCallback env) (storerPut env) (sendReceipt env).

Definition peerA : Address := [x0a].
Definition peerB : Address := [x0b].
Definition chunk1 : Chunk := NewChunk [x01] [x2a].

(** Two peers; the stream to [peerA] breaks with [err] while the delivery is
    written, [peerB] acknowledges. *)
Definition flaky_env (err : error) : Env :=
  with_sendDelivery (base_env (Ok peerA) [peerA; peerB] [x01])
    (fun peer => if Address_Equal peer peerA then Some err else None).

(** The node itself is closest to every chunk. *)
Definition self_env : Env := base_env (Err ErrWantSelf) [] [x01].

(** The node is closest, and its local store fails. *)
Definition full_disk_env : Env :=
  with_storerPut self_env (fun _ _ => Some (ErrOther "disk full")).

(** Attempt [i] gets as far as choosing [peer]: the context is live and the
    topology ([ClosestPeer] on the first attempt, [closestPeer] with the
    peers tried so far on the later ones) names it. *)
Definition picks (env : Env) (ch : Chunk) (i : nat) (s : LoopState) (peer : Address)
  : Prop :=
  ctxErr env i = None /\
  (if (i =? 0)%nat
   then topoClosestPeer env (chAddress ch) = Ok peer
   else closestPeer env (chAddress ch) (skipPeers s) = Ok peer).

(** The state in which the chosen peer is contacted. *)
Definition picked_state (ch : Chunk) (i : nat) (s : LoopState) : LoopState :=
  if (i =? 0)%nat then log s [ClosestPeer (chAddress ch)] else log s [EachPeerRev].

(** Readings of an event list: the successful reservations, the releases,
    the peers contacted (those a reservation was asked for) and the
    credits. *)
Definition reserved_ok (env : Env) (tr : list event) : list (Address * Z) :=
  flat_map (fun ev => match ev with
                      | Reserve p pr =>
                        match accReserve env p pr with
                        | None => [(p, pr)]
                        | Some _ => []
                        end
                      | _ => []
                      end) tr.

Definition released (tr : list event) : list (Address * Z) :=
  flat_map (fun ev => match ev with Release p pr => [(p, pr)] | _ => [] end) tr.

Definition contacted (tr : list event) : list Address :=
  flat_map (fun ev => match ev with Reserve p _ => [p] | _ => [] end) tr.

Definition credited (tr : list event) : list (Address * Z) :=
  flat_map (fun ev => match ev with Credit p pr => [(p, pr)] | _ => [] end) tr.

(** The peers a stream was opened to ([NewStream] was called for). *)
Definition streamed (tr : list event) : list Address :=
  flat_map (fun ev => match ev with NewStream p => [p] | _ => [] end) tr.

(** The loop state at the entry of [PushChunkToClosest]. *)
Definition start_state : LoopState := mkLoop [] None [] [].

(** A distance to [addr] that [DistanceCmp] compares by: [-1] exactly when
    the second address is strictly closer than the first. *)
Definition compares_by (env : Env) (addr : Address) (dist : Address -> Z) : Prop :=
  forall x y, exists c, DistanceCmp env addr x y = Ok c /\ (c = -1 <-> dist y < dist x).

(** A topology of three peers and a distance that orders them by their first
    byte. *)
Definition byte_dist (a : Address) : Z :=
  match a with
  | [] => 0
  | b :: _ => Z.of_N (Byte.to_N b)
  end.

Definition ordered_env : Env :=
  mkEnv (fun _ => None) (fun _ => Err ErrWantSelf) [[x0b]; [x0a]; [x0c]]
        (fun _ x y => Ok (if byte_dist y <? byte_dist x then -1
                          else if byte_dist x <? byte_dist y then 1 else 0))
        (fun _ => false) (fun _ => None)
        (fun _ _ => 1) (fun _ => 1)
        (fun _ _ => None) (fun _ _ => None) (fun _ _ => None)
        (fun _ => None) (fun _ => None) (fun _ => Ok [x01])
        (fun _ => None)
        (Ok ([x01], [x2a])) (fun _ => (true, true))
        (fun _ _ => None) (fun _ => None).

(** The effect [d] of a pass through the loop body, laid over the state [s]
    it started from. *)
Definition over (s d : LoopState) : LoopState :=
  mkLoop (skipPeers s ++ skipPeers d)
    (match lastErr d with Some e => Some e | None => lastErr s end)
    (deferred d ++ deferred s)
    (trace s ++ trace d).

(** What holds of the loop state before attempt [i], as long as the loop has
    not returned: the peers contacted are the peers to skip, none twice and
    at most [i] of them; nothing has been released or credited yet; and the
    deferred calls release exactly the successful reservations. *)
Definition between_attempts (env : Env) (i : nat) (s : LoopState) : Prop :=
  contacted (trace s) = skipPeers s /\ contacted (deferred s) = [] /\
  NoDup (skipPeers s) /\ (length (skipPeers s) <= i)%nat /\
  released (trace s) = [] /\
  released (deferred s) = rev (reserved_ok env (trace s)) /\
  reserved_ok env (deferred s) = [] /\
  credited (trace s) = [] /\ credited (deferred s) = [].

(** What holds when the function returns [r] after [i] attempts: as before,
    except that one credit may have been made, to a peer whose receipt names
    the chunk, and that a returned receipt names the chunk. *)
Definition at_return (env : Env) (ch : Chunk) (i : nat) (s : LoopState)
    (r : result Receipt) : Prop :=
  contacted (trace s) = skipPeers s /\ contacted (deferred s) = [] /\
  NoDup (skipPeers s) /\ (length (skipPeers s) <= i)%nat /\
  released (trace s) = [] /\
  released (deferred s) = rev (reserved_ok env (trace s)) /\
  reserved_ok env (deferred s) = [] /\
  credited (deferred s) = [] /\
  (credited (trace s) = [] \/
   exists peer, credited (trace s) = [(peer, PeerPrice env peer (chAddress ch))] /\
                receiveReceipt env peer = Ok (chAddress ch) /\
                In peer (skipPeers s)) /\
  (forall rec, r = Ok rec -> Receipt_Address rec = chAddress ch).

(** What holds of the streams throughout the loop: they are opened to
    peers to skip, in the order of skipping, never by a deferred call, and
    a credit goes to a peer a stream was opened to. *)
Definition streams_inv (s : LoopState) : Prop :=
  (sublist (streamed (trace s)) (skipPeers s) /\
   streamed (deferred s) = [] /\
   forall (peer : Address) (pr : Z),
     In (peer, pr) (credited (trace s)) -> In peer (streamed (trace s)))%type.

End PushSync.

(** * Properties *)

Lemma Address_Equal_true (a b : Address) : Address_Equal a b = true <-> a = b.
Proof. unfold Address_Equal. destruct (Address_eq_dec a b); split; congruence. Qed.

Lemma Address_Equal_refl (a : Address) : Address_Equal a a = true.
Proof. now apply Address_Equal_true. Qed.

Example getLevels_one_chunk : Joiner.getLevelsFromLength 4096 32 128 = Returned 1.
Proof. vm_compute. reflexivity. Qed.

Example getLevels_two_chunks : Joiner.getLevelsFromLength 8192 32 128 = Returned 2.
Proof. vm_compute. reflexivity. Qed.

Example getLevels_full_two : Joiner.getLevelsFromLength 524288 32 128 = Returned 2.
Proof. vm_compute. reflexivity. Qed.

Example getLevels_three : Joiner.getLevelsFromLength 524289 32 128 = Returned 3.
Proof. vm_compute. reflexivity. Qed.

(** ** Joiner *)

Lemma floor_log_fuel_spec (fuel : nat) :
  forall b c : Z, 2 <= b -> 1 <= c -> c < 2 ^ Z.of_nat fuel ->
    0 <= Joiner.floor_log_fuel fuel b c /\
    b ^ Joiner.floor_log_fuel fuel b c <= c < b ^ (Joiner.floor_log_fuel fuel b c + 1).
Proof.
  induction fuel as [|f IH]; intros b c Hb Hc Hlt.
  - simpl in Hlt. lia.
  - cbn [Joiner.floor_log_fuel].
    destruct (Z.ltb_spec c b) as [Hcb|Hcb].
    + rewrite Z.pow_0_r, Z.pow_1_r. lia.
    + assert (Hq1 : 1 <= c / b) by (apply Z.div_le_lower_bound; lia).
      assert (Hq2 : c / b < 2 ^ Z.of_nat f).
      { apply Z.div_lt_upper_bound; [lia|].
        rewrite Nat2Z.inj_succ, Z.pow_succ_r in Hlt by lia.
        assert (0 < 2 ^ Z.of_nat f) by (apply Z.pow_pos_nonneg; lia). nia. }
      destruct (IH b (c / b) Hb Hq1 Hq2) as (He & Hlo & Hhi).
      set (e := Joiner.floor_log_fuel f b (c / b)) in *.
      assert (Hdm : c = b * (c / b) + c mod b) by (apply Z.div_mod; lia).
      assert (Hm : 0 <= c mod b < b) by (apply Z.mod_pos_bound; lia).
      replace (1 + e) with (Z.succ e) by lia.
      replace (Z.succ e + 1) with (Z.succ (e + 1)) by lia.
      rewrite !Z.pow_succ_r by lia.
      split; [lia|]. split; nia.
Qed.

Lemma floor_log_spec (b c : Z) :
  2 <= b -> 1 <= c ->
  0 <= Joiner.floor_log b c /\
  b ^ Joiner.floor_log b c <= c < b ^ (Joiner.floor_log b c + 1).
Proof.
  intros Hb Hc. unfold Joiner.floor_log.
  apply floor_log_fuel_spec; try assumption.
  rewrite Nat2Z.inj_succ, Z2Nat.id by apply Z.log2_nonneg.
  apply Z.log2_spec. lia.
Qed.

(** The exponent between two consecutive powers is unique, so
    [floor_log b c] is the floor of the logarithm and nothing else. *)
Lemma pow_sandwich_unique (b c e1 e2 : Z) :
  2 <= b -> 0 <= e1 -> 0 <= e2 ->
  b ^ e1 <= c < b ^ (e1 + 1) -> b ^ e2 <= c < b ^ (e2 + 1) -> e1 = e2.
Proof.
  intros Hb H1 H2 [L1 U1] [L2 U2].
  destruct (Z.lt_trichotomy e1 e2) as [Hlt|[Heq|Hgt]]; [exfalso| assumption |exfalso].
  - assert (b ^ (e1 + 1) <= b ^ e2) by (apply Z.pow_le_mono_r; lia). lia.
  - assert (b ^ (e2 + 1) <= b ^ e1) by (apply Z.pow_le_mono_r; lia). lia.
Qed.

Lemma ceil_log_fuel_spec (fuel : nat) :
  forall k num den : Z, 2 <= k -> 1 <= den -> num < den * 2 ^ Z.of_nat fuel ->
    let e := Joiner.ceil_log_fuel fuel k num den in
    0 <= e /\ num <= den * k ^ e /\ (0 < e -> den * k ^ (e - 1) < num).
Proof.
  induction fuel as [|f IH]; intros k num den Hk Hden Hlt; cbn zeta.
  - simpl in Hlt. cbn [Joiner.ceil_log_fuel]. rewrite Z.pow_0_r. lia.
  - cbn [Joiner.ceil_log_fuel].
    destruct (Z.leb_spec num den) as [Hle|Hgt].
    + rewrite Z.pow_0_r. lia.
    + assert (Hfuel : num < den * k * 2 ^ Z.of_nat f).
      { rewrite Nat2Z.inj_succ, Z.pow_succ_r in Hlt by lia.
        assert (0 < 2 ^ Z.of_nat f) by (apply Z.pow_pos_nonneg; lia). nia. }
      assert (Hdk : 1 <= den * k) by nia.
      destruct (IH k num (den * k) Hk Hdk Hfuel) as (He & Hup & Hlow).
      set (e := Joiner.ceil_log_fuel f k num (den * k)) in *.
      replace (1 + e) with (Z.succ e) by lia.
      rewrite Z.pow_succ_r by lia.
      replace (Z.succ e - 1) with e by lia.
      split; [lia|]. split; [lia|]. intros _.
      destruct (Z.eq_dec e 0) as [E0|E0].
      * rewrite E0, Z.pow_0_r. lia.
      * assert (0 < e) by lia. specialize (Hlow H).
        replace e with (Z.succ (e - 1)) at 1 by lia.
        rewrite Z.pow_succ_r by lia. lia.
Qed.

Lemma ceil_log_spec (k num den : Z) :
  2 <= k -> 1 <= den -> 1 <= num ->
  let e := Joiner.ceil_log k num den in
  0 <= e /\ num <= den * k ^ e /\ (0 < e -> den * k ^ (e - 1) < num).
Proof.
  intros Hk Hden Hnum. unfold Joiner.ceil_log.
  apply ceil_log_fuel_spec; try assumption.
  rewrite Nat2Z.inj_succ, Z2Nat.id by apply Z.log2_nonneg.
  assert (num < 2 ^ Z.succ (Z.log2 num)) by (apply Z.log2_spec; lia).
  assert (0 < 2 ^ Z.succ (Z.log2 num)) by (apply Z.pow_pos_nonneg; [lia|]; pose proof (Z.log2_nonneg num); lia).
  nia.
Qed.

(** *** The float computation on the lengths of up to three levels *)

Lemma levels_is_sound (n : Z) (p : positive) :
  Float64.levels_is n p = true ->
  Joiner.log_quot_plus1_trunc (Z.pos p) 128 = Uint63.to_Z (Uint63.of_Z n).
Proof.
  unfold Float64.levels_is. cbn zeta. rewrite !andb_true_iff, !negb_true_iff.
  intros ((((H1 & H2) & H3) & H4) & H5).
  apply Uint63.eqb_spec in H5.
  unfold Joiner.log_quot_plus1_trunc.
  change (Float64.float64_of_int64 (Z.pos p))
    with (PrimFloat.of_uint63 (Uint63.of_pos p)).
  change (Float64.Log (Float64.float64_of_int64 128)) with Float64.L128.
  unfold Float64.int_of_float64. rewrite H1, H2. cbn [andb]. rewrite H3, H4, H5.
  reflexivity.
Qed.

Lemma all_bits_spec (P : positive -> bool) (k : nat) :
  forall p, Float64.all_bits k p P = true ->
  forall c : positive,
    Z.pos p * 2 ^ Z.of_nat k <= Z.pos c < (Z.pos p + 1) * 2 ^ Z.of_nat k -> P c = true.
Proof.
  induction k as [|k IH]; intros p H c Hc.
  - cbn [Float64.all_bits] in H. change (2 ^ Z.of_nat 0) with 1 in Hc.
    assert (E : c = p) by lia. now subst.
  - cbn [Float64.all_bits] in H. apply andb_true_iff in H as [H0 H1].
    rewrite Nat2Z.inj_succ, Z.pow_succ_r in Hc by lia.
    set (X := 2 ^ Z.of_nat k) in *.
    assert (HX : 0 < X) by (apply Z.pow_pos_nonneg; lia).
    destruct (Z.lt_ge_cases (Z.pos c) ((Z.pos p~0 + 1) * X)) as [Hlt|Hge].
    + apply (IH _ H0). rewrite Pos2Z.inj_xO in *. nia.
    + apply (IH _ H1). rewrite Pos2Z.inj_xO in Hge. rewrite Pos2Z.inj_xI. nia.
Qed.

Lemma levels_checked_spec (n : Z) (ks : list nat) (k : nat) (c : positive) :
  Float64.levels_checked n ks = true -> In k ks ->
  2 ^ Z.of_nat k <= Z.pos c < 2 ^ Z.of_nat (S k) ->
  Joiner.log_quot_plus1_trunc (Z.pos c) 128 = Uint63.to_Z (Uint63.of_Z n).
Proof.
  intros Hall Hin Hc. unfold Float64.levels_checked in Hall.
  rewrite forallb_forall in Hall. specialize (Hall k Hin).
  apply levels_is_sound. apply (all_bits_spec _ k 1 Hall).
  rewrite Nat2Z.inj_succ, Z.pow_succ_r in Hc by lia. lia.
Qed.

(** Every [c] from 128 up to [128^2 - 1] gives 2, by running the float
    computation on each of them. *)
Lemma two_levels_checked : Float64.levels_checked 2 (List.seq 7 7) = true.
Proof. vm_compute. reflexivity. Qed.

(** Every [c] from [128^2] up to [128^3 - 1] gives 3, in the same way. *)
Lemma three_levels_checked : Float64.levels_checked 3 (List.seq 14 7) = true.
Proof. vm_compute. reflexivity. Qed.

Lemma bit_length (c : Z) (lo : nat) (n : nat) :
  2 ^ Z.of_nat lo <= c < 2 ^ Z.of_nat (lo + n) ->
  exists k, In k (List.seq lo n) /\ 2 ^ Z.of_nat k <= c < 2 ^ Z.of_nat (S k).
Proof.
  revert lo. induction n as [|n IH]; intros lo Hc.
  - rewrite Nat.add_0_r in Hc. lia.
  - destruct (Z.lt_ge_cases c (2 ^ Z.of_nat (S lo))) as [Hlt|Hge].
    + exists lo. split; [now left | lia].
    + destruct (IH (S lo)) as (k & Hin & Hk).
      { replace (S lo + n)%nat with (lo + S n)%nat by lia. lia. }
      exists k. split; [now right | assumption].
Qed.

Lemma log_quot_128 (c : Z) :
  128 <= c < 2097152 ->
  Joiner.log_quot_plus1_trunc c 128 = if c <? 16384 then 2 else 3.
Proof.
  intros Hc. destruct c as [|p|p]; try lia.
  destruct (Z.ltb_spec (Z.pos p) 16384) as [Hlt|Hge].
  - destruct (bit_length (Z.pos p) 7 7) as (k & Hin & Hk).
    { change (2 ^ Z.of_nat 7) with 128. change (2 ^ Z.of_nat (7 + 7)) with 16384. lia. }
    apply (levels_checked_spec 2 _ k p two_levels_checked Hin Hk).
  - destruct (bit_length (Z.pos p) 14 7) as (k & Hin & Hk).
    { change (2 ^ Z.of_nat 14) with 16384. change (2 ^ Z.of_nat (14 + 7)) with 2097152. lia. }
    apply (levels_checked_spec 3 _ k p three_levels_checked Hin Hk).
Qed.

Lemma floor_log_128 (c : Z) :
  128 <= c < 2097152 ->
  Joiner.floor_log 128 c = if c <? 16384 then 1 else 2.
Proof.
  intros Hc.
  destruct (floor_log_spec 128 c ltac:(lia) ltac:(lia)) as (He & Hb).
  destruct (Z.ltb_spec c 16384).
  - apply (pow_sandwich_unique 128 c _ 1); try lia; try assumption.
  - apply (pow_sandwich_unique 128 c _ 2); try lia; try assumption.
Qed.

Lemma int64_id (z : Z) :
  - 2 ^ 63 <= z < 2 ^ 63 -> Joiner.int64 z = z.
Proof.
  intros Hz. unfold Joiner.int64.
  change (2 ^ 63) with 9223372036854775808 in Hz.
  rewrite Z.mod_small by lia. lia.
Qed.

(** The third branch of [getLevelsFromLength], for [int64] arguments whose
    product does not overflow. *)
Lemma getLevels_branch3 (l s b : Z) :
  - 2 ^ 63 <= l < 2 ^ 63 -> - 2 ^ 63 <= s * b < 2 ^ 63 ->
  l <> 0 -> s * b < l -> s <> 0 ->
  Joiner.getLevelsFromLength l s b =
  Returned (Joiner.log_quot_plus1_trunc (Joiner.int64 (Z.quot (l - 1) s)) b).
Proof.
  intros Hl Hsb Hl0 Hgt Hs. unfold Joiner.getLevelsFromLength. cbn zeta.
  rewrite (int64_id (s * b)) by assumption.
  destruct (Z.eqb_spec l 0) as [|_]; [contradiction|].
  destruct (Z.leb_spec l (s * b)); [lia|].
  destruct (Z.eqb_spec s 0) as [|_]; [contradiction|].
  rewrite (int64_id (l - 1)) by lia. reflexivity.
Qed.

(** For the constants of the program and a length of two or three levels,
    the float computation gives the exact floor of the logarithm, plus
    one. *)
Lemma getLevels_small (l : Z) :
  4096 < l <= 67108864 ->
  Joiner.getLevelsFromLength l 32 128 =
  Returned (Joiner.floor_log 128 ((l - 1) / 32) + 1) /\
  128 <= (l - 1) / 32 < 2097152.
Proof.
  intros Hl.
  assert (Hc : 128 <= (l - 1) / 32 < 2097152).
  { split; [apply Z.div_le_lower_bound; lia | apply Z.div_lt_upper_bound; lia]. }
  split; [|exact Hc].
  rewrite getLevels_branch3;
    try (change (2 ^ 63) with 9223372036854775808; lia).
  rewrite Z.quot_div_nonneg by lia.
  rewrite int64_id by (change (2 ^ 63) with 9223372036854775808; lia).
  rewrite log_quot_128, floor_log_128 by assumption.
  now destruct (_ <? _).
Qed.

(** Further up float rounding decides, and the result is not always the
    floor plus one: the quotient for [2^49 - 1] rounds up to 7, the one for
    1000 at base 10 rounds down below 3. *)
Lemma getLevels_float_rounding :
  Joiner.getLevelsFromLength 18014398509481953 32 128 = Returned 8 /\
  Joiner.floor_log 128 ((18014398509481953 - 1) / 32) + 1 = 7 /\
  Joiner.getLevelsFromLength 2305843009213693921 32 128 = Returned 9 /\
  Joiner.floor_log 128 ((2305843009213693921 - 1) / 32) + 1 = 8 /\
  Joiner.getLevelsFromLength 32001 32 10 = Returned 3 /\
  Joiner.floor_log 10 ((32001 - 1) / 32) + 1 = 4.
Proof. repeat split; vm_compute; reflexivity. Qed.

(** C4, as stated, fails: a file of two full chunks (8192 bytes, 128
    branches) has two levels in [getLevelsFromLength], while
    [ceil(log_k((l-1)/32)) + 1] is three under either reading of the
    quotient. *)
Lemma getLevelsFromLength_not_ceil :
  Joiner.getLevelsFromLength 8192 32 128 = Returned 2 /\
  Joiner.spec_levels_int 8192 32 128 = 3 /\
  Joiner.spec_levels_real 8192 32 128 = 3 /\
  Joiner.getLevelsFromLength 8192 32 128 <> Returned (Joiner.spec_levels_int 8192 32 128) /\
  Joiner.getLevelsFromLength 8192 32 128 <> Returned (Joiner.spec_levels_real 8192 32 128).
Proof. repeat split; try (vm_compute; reflexivity); vm_compute; discriminate. Qed.

(** C4 (amended): for [int64] arguments with [k*32] inside [int64],
    [getLevelsFromLength l 32 k] is 0 for [l = 0], 1 for a non-zero
    [l <= k*32], and otherwise the [float64] quotient of the two logarithms
    plus one, truncated.  For the 128 branches of the program and a length
    of at most [32 * 128^3] this is [floor(log_128((l-1) div 32)) + 1]: one
    more than the exponent [e] with [128^e <= (l-1) div 32 < 128^(e+1)]. *)
Theorem getLevelsFromLength_floor (l k : Z) :
  - 2 ^ 63 <= l < 2 ^ 63 ->
  - 2 ^ 63 <= k * 32 < 2 ^ 63 ->
  (l = 0 -> Joiner.getLevelsFromLength l 32 k = Returned 0) /\
  (l <> 0 -> l <= k * 32 -> Joiner.getLevelsFromLength l 32 k = Returned 1) /\
  (l <> 0 -> k * 32 < l ->
   Joiner.getLevelsFromLength l 32 k =
   Returned (Float64.int_of_float64
               (PrimFloat.add
                  (PrimFloat.div
                     (Float64.Log (Float64.float64_of_int64 (Z.quot (l - 1) 32)))
                     (Float64.Log (Float64.float64_of_int64 k)))
                  Float64.one))) /\
  (k = 128 -> 4096 < l <= 67108864 ->
   exists e, 0 <= e /\ 128 ^ e <= (l - 1) / 32 < 128 ^ (e + 1) /\
             Joiner.getLevelsFromLength l 32 k = Returned (e + 1)).
Proof.
  intros Hl Hk.
  assert (Hprod : Joiner.int64 (32 * k) = 32 * k).
  { apply int64_id. lia. }
  repeat split.
  - intros ->. reflexivity.
  - intros Hl0 Hle. unfold Joiner.getLevelsFromLength. cbn zeta. rewrite Hprod.
    destruct (Z.eqb_spec l 0) as [|_]; [contradiction|].
    destruct (Z.leb_spec l (32 * k)); [reflexivity | lia].
  - intros Hl0 Hgt.
    rewrite getLevels_branch3; try assumption; try lia.
    rewrite int64_id; [reflexivity|].
    change (2 ^ 63) with 9223372036854775808 in *.
    destruct (Z.le_gt_cases 0 (l - 1)) as [Hpos|Hneg].
    + rewrite Z.quot_div_nonneg by lia.
      assert (0 <= (l - 1) / 32) by (apply Z.div_pos; lia).
      assert ((l - 1) / 32 <= l - 1) by (apply Z.div_le_upper_bound; lia).
      lia.
    + replace (l - 1) with (- (1 - l)) by lia.
      rewrite Z.quot_opp_l by lia. rewrite Z.quot_div_nonneg by lia.
      assert (0 <= (1 - l) / 32) by (apply Z.div_pos; lia).
      assert ((1 - l) / 32 <= 1 - l) by (apply Z.div_le_upper_bound; lia).
      lia.
  - intros -> Hrange.
    destruct (getLevels_small l Hrange) as [E Hc].
    destruct (floor_log_spec 128 ((l - 1) / 32) ltac:(lia) ltac:(lia)) as (He & Hb).
    exists (Joiner.floor_log 128 ((l - 1) / 32)). auto.
Qed.

Lemma getLevelsFromLength_floor_witness :
  (- 2 ^ 63 <= 8192 < 2 ^ 63) /\ (- 2 ^ 63 <= 128 * 32 < 2 ^ 63) /\
  ((8192 = 0 -> Joiner.getLevelsFromLength 8192 32 128 = Returned 0) /\
   (8192 <> 0 -> 8192 <= 128 * 32 -> Joiner.getLevelsFromLength 8192 32 128 = Returned 1) /\
   (8192 <> 0 -> 128 * 32 < 8192 ->
    Joiner.getLevelsFromLength 8192 32 128 =
    Returned (Float64.int_of_float64
                (PrimFloat.add
                   (PrimFloat.div
                      (Float64.Log (Float64.float64_of_int64 (Z.quot (8192 - 1) 32)))
                      (Float64.Log (Float64.float64_of_int64 128)))
                   Float64.one))) /\
   (128 = 128 -> 4096 < 8192 <= 67108864 ->
    exists e, 0 <= e /\ 128 ^ e <= (8192 - 1) / 32 < 128 ^ (e + 1) /\
              Joiner.getLevelsFromLength 8192 32 128 = Returned (e + 1))).
Proof.
  assert (H1 : - 2 ^ 63 <= 8192 < 2 ^ 63) by (change (2 ^ 63) with 9223372036854775808; lia).
  assert (H2 : - 2 ^ 63 <= 128 * 32 < 2 ^ 63) by (change (2 ^ 63) with 9223372036854775808; lia).
  split; [exact H1|]. split; [exact H2|].
  apply (getLevelsFromLength_floor 8192 128 H1 H2).
Defined.

(** ** Chunk feeder *)

Lemma pieces_fuel_nil (fuel n : nat) : Pipeline.pieces_fuel fuel n [] = [].
Proof. destruct fuel; reflexivity. Qed.

Lemma Write_loop_feed {NS : Type} (CW : NS -> Pipeline.pipeWriteArgs -> NS * result Z)
    (size : Z) (b : list byte) (fuel : nat) :
  0 < size ->
  forall (n : nat) (w : Z) (st : NS) (log : list Pipeline.pipeWriteArgs),
    (length (drop n b) <= fuel)%nat ->
    Pipeline.Write_loop CW fuel size b (Z.of_nat n) w st log =
    Some (Pipeline.feed CW
            (map Pipeline.record_of (Pipeline.pieces_fuel fuel (Z.to_nat size) (drop n b)))
            w st log).
Proof.
  intros Hsize. induction fuel as [|f IH]; intros n w st log Hfuel.
  - destruct (drop n b) eqn:Hd; [|simpl in Hfuel; lia].
    assert (Hn : (length b <= n)%nat).
    { pose proof (length_drop b n) as H. rewrite Hd in H. simpl in H. lia. }
    cbn [Pipeline.Write_loop Pipeline.pieces_fuel map Pipeline.feed].
    unfold Pipeline.len.
    destruct (Z.ltb_spec (Z.of_nat n) (Z.of_nat (length b))); [lia | reflexivity].
  - cbn [Pipeline.Write_loop]. unfold Pipeline.len at 1.
    destruct (Z.ltb_spec (Z.of_nat n) (Z.of_nat (length b))) as [Hlt|Hge].
    + assert (Hne : drop n b <> []).
      { intros E. pose proof (length_drop b n) as H. rewrite E in H. simpl in H. lia. }
      assert (Hd : (if Z.of_nat n + size >? Pipeline.len b
                    then Pipeline.slice_from b (Z.of_nat n)
                    else Pipeline.slice b (Z.of_nat n) (Z.of_nat n + size))
                   = Some (take (Z.to_nat size) (drop n b))).
      { unfold Pipeline.slice_from, Pipeline.slice, Pipeline.len.
        destruct (Z.gtb_spec (Z.of_nat n + size) (Z.of_nat (length b))) as [Hg|Hl].
        - destruct (Z.leb_spec 0 (Z.of_nat n)); [|lia].
          destruct (Z.leb_spec (Z.of_nat n) (Z.of_nat (length b))); [|lia].
          cbn [andb]. rewrite Nat2Z.id. f_equal. symmetry. apply take_ge.
          rewrite length_drop. lia.
        - destruct (Z.leb_spec 0 (Z.of_nat n)); [|lia].
          destruct (Z.leb_spec (Z.of_nat n) (Z.of_nat n + size)); [|lia].
          destruct (Z.leb_spec (Z.of_nat n + size) (Z.of_nat (length b))); [|lia].
          cbn [andb]. rewrite Nat2Z.id. do 3 f_equal. lia. }
      cbn zeta. rewrite Hd.
      destruct (drop n b) as [|x rest] eqn:Hdrop; [congruence|].
      cbn [Pipeline.pieces_fuel map Pipeline.feed]. rewrite <- Hdrop. rewrite <- Hdrop in Hfuel.
      unfold Pipeline.record_of at 1.
      destruct (CW st _) as [st' [k|e]]; [|reflexivity].
      replace (Z.of_nat n + size) with (Z.of_nat (n + Z.to_nat size)) by lia.
      rewrite IH.
      * rewrite drop_drop. reflexivity.
      * rewrite length_drop. rewrite length_drop in Hfuel. lia.
    + assert (Hn : drop n b = []) by (apply drop_ge; lia).
      rewrite Hn. reflexivity.
Qed.

Lemma Write_feed {NS : Type} (CW : NS -> Pipeline.pipeWriteArgs -> NS * result Z)
    (size : Z) (b : list byte) (st : NS) :
  0 < size ->
  Pipeline.Write CW size b st =
  Some (Pipeline.feed CW
          (map Pipeline.record_of (Pipeline.pieces (Z.to_nat size) b)) 0 st []).
Proof.
  intros Hsize. unfold Pipeline.Write, Pipeline.pieces.
  change 0 with (Z.of_nat 0) at 1.
  rewrite (Write_loop_feed CW size b (length b) Hsize 0%nat); [reflexivity|].
  rewrite drop_0. lia.
Qed.

Lemma feed_all_ok {NS : Type} (CW : NS -> Pipeline.pipeWriteArgs -> NS * result Z)
    (Hok : forall st a, exists st' n, CW st a = (st', Ok n))
    (recs : list Pipeline.pipeWriteArgs) :
  forall w st log, exists st' w',
    Pipeline.feed CW recs w st log = (st', log ++ recs, Returned (Ok w')).
Proof.
  induction recs as [|a rest IH]; intros w st log; cbn [Pipeline.feed].
  - exists st, w. now rewrite app_nil_r.
  - destruct (Hok st a) as (st1 & n & E). rewrite E.
    destruct (IH (w + n) st1 (log ++ [a])) as (st' & w' & E').
    exists st', w'. rewrite E'. now rewrite <- app_assoc.
Qed.

Lemma pieces_fuel_lookup (n : nat) (fuel : nat) :
  forall (b : list byte) (j : nat) (p : list byte),
    Pipeline.pieces_fuel fuel n b !! j = Some p -> p = take n (drop (j * n) b).
Proof.
  induction fuel as [|f IH]; intros b j p H.
  - discriminate.
  - cbn [Pipeline.pieces_fuel] in H. destruct b as [|x b']; [discriminate|].
    destruct j as [|j].
    + simpl in H. injection H as <-. reflexivity.
    + simpl in H. apply IH in H. rewrite drop_drop in H.
      replace (S j * n)%nat with (n + j * n)%nat by lia. exact H.
Qed.

Lemma pieces_fuel_length (n : nat) (fuel : nat) :
  (0 < n)%nat ->
  forall b : list byte, (length b <= fuel)%nat ->
    length (Pipeline.pieces_fuel fuel n b) = ((length b + n - 1) / n)%nat.
Proof.
  intros Hn. induction fuel as [|f IH]; intros b Hb.
  - destruct b; [|simpl in Hb; lia]. simpl.
    symmetry. apply Nat.div_small. lia.
  - cbn [Pipeline.pieces_fuel]. destruct b as [|x b'].
    + simpl. symmetry. apply Nat.div_small. lia.
    + change (length (take n (x :: b') :: Pipeline.pieces_fuel f n (drop n (x :: b'))))
        with (S (length (Pipeline.pieces_fuel f n (drop n (x :: b'))))).
      rewrite IH by (rewrite length_drop; simpl in *; lia).
      rewrite length_drop.
      assert (Hm : (1 <= length (x :: b'))%nat) by (simpl; lia).
      revert Hm. generalize (length (x :: b')) as m. intros m Hm.
      destruct (Nat.le_gt_cases m n) as [Hle|Hgt].
      * replace (m - n + n - 1)%nat with (n - 1)%nat by lia.
        rewrite (Nat.div_small (n - 1) n) by lia.
        apply Nat.div_unique with (r := (m - 1)%nat); lia.
      * replace (m + n - 1)%nat with ((m - n + n - 1) + 1 * n)%nat by lia.
        rewrite Nat.div_add by lia. lia.
Qed.

Lemma pieces_fuel_concat (n : nat) (fuel : nat) :
  (0 < n)%nat ->
  forall b : list byte, (length b <= fuel)%nat ->
    concat (Pipeline.pieces_fuel fuel n b) = b.
Proof.
  intros Hn. induction fuel as [|f IH]; intros b Hb.
  - destruct b; [reflexivity | simpl in Hb; lia].
  - cbn [Pipeline.pieces_fuel]. destruct b as [|x b']; [reflexivity|].
    cbn [concat]. rewrite IH by (rewrite length_drop; simpl in *; lia).
    apply take_drop.
Qed.

Lemma pieces_count (size : Z) (b : list byte) :
  0 < size ->
  Pipeline.len (Pipeline.pieces (Z.to_nat size) b) = (Pipeline.len b + size - 1) / size.
Proof.
  intros Hsize. unfold Pipeline.len, Pipeline.pieces.
  rewrite pieces_fuel_length by lia.
  rewrite Nat2Z.inj_div. f_equal; lia.
Qed.

(** With [size = 0] the loop index never moves: as long as the next stage
    accepts the (empty) records, no amount of fuel ends the loop. *)
Lemma Write_loop_size0_diverges {NS : Type}
    (CW : NS -> Pipeline.pipeWriteArgs -> NS * result Z)
    (Hok : forall s a, exists s' n, CW s a = (s', Ok n))
    (b : list byte) (Hb : b <> []) (fuel : nat) :
  forall (w : Z) (st : NS) (log : list Pipeline.pipeWriteArgs),
    Pipeline.Write_loop CW fuel 0 b 0 w st log = None.
Proof.
  assert (Hlen : (0 <? Pipeline.len b) = true).
  { apply Z.ltb_lt. unfold Pipeline.len. destruct b; [congruence | simpl; lia]. }
  induction fuel as [|f IH]; intros w st log; cbn [Pipeline.Write_loop]; rewrite Hlen.
  - reflexivity.
  - cbn zeta. rewrite Z.add_0_l.
    assert (Hgt : (0 >? Pipeline.len b) = false).
    { apply Z.ltb_lt in Hlen. destruct (Z.gtb_spec 0 (Pipeline.len b)); [lia | reflexivity]. }
    rewrite Hgt. unfold Pipeline.slice.
    destruct (Z.leb_spec 0 (Pipeline.len b)) as [_|Hneg];
      [|apply Z.ltb_lt in Hlen; lia].
    cbn [Z.leb andb Z.compare].
    destruct (Hok st (Pipeline.mkArgs
                (Pipeline.PutUint64 (Pipeline.len (take (Z.to_nat (0 - 0)) (drop (Z.to_nat 0) b)))
                 ++ take (Z.to_nat (0 - 0)) (drop (Z.to_nat 0) b)))) as (st' & n & E).
    rewrite E. apply IH.
Qed.

(** C7, as stated, fails: when the next stage rejects a write, [Write]
    returns that error at once.  Two bytes through a feeder of size 1 make
    one chain write, not [ceil(2/1) = 2]. *)
Lemma chunkFeeder_Write_stops_at_error :
  Pipeline.Write Pipeline.failing_next 1 [x01; x02] tt =
    Some (tt, [Pipeline.record_of [x01]], Returned (Err (ErrOther "trie full"))) /\
  Pipeline.len [Pipeline.record_of [x01]] <> (Pipeline.len [x01; x02] + 1 - 1) / 1.
Proof. split; [reflexivity | vm_compute; discriminate]. Qed.

(** C7 (amended): for a feeder size [s >= 1], [Write b] hands the next
    stage the consecutive [s]-sized pieces of [b] in order (piece [j] is
    [b[j*s : j*s+s]], cut at the end of [b]), each as the 8-byte little-endian
    length of the piece followed by the piece, stopping at the first chain
    write that fails; when every chain write succeeds there are
    [ceil(len(b)/s)] of them and [Write] returns without error. *)
Theorem chunkFeeder_Write_pieces {NS : Type}
    (CW : NS -> Pipeline.pipeWriteArgs -> NS * result Z)
    (size : Z) (b : list byte) (st : NS) :
  0 < size ->
  let ps := Pipeline.pieces (Z.to_nat size) b in
  Pipeline.Write CW size b st =
    Some (Pipeline.feed CW (map Pipeline.record_of ps) 0 st []) /\
  ((forall s a, exists s' n, CW s a = (s', Ok n)) ->
   exists st' w, Pipeline.Write CW size b st =
                 Some (st', map Pipeline.record_of ps, Returned (Ok w))) /\
  Pipeline.len ps = (Pipeline.len b + size - 1) / size /\
  concat ps = b /\
  (forall (j : nat) (p : list byte), ps !! j = Some p ->
     p = take (Z.to_nat size) (drop (j * Z.to_nat size) b) /\
     map Pipeline.record_of ps !! j =
       Some (Pipeline.mkArgs (Pipeline.PutUint64 (Pipeline.len p) ++ p))).
Proof.
  intros Hsize ps. subst ps. repeat split.
  - now apply Write_feed.
  - intros Hok. rewrite Write_feed by assumption.
    destruct (feed_all_ok CW Hok
                (map Pipeline.record_of (Pipeline.pieces (Z.to_nat size) b)) 0 st []) as (st' & w & E).
    exists st', w. now rewrite E.
  - now apply pieces_count.
  - apply pieces_fuel_concat; lia.
  - eapply pieces_fuel_lookup; eassumption.
  - rewrite list_lookup_fmap, H. reflexivity.
Qed.

Lemma chunkFeeder_Write_pieces_witness :
  0 < 2 /\
  Pipeline.Write Pipeline.accepting_next 2 [x01; x02; x03] tt =
    Some (tt,
          [Pipeline.mkArgs [x02; x00; x00; x00; x00; x00; x00; x00; x01; x02];
           Pipeline.mkArgs [x01; x00; x00; x00; x00; x00; x00; x00; x03]],
          Returned (Ok 19)).
Proof.
  split; [lia|].
  destruct (chunkFeeder_Write_pieces Pipeline.accepting_next 2 [x01; x02; x03] tt)
    as (E & _); [lia|].
  rewrite E. reflexivity.
Defined.

(** ** Netstore *)

Lemma valid_loop_Exists (vs : list (Chunk -> bool)) (ch : Chunk) :
  Netstore.valid_loop vs ch = true <-> Exists (fun v => v ch = true) vs.
Proof.
  induction vs as [|v rest IH]; cbn [Netstore.valid_loop].
  - split; [discriminate | intros H; inversion H].
  - destruct (v ch) eqn:Ev.
    + split; [intros _; now constructor | reflexivity].
    + rewrite IH. split; [now constructor 2|].
      intros H. inversion H; subst; [congruence | assumption].
Qed.

Lemma valid_loop_false_Forall (vs : list (Chunk -> bool)) (ch : Chunk) :
  Netstore.valid_loop vs ch = false <-> Forall (fun v => v ch = false) vs.
Proof.
  induction vs as [|v rest IH]; cbn [Netstore.valid_loop].
  - split; [constructor | reflexivity].
  - destruct (v ch) eqn:Ev.
    + split; [discriminate|]. intros H. inversion H; subst. congruence.
    + rewrite IH. split; [now constructor|]. intros H. now inversion H.
Qed.

Lemma all_valid_Forall {S : Type} (s : Netstore.store S) (chs : list Chunk) :
  Netstore.all_valid s chs = true <->
  Forall (fun ch => Exists (fun v => v ch = true) (Netstore.validators s)) chs.
Proof.
  induction chs as [|ch rest IH]; cbn [Netstore.all_valid].
  - split; [constructor | reflexivity].
  - unfold Netstore.valid at 1.
    destruct (Netstore.valid_loop (Netstore.validators s) ch) eqn:Ev; cbn [negb].
    + rewrite IH. apply valid_loop_Exists in Ev.
      split; [now constructor | intros H; now inversion H].
    + split; [discriminate|]. intros H. inversion H; subst.
      apply valid_loop_Exists in H2. congruence.
Qed.

Lemma all_valid_false_Exists {S : Type} (s : Netstore.store S) (chs : list Chunk) :
  Netstore.all_valid s chs = false <->
  Exists (fun ch => Forall (fun v => v ch = false) (Netstore.validators s)) chs.
Proof.
  induction chs as [|ch rest IH]; cbn [Netstore.all_valid].
  - split; [discriminate | intros H; inversion H].
  - unfold Netstore.valid at 1.
    destruct (Netstore.valid_loop (Netstore.validators s) ch) eqn:Ev; cbn [negb].
    + rewrite IH. split; [now constructor 2|].
      intros H. inversion H; subst; [|assumption].
      apply valid_loop_false_Forall in H1. congruence.
    + split; [|reflexivity]. intros _. constructor.
      now apply valid_loop_false_Forall.
Qed.

(** C1, as stated, fails: on a local miss [Get] asks the retrieval client
    first, whatever the context and the callback are.  With recovery targets
    in the context and a recovery callback configured, a successful retrieval
    makes [Get] return the chunk; the callback is not fired and
    [ErrRecoveryAttempt] is not returned. *)
Lemma netstore_Get_retrieves_despite_recovery :
  let s := Netstore.recovering_store in
  let ctx := Netstore.with_targets in
  let a : Address := [x01] in
  snd (Netstore.Storer_Get s tt ModeGetRequest a) = Err ErrNotFound /\
  Netstore.recoveryCallback s <> None /\
  Netstore.targets ctx <> None /\
  exists tr r,
    Netstore.Get s ctx ModeGetRequest a tt = (tt, tr, r) /\
    r = Ok (NewChunk a [x2a]) /\
    r <> Err ErrRecoveryAttempt /\
    ~ In (Netstore.GoRecoveryCallback a) tr /\
    In (Netstore.RetrieveChunk a) tr.
Proof.
  cbn zeta. split; [reflexivity|]. split; [discriminate|]. split; [discriminate|].
  eexists. eexists. split; [reflexivity|].
  split; [reflexivity|]. split; [discriminate|]. split.
  - cbn. intros [H|[H|[H|[]]]]; discriminate.
  - cbn. right. now left.
Qed.

(** C1 (amended): on a local [ErrNotFound], [Get] first calls
    [RetrieveChunk(ctx, addr)].  Only when that call fails does it look at
    the recovery set-up: with a recovery callback configured and recovery
    targets in the context it fires the callback asynchronously and returns
    [ErrRecoveryAttempt]; otherwise it returns the retrieval error, wrapped.
    When the retrieval succeeds the callback is not fired. *)
Theorem netstore_Get_miss {S : Type} (s : Netstore.store S) (ctx : Netstore.Context)
    (mode : ModeGet) (addr : Address) (st st1 : S) (e : error) :
  Netstore.Storer_Get s st mode addr = (st1, Err e) ->
  errors_Is e ErrNotFound = true ->
  exists st' tr' r,
    Netstore.Get s ctx mode addr st =
      (st', Netstore.StorerGet mode addr :: Netstore.RetrieveChunk addr :: tr', r) /\
    (forall e', Netstore.retrieval s addr = Err e' ->
       st' = st1 /\
       if negb (Netstore.is_nil (Netstore.recoveryCallback s)) &&
          negb (Netstore.is_nil (Netstore.targets ctx))
       then tr' = [Netstore.GoRecoveryCallback addr] /\ r = Err ErrRecoveryAttempt
       else tr' = [] /\ r = Err (Wrap "netstore retrieve chunk" e')) /\
    (forall data, Netstore.retrieval s addr = Ok data ->
       ~ In (Netstore.GoRecoveryCallback addr) tr' /\ r <> Err ErrRecoveryAttempt).
Proof.
  intros Hget Hnf. unfold Netstore.Get. rewrite Hget, Hnf.
  destruct (Netstore.retrieval s addr) as [data|e'] eqn:Hr.
  - destruct (negb (Netstore.valid s (NewChunk addr data))).
    + do 3 eexists. split; [reflexivity|]. split; [discriminate|].
      intros d _. split; [intros []| discriminate].
    + destruct (Netstore.Storer_Put s st1 ModePutRequest [NewChunk addr data])
        as [st2 [ex|e2]].
      * do 3 eexists. split; [reflexivity|]. split; [discriminate|].
        intros d _. split; [|discriminate]. intros [H|[]]; discriminate.
      * do 3 eexists. split; [reflexivity|]. split; [discriminate|].
        intros d _. split; [|discriminate]. intros [H|[]]; discriminate.
  - destruct (negb (Netstore.is_nil (Netstore.recoveryCallback s)) &&
              negb (Netstore.is_nil (Netstore.targets ctx))) eqn:Hrec.
    + do 3 eexists. split; [reflexivity|]. split; [|discriminate].
      intros e'' [= <-]. split; [reflexivity|]. now split.
    + do 3 eexists. split; [reflexivity|]. split; [|discriminate].
      intros e'' [= <-]. split; [reflexivity|]. now split.
Qed.

Lemma netstore_Get_miss_witness :
  Netstore.Storer_Get Netstore.recovering_store tt ModeGetRequest [x01]
    = (tt, Err ErrNotFound) /\
  errors_Is ErrNotFound ErrNotFound = true /\
  exists st' tr' r,
    Netstore.Get Netstore.recovering_store Netstore.with_targets ModeGetRequest [x01] tt =
      (st', Netstore.StorerGet ModeGetRequest [x01] :: Netstore.RetrieveChunk [x01] :: tr', r).
Proof.
  split; [reflexivity|]. split; [reflexivity|].
  destruct (netstore_Get_miss Netstore.recovering_store Netstore.with_targets
              ModeGetRequest [x01] tt tt ErrNotFound eq_refl eq_refl)
    as (st' & tr' & r & E & _).
  exists st', tr', r. exact E.
Defined.

(** C5, as stated, fails: the retrieved data is validated before it is
    stored or returned.  A netstore built without validators rejects every
    retrieved chunk: [Get] returns [ErrInvalidChunk] and puts nothing. *)
Lemma netstore_Get_rejects_unvalidated :
  let s := Netstore.unvalidated_store in
  let a : Address := [x01] in
  snd (Netstore.Storer_Get s tt ModeGetRequest a) = Err ErrNotFound /\
  Netstore.retrieval s a = Ok [x2a] /\
  Netstore.Get s (Netstore.mkContext None) ModeGetRequest a tt =
    (tt, [Netstore.StorerGet ModeGetRequest a; Netstore.RetrieveChunk a],
     Err ErrInvalidChunk) /\
  Netstore.Get s (Netstore.mkContext None) ModeGetRequest a tt <>
    (tt, [Netstore.StorerGet ModeGetRequest a; Netstore.RetrieveChunk a;
          Netstore.StorerPut ModePutRequest [NewChunk a [x2a]]],
     Ok (NewChunk a [x2a])).
Proof. cbn zeta. repeat split; try reflexivity. discriminate. Qed.

(** C5 (amended): when the local store misses, the retrieval client returns
    [data] for [addr], some registered validator accepts the chunk
    [(addr, data)] and the local store's [Put] succeeds, [Get] returns that
    chunk, having put it into the local store under [ModePutRequest]; the
    resulting store state is the one that [Put] left. *)
Theorem netstore_Get_retrieved {S : Type} (s : Netstore.store S) (ctx : Netstore.Context)
    (mode : ModeGet) (addr : Address) (st st1 st2 : S) (e : error)
    (data : list byte) (exist : list bool) :
  Netstore.Storer_Get s st mode addr = (st1, Err e) ->
  errors_Is e ErrNotFound = true ->
  Netstore.retrieval s addr = Ok data ->
  Exists (fun v => v (NewChunk addr data) = true) (Netstore.validators s) ->
  Netstore.Storer_Put s st1 ModePutRequest [NewChunk addr data] = (st2, Ok exist) ->
  exists ch,
    chAddress ch = addr /\ chData ch = data /\
    Netstore.Get s ctx mode addr st =
      (st2,
       [Netstore.StorerGet mode addr; Netstore.RetrieveChunk addr;
        Netstore.StorerPut ModePutRequest [ch]],
       Ok ch).
Proof.
  intros Hget Hnf Hr Hv Hput. exists (NewChunk addr data).
  split; [reflexivity|]. split; [reflexivity|].
  unfold Netstore.Get. rewrite Hget, Hnf, Hr.
  unfold Netstore.valid. apply valid_loop_Exists in Hv. rewrite Hv. cbn [negb].
  now rewrite Hput.
Qed.

Lemma netstore_Get_retrieved_witness :
  exists ch,
    chAddress ch = [x01] /\ chData ch = [x2a] /\
    Netstore.Get Netstore.plain_store (Netstore.mkContext None) ModeGetRequest [x01] tt =
      (tt,
       [Netstore.StorerGet ModeGetRequest [x01]; Netstore.RetrieveChunk [x01];
        Netstore.StorerPut ModePutRequest [ch]],
       Ok ch).
Proof.
  apply (netstore_Get_retrieved Netstore.plain_store (Netstore.mkContext None)
           ModeGetRequest [x01] tt tt tt ErrNotFound [x2a] [false]).
  - reflexivity.
  - reflexivity.
  - reflexivity.
  - constructor. reflexivity.
  - reflexivity.
Defined.

(** C6: [Put] returns [ErrInvalidChunk] without any call to the wrapped
    store's [Put] exactly when some chunk of [chs] is accepted by none of the
    registered validators; when every chunk is accepted by at least one
    validator, the whole of [chs] is handed to the wrapped store's [Put]
    (under the same mode) and its state and result are returned. *)
Theorem netstore_Put_validates {S : Type} (s : Netstore.store S) (mode : ModePut)
    (chs : list Chunk) (st : S) :
  (Netstore.Put s mode chs st = (st, [], Err ErrInvalidChunk) <->
   Exists (fun ch => Forall (fun v => v ch = false) (Netstore.validators s)) chs) /\
  (snd (fst (Netstore.Put s mode chs st)) = [] <->
   Exists (fun ch => Forall (fun v => v ch = false) (Netstore.validators s)) chs) /\
  (Forall (fun ch => Exists (fun v => v ch = true) (Netstore.validators s)) chs <->
   Netstore.Put s mode chs st =
     (fst (Netstore.Storer_Put s st mode chs), [Netstore.StorerPut mode chs],
      snd (Netstore.Storer_Put s st mode chs))).
Proof.
  unfold Netstore.Put.
  destruct (Netstore.all_valid s chs) eqn:Hv.
  - assert (Hall := proj1 (all_valid_Forall s chs) Hv).
    assert (Hno : ~ Exists (fun ch => Forall (fun v => v ch = false)
                                        (Netstore.validators s)) chs).
    { intros H. apply all_valid_false_Exists in H. congruence. }
    destruct (Netstore.Storer_Put s st mode chs) as [st' r]. cbn [fst snd].
    split; [|split].
    + split; [discriminate | intros H; contradiction].
    + split; [discriminate | intros H; contradiction].
    + split; [reflexivity | intros _; assumption].
  - assert (Hex := proj1 (all_valid_false_Exists s chs) Hv).
    cbn [fst snd]. split; [|split].
    + split; auto.
    + split; auto.
    + split; [|discriminate]. intros H. apply all_valid_Forall in H. congruence.
Qed.

(** ** Single-owner chunks *)

(** C10: on a [Soc] fresh from [NewSoc], and on one where [AddSigner] has
    returned an error, [OwnerAddress()] and [Address()] dereference the nil
    owner pointer (a run-time panic) and return nothing, not even an error;
    once [WithOwnerAddress] has set an owner or [AddSigner] has returned nil,
    both return their values. *)
Theorem Soc_owner_unset_panics (keccak256 : list byte -> list byte)
    (NewEthereumAddress : list byte -> result (list byte))
    (i : list byte) (ch : Chunk) (sg : Soc.Signer) (o : Soc.Owner) :
  let s := Soc.NewSoc i ch in
  let s' := fst (Soc.AddSigner NewEthereumAddress s sg) in
  (Soc.OwnerAddress s = Panicked NilDereference /\
   Soc.Address keccak256 s = Panicked NilDereference) /\
  (snd (Soc.AddSigner NewEthereumAddress s sg) <> None ->
   Soc.OwnerAddress s' = Panicked NilDereference /\
   Soc.Address keccak256 s' = Panicked NilDereference) /\
  (snd (Soc.AddSigner NewEthereumAddress s sg) = None ->
   exists a, Soc.OwnerAddress s' = Returned a /\
             Soc.Address keccak256 s' = Returned (Ok (keccak256 (i ++ a)))) /\
  (Soc.OwnerAddress (Soc.WithOwnerAddress s (Some o)) = Returned (Soc.address o) /\
   Soc.Address keccak256 (Soc.WithOwnerAddress s (Some o)) =
     Returned (Ok (keccak256 (i ++ Soc.address o)))).
Proof.
  cbn zeta. split; [split; reflexivity|].
  unfold Soc.AddSigner.
  destruct (Soc.PublicKey sg) as [pk|e1]; cbn [fst snd].
  - destruct (NewEthereumAddress pk) as [bytes|e2]; cbn [fst snd].
    + destruct (Soc.NewOwner bytes) as [ow|e3]; cbn [fst snd].
      * split; [congruence|]. split; [|split; reflexivity].
        intros _. exists (Soc.address ow). split; reflexivity.
      * split; [intros _; split; reflexivity|].
        split; [discriminate | split; reflexivity].
    + split; [intros _; split; reflexivity|].
      split; [discriminate | split; reflexivity].
  - split; [intros _; split; reflexivity|].
    split; [discriminate | split; reflexivity].
Qed.

(** ** Mock storer: pinning *)

Lemma Address_Equal_false (a b : Address) : Address_Equal a b = false <-> a <> b.
Proof. unfold Address_Equal. destruct (Address_eq_dec a b); split; congruence. Qed.

Lemma pin_loop_skip (rs : list Address) :
  forall (i : nat) (a : Address) (cnt : list Z) (found : bool),
    a ∉ rs -> MockStorer.pin_loop rs i a cnt found = Returned (cnt, found).
Proof.
  induction rs as [|ad rest IH]; intros i a cnt found Hni; cbn [MockStorer.pin_loop].
  - reflexivity.
  - apply not_elem_of_cons in Hni as [Hne Hrest].
    apply Address_Equal_false in Hne. rewrite Hne. now apply IH.
Qed.

Lemma pin_loop_hit (pre post : list Address) :
  forall (i : nat) (a : Address) (cnt : list Z) (found : bool) (c : Z),
    a ∉ pre -> a ∉ post -> cnt !! (i + length pre)%nat = Some c ->
    MockStorer.pin_loop (pre ++ a :: post) i a cnt found =
      Returned (<[(i + length pre)%nat := MockStorer.u64 (c + 1)]> cnt, true).
Proof.
  induction pre as [|ad pre IH]; intros i a cnt found c Hpre Hpost Hc;
    cbn [app MockStorer.pin_loop length].
  - rewrite Address_Equal_refl. cbn [length] in Hc.
    rewrite Nat.add_0_r in *. rewrite Hc. now apply pin_loop_skip.
  - apply not_elem_of_cons in Hpre as [Hne Hpre].
    apply Address_Equal_false in Hne. rewrite Hne.
    cbn [length] in Hc. replace (i + S (length pre))%nat with (S i + length pre)%nat in * by lia.
    now apply IH.
Qed.

Lemma unpin_loop_skip (todo1 : nat) :
  forall (todo2 i : nat) (a : Address) (arrA : list Address) (lenA : nat)
         (arrC : list Z) (lenC : nat),
    (forall j, (i <= j < i + todo1)%nat -> exists ad, arrA !! j = Some ad /\ ad <> a) ->
    MockStorer.unpin_loop (todo1 + todo2) i a arrA lenA arrC lenC =
    MockStorer.unpin_loop todo2 (i + todo1) a arrA lenA arrC lenC.
Proof.
  induction todo1 as [|t IH]; intros todo2 i a arrA lenA arrC lenC H.
  - now rewrite Nat.add_0_r.
  - cbn [Nat.add MockStorer.unpin_loop].
    destruct (H i ltac:(lia)) as (ad & Had & Hne). rewrite Had.
    assert (Hf : Address_Equal a ad = false) by (apply Address_Equal_false; congruence).
    rewrite Hf. rewrite IH.
    + f_equal. lia.
    + intros j Hj. apply H. lia.
Qed.

Lemma unpin_loop_no_match (todo i : nat) (a : Address) (arrA : list Address)
    (lenA : nat) (arrC : list Z) (lenC : nat) :
  (forall j, (i <= j < i + todo)%nat -> exists ad, arrA !! j = Some ad /\ ad <> a) ->
  MockStorer.unpin_loop todo i a arrA lenA arrC lenC = Returned (arrA, lenA, (arrC, lenC)).
Proof.
  intros H. rewrite <- (Nat.add_0_r todo). rewrite unpin_loop_skip by assumption.
  reflexivity.
Qed.

Lemma lookup_all_differ (l : list Address) (a : Address) (i j : nat) :
  a ∉ l -> (i <= j < i + length l)%nat ->
  forall front, length front = i ->
    exists ad, (front ++ l) !! j = Some ad /\ ad <> a.
Proof.
  intros Hni Hj front Hfront.
  destruct (lookup_lt_is_Some_2 l (j - i)%nat ltac:(lia)) as [ad Had].
  exists ad. split.
  - rewrite lookup_app_r by lia. now rewrite Hfront.
  - intros ->. apply Hni. eapply list_elem_of_lookup_2. eassumption.
Qed.

Lemma insert_middle {T : Type} (l1 l2 : list T) (x y : T) :
  <[length l1 := y]> (l1 ++ x :: l2) = l1 ++ y :: l2.
Proof.
  rewrite insert_app_r_alt by lia. now rewrite Nat.sub_diag.
Qed.

Lemma shift_out_middle {T : Type} (zero x : T) (l1 l2 : list T) :
  MockStorer.shift_out zero (length l1) (length (l1 ++ x :: l2)) (l1 ++ x :: l2)
  = (l1 ++ l2) ++ [zero].
Proof.
  unfold MockStorer.shift_out.
  rewrite (take_ge (l1 ++ x :: l2) (length (l1 ++ x :: l2))) by lia.
  rewrite (drop_ge (l1 ++ x :: l2) (length (l1 ++ x :: l2))) by lia.
  rewrite take_app_length.
  replace (S (length l1)) with (length (l1 ++ [x])) by (rewrite length_app; simpl; lia).
  replace (l1 ++ x :: l2) with ((l1 ++ [x]) ++ l2) by (now rewrite <- app_assoc).
  rewrite drop_app_length. now rewrite <- app_assoc.
Qed.

Section Unpin.
Variables (ms : Address -> option ModeSet) (a : Address).
Variables (pre post : list Address) (cpre cpost : list Z) (c : Z).
Hypothesis Hpre : a ∉ pre.
Hypothesis Hpost : a ∉ post.
Hypothesis Hlpre : length pre = length cpre.
Hypothesis Hlpost : length post = length cpost.

Let A := pre ++ a :: post.
Let C := cpre ++ c :: cpost.

Lemma unpin_reaches_entry (lenA lenC : nat) (arrC : list Z) :
  MockStorer.unpin_loop (length A) 0 a A lenA arrC lenC =
  MockStorer.unpin_loop (S (length post)) (length pre) a A lenA arrC lenC.
Proof.
  subst A. rewrite length_app. cbn [length].
  rewrite unpin_loop_skip; [reflexivity|].
  intros j Hj.
  destruct (lookup_lt_is_Some_2 pre j ltac:(lia)) as [ad Had].
  exists ad. split.
  - now rewrite lookup_app_l by lia.
  - intros ->. apply Hpre. eapply list_elem_of_lookup_2. eassumption.
Qed.

(** Unpinning an address whose counter stays above zero. *)
Lemma unpin_decrements :
  MockStorer.u64 (c - 1) <> 0 ->
  MockStorer.unpin (MockStorer.mkStorer ms A C) a =
  Returned (MockStorer.mkStorer ms A (cpre ++ MockStorer.u64 (c - 1) :: cpost)).
Proof.
  intros Hnz. unfold MockStorer.unpin.
  cbn [MockStorer.pinnedAddress MockStorer.pinnedCounter MockStorer.modeSet].
  rewrite unpin_reaches_entry. cbn [MockStorer.unpin_loop].
  subst A C. rewrite list_lookup_middle by reflexivity.
  rewrite Address_Equal_refl.
  assert (Hlt : (length pre <? length (cpre ++ c :: cpost))%nat = true).
  { apply Nat.ltb_lt. rewrite length_app. cbn [length]. lia. }
  rewrite Hlt. cbn [negb].
  rewrite list_lookup_middle by assumption.
  apply Z.eqb_neq in Hnz. rewrite Hnz.
  rewrite unpin_loop_no_match.
  - rewrite Hlpre, insert_middle. rewrite !take_ge; [reflexivity | |].
    + rewrite !length_app. cbn [length]. lia.
    + lia.
  - intros j Hj.
    replace (pre ++ a :: post) with ((pre ++ [a]) ++ post)
      by (now rewrite <- app_assoc).
    apply lookup_all_differ with (i := S (length pre)); try assumption; try lia.
    rewrite length_app. simpl. lia.
Qed.

(** Unpinning an address whose counter reaches zero removes the entry, as
    long as the address is not the filler that the removal writes into the
    vacated slot. *)
Lemma unpin_removes :
  MockStorer.u64 (c - 1) = 0 ->
  a <> MockStorer.filler ->
  MockStorer.unpin (MockStorer.mkStorer ms A C) a =
  Returned (MockStorer.mkStorer ms (pre ++ post) (cpre ++ cpost)).
Proof.
  intros Hz Hfill. unfold MockStorer.unpin.
  cbn [MockStorer.pinnedAddress MockStorer.pinnedCounter MockStorer.modeSet].
  rewrite unpin_reaches_entry. cbn [MockStorer.unpin_loop].
  subst A C. rewrite list_lookup_middle by reflexivity.
  rewrite Address_Equal_refl.
  assert (Hlt : (length pre <? length (cpre ++ c :: cpost))%nat = true).
  { apply Nat.ltb_lt. rewrite length_app. cbn [length]. lia. }
  rewrite Hlt. cbn [negb].
  rewrite list_lookup_middle by assumption.
  rewrite Hz. cbn [Z.eqb].
  assert (Hle : (S (length pre) <=? length (pre ++ a :: post))%nat = true).
  { apply Nat.leb_le. rewrite length_app. cbn [length]. lia. }
  rewrite Hle. cbn [negb].
  rewrite shift_out_middle.
  replace (<[length pre := 0]> (cpre ++ c :: cpost)) with (cpre ++ 0 :: cpost)
    by (rewrite Hlpre; now rewrite insert_middle).
  replace (MockStorer.shift_out 0 (length pre) (length (cpre ++ c :: cpost))
             (cpre ++ 0 :: cpost))
    with ((cpre ++ cpost) ++ [0]).
  2:{ rewrite Hlpre.
      replace (length (cpre ++ c :: cpost)) with (length (cpre ++ 0 :: cpost))
        by (rewrite !length_app; reflexivity).
      now rewrite shift_out_middle. }
  rewrite unpin_loop_no_match.
  - rewrite !take_app_length'; [reflexivity | |].
    + rewrite !length_app. cbn [length]. lia.
    + rewrite !length_app. cbn [length]. lia.
  - intros j Hj.
    rewrite <- app_assoc.
    apply lookup_all_differ with (i := length pre); try reflexivity.
    + apply not_elem_of_app. split; [assumption|].
      intros H. apply list_elem_of_singleton in H. contradiction.
    + rewrite length_app. simpl. lia.
Qed.

(** When the address is the filler and its entry is not the last one, the
    range loop meets the filler again in the last slot of the old slice and
    indexes the shortened counter slice out of range. *)
Lemma unpin_filler_panics :
  MockStorer.u64 (c - 1) = 0 ->
  a = MockStorer.filler ->
  post <> [] ->
  MockStorer.unpin (MockStorer.mkStorer ms A C) a = Panicked IndexOutOfRange.
Proof.
  intros Hz Hfill Hne. unfold MockStorer.unpin.
  cbn [MockStorer.pinnedAddress MockStorer.pinnedCounter MockStorer.modeSet].
  rewrite unpin_reaches_entry. cbn [MockStorer.unpin_loop].
  subst A C. rewrite list_lookup_middle by reflexivity.
  rewrite Address_Equal_refl.
  assert (Hlt : (length pre <? length (cpre ++ c :: cpost))%nat = true).
  { apply Nat.ltb_lt. rewrite length_app. cbn [length]. lia. }
  rewrite Hlt. cbn [negb].
  rewrite list_lookup_middle by assumption.
  rewrite Hz. cbn [Z.eqb].
  assert (Hle : (S (length pre) <=? length (pre ++ a :: post))%nat = true).
  { apply Nat.leb_le. rewrite length_app. cbn [length]. lia. }
  rewrite Hle. cbn [negb].
  rewrite shift_out_middle.
  replace (<[length pre := 0]> (cpre ++ c :: cpost)) with (cpre ++ 0 :: cpost)
    by (rewrite Hlpre; now rewrite insert_middle).
  replace (MockStorer.shift_out 0 (length pre) (length (cpre ++ c :: cpost))
             (cpre ++ 0 :: cpost))
    with ((cpre ++ cpost) ++ [0]).
  2:{ rewrite Hlpre.
      replace (length (cpre ++ c :: cpost)) with (length (cpre ++ 0 :: cpost))
        by (rewrite !length_app; reflexivity).
      now rewrite shift_out_middle. }
  destruct (exists_last Hne) as (post' & x & Epost).
  assert (Hlen : length post = S (length post')).
  { rewrite Epost, length_app. simpl. lia. }
  rewrite Hlen.
  replace (length post') with (length post' + 0)%nat by lia.
  replace (S (length post' + 0)) with (length post' + 1)%nat by lia.
  rewrite unpin_loop_skip.
  - cbn [MockStorer.unpin_loop].
    assert (Hlast : ((pre ++ post) ++ [MockStorer.filler]) !!
                      (S (length pre) + length post')%nat = Some MockStorer.filler).
    { apply list_lookup_middle. rewrite length_app. lia. }
    rewrite Hlast, Hfill, Address_Equal_refl.
    assert (Hge : (S (length pre) + length post' <?
                   length (cpre ++ c :: cpost) - 1)%nat = false).
    { apply Nat.ltb_ge. rewrite length_app. cbn [length]. lia. }
    now rewrite Hge.
  - intros j Hj.
    rewrite <- app_assoc.
    destruct (lookup_lt_is_Some_2 post (j - length pre)%nat ltac:(lia)) as [ad Had].
    exists ad. split.
    + rewrite lookup_app_r by lia. now rewrite lookup_app_l by lia.
    + intros ->. apply Hpost. eapply list_elem_of_lookup_2. eassumption.
Qed.

End Unpin.

Lemma unpin_absent (ms : Address -> option ModeSet) (a : Address)
    (A : list Address) (C : list Z) :
  a ∉ A ->
  MockStorer.unpin (MockStorer.mkStorer ms A C) a = Returned (MockStorer.mkStorer ms A C).
Proof.
  intros Hni. unfold MockStorer.unpin.
  cbn [MockStorer.pinnedAddress MockStorer.pinnedCounter MockStorer.modeSet].
  rewrite unpin_loop_no_match.
  - now rewrite !take_ge by lia.
  - intros j Hj. apply (lookup_all_differ A a 0 j Hni ltac:(lia) [] eq_refl).
Qed.

Lemma pin_new (ms : Address -> option ModeSet) (a : Address)
    (A : list Address) (C : list Z) :
  a ∉ A ->
  MockStorer.pin (MockStorer.mkStorer ms A C) a =
  Returned (MockStorer.mkStorer ms (A ++ [a]) (C ++ [1])).
Proof.
  intros Hni. unfold MockStorer.pin.
  cbn [MockStorer.pinnedAddress MockStorer.pinnedCounter MockStorer.modeSet].
  now rewrite pin_loop_skip.
Qed.

Lemma pin_increments (ms : Address -> option ModeSet) (a : Address)
    (pre post : list Address) (cpre cpost : list Z) (c : Z) :
  a ∉ pre -> a ∉ post -> length pre = length cpre ->
  MockStorer.pin (MockStorer.mkStorer ms (pre ++ a :: post) (cpre ++ c :: cpost)) a =
  Returned (MockStorer.mkStorer ms (pre ++ a :: post)
              (cpre ++ MockStorer.u64 (c + 1) :: cpost)).
Proof.
  intros Hpre Hpost Hl. unfold MockStorer.pin.
  cbn [MockStorer.pinnedAddress MockStorer.pinnedCounter MockStorer.modeSet].
  rewrite (pin_loop_hit pre post 0 a _ false c Hpre Hpost).
  - cbn [negb Nat.add]. now rewrite Hl, insert_middle.
  - cbn [Nat.add]. now apply list_lookup_middle.
Qed.

Lemma count_in_absent (A : list Address) :
  forall (C : list Z) (a : Address), a ∉ A -> MockStorer.count_in A C a = 0.
Proof.
  induction A as [|ad A IH]; intros C a Hni; cbn [MockStorer.count_in]; [reflexivity|].
  destruct C as [|c C]; [reflexivity|].
  apply not_elem_of_cons in Hni as [Hne Hni].
  apply Address_Equal_false in Hne. rewrite Hne. now apply IH.
Qed.

Lemma count_in_middle (pre : list Address) :
  forall (post : list Address) (cpre cpost : list Z) (a : Address) (c : Z),
    a ∉ pre -> length pre = length cpre ->
    MockStorer.count_in (pre ++ a :: post) (cpre ++ c :: cpost) a = c.
Proof.
  induction pre as [|ad pre IH]; intros post cpre cpost a c Hni Hl;
    destruct cpre as [|c0 cpre]; try discriminate; cbn [app MockStorer.count_in].
  - now rewrite Address_Equal_refl.
  - apply not_elem_of_cons in Hni as [Hne Hni].
    apply Address_Equal_false in Hne. rewrite Hne. apply IH; [assumption|].
    simpl in Hl. lia.
Qed.

Lemma count_in_other (pre : list Address) :
  forall (post : list Address) (cpre cpost : list Z) (a b : Address) (c : Z),
    b <> a -> length pre = length cpre ->
    MockStorer.count_in (pre ++ a :: post) (cpre ++ c :: cpost) b =
    MockStorer.count_in (pre ++ post) (cpre ++ cpost) b.
Proof.
  induction pre as [|ad pre IH]; intros post cpre cpost a b c Hne Hl;
    destruct cpre as [|c0 cpre]; try discriminate; cbn [app MockStorer.count_in].
  - apply Address_Equal_false in Hne. now rewrite Hne.
  - destruct (Address_Equal b ad); [reflexivity|].
    apply IH; [assumption|]. simpl in Hl. lia.
Qed.

Lemma count_in_snoc_other (A : list Address) :
  forall (C : list Z) (a b : Address) (c : Z),
    b <> a -> length A = length C ->
    MockStorer.count_in (A ++ [a]) (C ++ [c]) b = MockStorer.count_in A C b.
Proof.
  induction A as [|ad A IH]; intros C a b c Hne Hl;
    destruct C as [|c0 C]; try discriminate; cbn [app MockStorer.count_in].
  - apply Address_Equal_false in Hne. now rewrite Hne.
  - destruct (Address_Equal b ad); [reflexivity|].
    apply IH; [assumption|]. simpl in Hl. lia.
Qed.

Lemma count_in_snoc_new (A : list Address) :
  forall (C : list Z) (a : Address) (c : Z),
    a ∉ A -> length A = length C ->
    MockStorer.count_in (A ++ [a]) (C ++ [c]) a = c.
Proof.
  intros C a c Hni Hl.
  apply (count_in_middle A [] C [] a c Hni Hl).
Qed.

Lemma split_counters (pre post : list Address) (a : Address) (C : list Z) :
  length (pre ++ a :: post) = length C ->
  exists cpre c cpost,
    C = cpre ++ c :: cpost /\ length pre = length cpre /\ length post = length cpost.
Proof.
  intros Hl. rewrite length_app in Hl. cbn [length] in Hl.
  destruct (lookup_lt_is_Some_2 C (length pre) ltac:(lia)) as [c Hc].
  exists (take (length pre) C), c, (drop (S (length pre)) C).
  split; [|split].
  - symmetry. now apply take_drop_middle.
  - rewrite length_take. lia.
  - rewrite length_drop. lia.
Qed.

Lemma u64_small (z : Z) : 0 <= z < 2 ^ 64 -> MockStorer.u64 z = z.
Proof. intros H. unfold MockStorer.u64. now apply Z.mod_small. Qed.

Lemma NoDup_middle (pre post : list Address) (a : Address) :
  NoDup (pre ++ a :: post) -> (a ∉ pre) /\ (a ∉ post) /\ NoDup (pre ++ post).
Proof.
  intros H. apply NoDup_app in H as (Hpre & Hdisj & Hcons).
  apply NoDup_cons in Hcons as (Hpost & Hnd).
  split; [|split].
  - intros Hin. apply (Hdisj a Hin). now left.
  - assumption.
  - apply NoDup_app. split; [assumption|]. split; [|assumption].
    intros x Hx Hx'. apply (Hdisj x Hx). now right.
Qed.

Lemma pinned_cases (a : Address) (A : list Address) (C : list Z) :
  length A = length C -> NoDup A ->
  a ∉ A \/
  exists pre post cpre c cpost,
    A = pre ++ a :: post /\ C = cpre ++ c :: cpost /\
    length pre = length cpre /\ length post = length cpost /\
    (a ∉ pre) /\ (a ∉ post) /\ NoDup (pre ++ post).
Proof.
  intros Hl Hnd.
  destruct (List.in_dec Address_eq_dec a A) as [Hin|Hni].
  - right. apply list_elem_of_In in Hin.
    apply list_elem_of_split in Hin as (pre & post & ->).
    destruct (split_counters pre post a C Hl) as (cpre & c & cpost & -> & H1 & H2).
    destruct (NoDup_middle pre post a Hnd) as (Hp & Hq & Hn).
    exists pre, post, cpre, c, cpost. auto 10.
  - left. intros H. apply Hni. now apply list_elem_of_In.
Qed.

Lemma NewStorer_wf : MockStorer.wf MockStorer.NewStorer.
Proof. repeat split; constructor. Qed.

(** [Set'(ModeSetPin, a)] on a well-formed storer, short of [uint64]
    overflow: the counter of [a] goes up by one (from 0 when [a] was not
    pinned), the other counters stay, and the storer stays well-formed. *)
Theorem Set_addr_pin_spec (m : MockStorer.MockStorer) (a : Address) :
  MockStorer.wf m ->
  MockStorer.count m a < 2 ^ 64 - 1 ->
  exists m',
    MockStorer.Set_addr m ModeSetPin a = Returned m' /\
    MockStorer.wf m' /\
    MockStorer.count m' a = MockStorer.count m a + 1 /\
    (forall b, b <> a -> MockStorer.count m' b = MockStorer.count m b).
Proof.
  destruct m as [ms A C]. unfold MockStorer.wf, MockStorer.count.
  cbn [MockStorer.pinnedAddress MockStorer.pinnedCounter].
  intros (Hl & Hnd & Hall) Hmax. unfold MockStorer.Set_addr.
  cbn [MockStorer.pinnedAddress MockStorer.pinnedCounter MockStorer.modeSet].
  destruct (pinned_cases a A C Hl Hnd)
    as [Hni | (pre & post & cpre & c & cpost & -> & -> & H1 & H2 & Hp & Hq & Hn)].
  - rewrite pin_new by assumption. eexists. split; [reflexivity|].
    cbn [MockStorer.pinnedAddress MockStorer.pinnedCounter].
    split; [split; [|split]|split].
    + rewrite !length_app. simpl. lia.
    + apply NoDup_app. split; [assumption|]. split; [|apply NoDup_singleton].
      intros x Hx Hx'. apply list_elem_of_singleton in Hx'. congruence.
    + apply Forall_app. split; [assumption|]. constructor; [lia | constructor].
    + rewrite count_in_snoc_new by assumption.
      now rewrite count_in_absent by assumption.
    + intros b Hb. now apply count_in_snoc_other.
  - rewrite count_in_middle in Hmax by assumption.
    apply Forall_app in Hall as (Hall1 & Hall2).
    apply Forall_cons in Hall2 as (Hc & Hall2).
    rewrite pin_increments by assumption. eexists. split; [reflexivity|].
    cbn [MockStorer.pinnedAddress MockStorer.pinnedCounter].
    rewrite u64_small by lia.
    split; [split; [|split]|split].
    + rewrite !length_app. simpl. rewrite !length_app in Hl. simpl in Hl. lia.
    + assumption.
    + apply Forall_app. split; [assumption|]. constructor; [lia | assumption].
    + now rewrite !count_in_middle by assumption.
    + intros b Hb. now rewrite !count_in_other by assumption.
Qed.

(** [Set'(ModeSetUnpin, a)] on a well-formed storer, for an address other
    than the filler: the counter of [a] goes down by one, its entry is gone
    exactly when that makes it zero, the other counters stay, an address
    that is not pinned leaves both slices as they are, and the storer stays
    well-formed. *)
Theorem Set_addr_unpin_spec (m : MockStorer.MockStorer) (a : Address) :
  MockStorer.wf m ->
  a <> MockStorer.filler ->
  exists m',
    MockStorer.Set_addr m ModeSetUnpin a = Returned m' /\
    MockStorer.wf m' /\
    MockStorer.count m' a = Z.max 0 (MockStorer.count m a - 1) /\
    (forall b, b <> a -> MockStorer.count m' b = MockStorer.count m b) /\
    (a ∈ MockStorer.pinnedAddress m' <-> 1 < MockStorer.count m a) /\
    (a ∉ MockStorer.pinnedAddress m ->
     MockStorer.pinnedAddress m' = MockStorer.pinnedAddress m /\
     MockStorer.pinnedCounter m' = MockStorer.pinnedCounter m).
Proof.
  destruct m as [ms A C]. unfold MockStorer.wf, MockStorer.count.
  cbn [MockStorer.pinnedAddress MockStorer.pinnedCounter].
  intros (Hl & Hnd & Hall) Hfill. unfold MockStorer.Set_addr.
  cbn [MockStorer.pinnedAddress MockStorer.pinnedCounter MockStorer.modeSet].
  destruct (pinned_cases a A C Hl Hnd)
    as [Hni | (pre & post & cpre & c & cpost & -> & -> & H1 & H2 & Hp & Hq & Hn)].
  - rewrite unpin_absent by assumption. eexists. split; [reflexivity|].
    cbn [MockStorer.pinnedAddress MockStorer.pinnedCounter].
    rewrite count_in_absent by assumption.
    split; [now split|]. split; [reflexivity|]. split; [reflexivity|].
    split; [|now split]. split; [contradiction | lia].
  - apply Forall_app in Hall as (Hall1 & Hall2).
    apply Forall_cons in Hall2 as (Hc & Hall2).
    rewrite count_in_middle by assumption.
    destruct (Z.eq_dec c 1) as [-> | Hc1].
    + rewrite unpin_removes; try assumption; [|reflexivity].
      eexists. split; [reflexivity|].
      cbn [MockStorer.pinnedAddress MockStorer.pinnedCounter].
      assert (Hna : a ∉ pre ++ post) by (apply not_elem_of_app; now split).
      split; [split; [|split]|split; [|split; [|split]]].
      * rewrite !length_app. lia.
      * assumption.
      * apply Forall_app. now split.
      * now rewrite count_in_absent.
      * intros b Hb. now rewrite count_in_other.
      * split; [contradiction | lia].
      * intros H. exfalso. apply H. apply elem_of_app. right. now left.
    + assert (Hu : MockStorer.u64 (c - 1) = c - 1) by (apply u64_small; lia).
      rewrite unpin_decrements; try assumption; [|lia].
      eexists. split; [reflexivity|].
      cbn [MockStorer.pinnedAddress MockStorer.pinnedCounter].
      rewrite Hu.
      split; [split; [|split]|split; [|split; [|split]]].
      * rewrite !length_app. simpl. rewrite !length_app in Hl. simpl in Hl. lia.
      * assumption.
      * apply Forall_app. split; [assumption|]. constructor; [lia | assumption].
      * rewrite count_in_middle by assumption. lia.
      * intros b Hb. now rewrite !count_in_other by assumption.
      * split; [lia|]. intros _. apply elem_of_app. right. now left.
      * intros H. exfalso. apply H. apply elem_of_app. right. now left.
Qed.

(** In a well-formed storer, the pinned addresses are those with a counter
    of at least one. *)
Lemma wf_pinned_iff_counted (m : MockStorer.MockStorer) (a : Address) :
  MockStorer.wf m ->
  (a ∈ MockStorer.pinnedAddress m <-> 1 <= MockStorer.count m a).
Proof.
  destruct m as [ms A C]. unfold MockStorer.wf, MockStorer.count.
  cbn [MockStorer.pinnedAddress MockStorer.pinnedCounter].
  intros (Hl & Hnd & Hall).
  destruct (pinned_cases a A C Hl Hnd)
    as [Hni | (pre & post & cpre & c & cpost & -> & -> & H1 & H2 & Hp & Hq & Hn)].
  - rewrite count_in_absent by assumption. split; [contradiction | lia].
  - rewrite count_in_middle by assumption.
    apply Forall_app in Hall as (_ & Hall2).
    apply Forall_cons in Hall2 as (Hc & _).
    split; [lia|]. intros _. apply elem_of_app. right. now left.
Qed.

(** C9 at its failing input: pin the one-byte address [00], pin a second
    address, unpin [00].  The removal of [00] writes the filler
    [NewAddress([]byte{0})], which is [00] again, into the vacated last slot;
    the range loop then matches it and indexes [pinnedCounter] past its new
    length.  [Set'] panics where the claim has the entry removed and the
    other entry left with its counter 1. *)
Theorem Set_unpin_filler_address_panics :
  MockStorer.pins
    (MockStorer.run MockStorer.NewStorer
       [(ModeSetPin, [[x00]]); (ModeSetPin, [[x01]])]) =
    Returned ([[x00]; [x01]], [1; 1]) /\
  MockStorer.pins
    (MockStorer.run MockStorer.NewStorer
       [(ModeSetPin, [[x00]]); (ModeSetPin, [[x01]]); (ModeSetUnpin, [[x00]])]) =
    Panicked IndexOutOfRange /\
  MockStorer.pins
    (MockStorer.run MockStorer.NewStorer
       [(ModeSetPin, [[x02]]); (ModeSetPin, [[x01]]); (ModeSetUnpin, [[x02]])]) =
    Returned ([[x01]], [1]).
Proof. repeat split; reflexivity. Qed.

(** ** Push-sync *)

Lemma errors_Is_head (e s1 s2 : error) :
  errors_Is e s1 = true -> errors_Is e s2 = true ->
  error_head_eqb s1 s2 = true \/ (exists m x, s1 = Wrap m x) \/ (exists m x, s2 = Wrap m x).
Proof.
  induction e; cbn [errors_Is]; try (now apply IHe);
    destruct s1, s2; cbn; intros H1 H2; try discriminate; eauto.
  apply String.eqb_eq in H1, H2. subst. left. apply String.eqb_refl.
Qed.

Lemma WantSelf_is_not_NotFound (e : error) :
  errors_Is e ErrWantSelf = true -> errors_Is e TopologyErrNotFound = false.
Proof.
  intros H. destruct (errors_Is e TopologyErrNotFound) eqn:E; [|reflexivity].
  destruct (errors_Is_head e _ _ H E) as [H'|[(m & x & H')|(m & x & H')]]; discriminate.
Qed.

Lemma closestPeer_each_not_skipped (env : PushSync.Env) (addr : Address)
    (skip : list Address) (peers : list Address) :
  forall closest p,
    PushSync.closestPeer_each env addr skip peers closest = Ok p ->
    p = closest \/ (In p peers /\ ~ In p skip).
Proof.
  induction peers as [|peer rest IH]; intros closest p H;
    cbn [PushSync.closestPeer_each] in H.
  - injection H as <-. now left.
  - destruct (existsb (fun a => Address_Equal a peer) skip) eqn:Hsk.
    + destruct (IH _ _ H) as [->|[Hin Hns]]; [now left | right; split; [now right | assumption]].
    + assert (Hpeer : ~ In peer skip).
      { intros Hin. assert (existsb (fun a => Address_Equal a peer) skip = true).
        { apply existsb_exists. exists peer. split; [assumption | apply Address_Equal_refl]. }
        congruence. }
      assert (Hcase : forall q, PushSync.closestPeer_each env addr skip rest q = Ok p ->
                (q = peer \/ q = closest) -> p = closest \/ (In p (peer :: rest) /\ ~ In p skip)).
      { intros q Hq Hor. destruct (IH _ _ Hq) as [->|[Hin Hns]].
        - destruct Hor as [->| ->]; [right; split; [now left | assumption] | now left].
        - right. split; [now right | assumption]. }
      destruct (PushSync.IsZero closest).
      * eapply Hcase; [eassumption | now left].
      * destruct (PushSync.DistanceCmp env addr closest peer) as [dcmp|err]; [|discriminate].
        destruct (dcmp =? -1); (eapply Hcase; [eassumption | auto]).
Qed.

(** The peer that [closestPeer] picks is one of the topology's peers and is
    none of the peers to skip. *)
Lemma closestPeer_not_skipped (env : PushSync.Env) (addr : Address)
    (skip : list Address) (p : Address) :
  PushSync.closestPeer env addr skip = Ok p ->
  In p (PushSync.topoPeers env) /\ ~ In p skip.
Proof.
  unfold PushSync.closestPeer. intros H.
  destruct (PushSync.closestPeer_each env addr skip (PushSync.topoPeers env) [])
    as [closest|err] eqn:E; [|discriminate].
  destruct (PushSync.IsZero closest) eqn:Hz; [discriminate|].
  injection H as <-.
  destruct (closestPeer_each_not_skipped env addr skip _ _ _ E) as [->|H]; [discriminate|assumption].
Qed.

(** C8, as stated, fails: the "sent" counter is incremented only when the
    tagger has a tag for the chunk.  For a chunk without a tag the receipt is
    returned and nothing is incremented. *)
Lemma PushChunkToClosest_self_without_tag :
  PushSync.topoClosestPeer PushSync.self_env (chAddress PushSync.chunk1) = Err ErrWantSelf /\
  PushSync.PushChunkToClosest PushSync.self_env PushSync.chunk1 =
    ([PushSync.ClosestPeer [x01]; PushSync.TaggerGet 0],
     Ok (PushSync.mkReceipt [x01])) /\
  ~ In (PushSync.TagIncSent 0)
       (fst (PushSync.PushChunkToClosest PushSync.self_env PushSync.chunk1)).
Proof.
  split; [reflexivity|]. split; [reflexivity|].
  cbn. intros [H|[H|[]]]; discriminate.
Qed.

(** C8 (amended): if [ClosestPeer] returns [ErrWantSelf] on the first
    attempt, [PushChunkToClosest] opens no stream; it increments the tag's
    "sent" counter if the tagger has a tag for the chunk, returns the error
    of that increment if it fails, and otherwise returns, without error, a
    receipt whose address is the chunk's address. *)
Theorem PushChunkToClosest_want_self (env : PushSync.Env) (ch : Chunk) (e : error) :
  PushSync.ctxErr env 0%nat = None ->
  PushSync.topoClosestPeer env (chAddress ch) = Err e ->
  errors_Is e ErrWantSelf = true ->
  let tr := fst (PushSync.PushChunkToClosest env ch) in
  let r := snd (PushSync.PushChunkToClosest env ch) in
  (forall peer, ~ In (PushSync.NewStream peer) tr) /\
  (if PushSync.tagFound env (chTagID ch)
   then tr = [PushSync.ClosestPeer (chAddress ch); PushSync.TaggerGet (chTagID ch);
              PushSync.TagIncSent (chTagID ch)] /\
        r = match PushSync.tagInc env (chTagID ch) with
            | Some err => Err err
            | None => Ok (PushSync.mkReceipt (chAddress ch))
            end
   else tr = [PushSync.ClosestPeer (chAddress ch); PushSync.TaggerGet (chTagID ch)] /\
        r = Ok (PushSync.mkReceipt (chAddress ch))).
Proof.
  intros Hctx Hcp Hself. cbn zeta.
  unfold PushSync.PushChunkToClosest, PushSync.maxPeers.
  cbn [PushSync.attempts]. unfold PushSync.attempt.
  rewrite Hctx. cbn [Nat.eqb]. rewrite Hcp.
  rewrite (WantSelf_is_not_NotFound e Hself), Hself.
  unfold PushSync.incSent.
  destruct (PushSync.tagFound env (chTagID ch)).
  - destruct (PushSync.tagInc env (chTagID ch)); cbn.
    + split; [|now split]. intros peer [H|[H|[H|[]]]]; discriminate.
    + split; [|now split]. intros peer [H|[H|[H|[]]]]; discriminate.
  - cbn. split; [|now split]. intros peer [H|[H|[]]]; discriminate.
Qed.

Lemma PushChunkToClosest_want_self_witness :
  (forall peer, ~ In (PushSync.NewStream peer)
     (fst (PushSync.PushChunkToClosest (PushSync.with_tag PushSync.self_env)
             PushSync.chunk1))) /\
  fst (PushSync.PushChunkToClosest (PushSync.with_tag PushSync.self_env) PushSync.chunk1) =
    [PushSync.ClosestPeer [x01]; PushSync.TaggerGet 0; PushSync.TagIncSent 0] /\
  snd (PushSync.PushChunkToClosest (PushSync.with_tag PushSync.self_env) PushSync.chunk1) =
    Ok (PushSync.mkReceipt [x01]).
Proof.
  exact (PushChunkToClosest_want_self (PushSync.with_tag PushSync.self_env)
           PushSync.chunk1 ErrWantSelf eq_refl eq_refl eq_refl).
Defined.

Lemma attempt_picks (env : PushSync.Env) (ch : Chunk) (i : nat)
    (s : PushSync.LoopState) (peer : Address) :
  PushSync.picks env ch i s peer ->
  PushSync.attempt env ch i s =
  PushSync.push_to_peer env ch peer (PushSync.picked_state ch i s).
Proof.
  intros [Hctx Hpick]. unfold PushSync.attempt, PushSync.picked_state.
  rewrite Hctx. destruct (i =? 0)%nat; now rewrite Hpick.
Qed.

Lemma attempts_continue (env : PushSync.Env) (ch : Chunk) (n i : nat)
    (s s' : PushSync.LoopState) :
  PushSync.attempt env ch i s = (s', None) ->
  PushSync.attempts env ch (S n) i s = PushSync.attempts env ch n (S i) s'.
Proof. intros H. cbn [PushSync.attempts]. now rewrite H. Qed.

(** C2, as stated, fails: a stream error that is not a deadline does not
    blocklist the peer.  The stream to [peerA] is reset while the delivery is
    written; the push goes on to [peerB] and succeeds, and [peerA] is never
    blocklisted. *)
Lemma PushChunkToClosest_stream_error_no_blocklist :
  let env := PushSync.flaky_env (ErrOther "stream reset") in
  PushSync.topoClosestPeer env (chAddress PushSync.chunk1) = Ok PushSync.peerA /\
  PushSync.sendDelivery env PushSync.peerA = Some (ErrOther "stream reset") /\
  snd (PushSync.PushChunkToClosest env PushSync.chunk1) = Ok (PushSync.mkReceipt [x01]) /\
  In (PushSync.StreamReset PushSync.peerA)
     (fst (PushSync.PushChunkToClosest env PushSync.chunk1)) /\
  forall peer d,
    ~ In (PushSync.Blocklist peer d) (fst (PushSync.PushChunkToClosest env PushSync.chunk1)).
Proof.
  cbn zeta. split; [reflexivity|]. split; [reflexivity|]. split; [reflexivity|].
  split.
  - vm_compute. repeat (first [left; reflexivity | right]).
  - intros peer d. vm_compute. intros H.
    repeat (destruct H as [H|H]; [discriminate|]). exact H.
Qed.

(** C2 (amended): in every attempt of [PushChunkToClosest] that has chosen a
    peer and reserved its price, a failure to open the stream makes the loop
    go on to the next attempt without blocklisting; a failure to write the
    delivery or to read the receipt resets the stream, is recorded as
    [lastErr], blocklists the peer for [blocklistDuration] (one minute)
    exactly when the error is [context.DeadlineExceeded], and makes the loop
    go on to the next attempt.  The peer has joined [skipPeers], so a later
    attempt picks a peer not tried before. *)
Theorem attempt_failure_blocklist (env : PushSync.Env) (ch : Chunk) (i : nat)
    (s : PushSync.LoopState) (peer : Address) :
  PushSync.picks env ch i s peer ->
  PushSync.accReserve env peer (PushSync.PeerPrice env peer (chAddress ch)) = None ->
  let price := PushSync.PeerPrice env peer (chAddress ch) in
  let s0 := PushSync.picked_state ch i s in
  let opened := PushSync.trace s0 ++ [PushSync.Reserve peer price; PushSync.NewStream peer] in
  let skipped := PushSync.skipPeers s ++ [peer] in
  let blocked (e : error) :=
    if errors_Is e DeadlineExceeded
    then [PushSync.Blocklist peer PushSync.blocklistDuration] else [] in
  (forall e, PushSync.newStream env peer = Some e ->
     PushSync.attempt env ch i s =
       (PushSync.mkLoop skipped (Some (Wrap "new stream for peer" e))
          (PushSync.Release peer price :: PushSync.deferred s) opened, None)) /\
  (forall e, PushSync.newStream env peer = None ->
     PushSync.sendDelivery env peer = Some e ->
     PushSync.attempt env ch i s =
       (PushSync.mkLoop skipped (Some (Wrap "chunk deliver to peer" e))
          (PushSync.GoFullClose peer :: PushSync.Release peer price :: PushSync.deferred s)
          (opened ++ [PushSync.SendDelivery peer (chAddress ch) (chData ch);
                      PushSync.StreamReset peer] ++ blocked e), None)) /\
  (forall e, PushSync.newStream env peer = None ->
     PushSync.sendDelivery env peer = None ->
     PushSync.receiveReceipt env peer = Err e ->
     PushSync.attempt env ch i s =
       (PushSync.mkLoop skipped (Some (Wrap "receive receipt from peer" e))
          (PushSync.GoFullClose peer :: PushSync.Release peer price :: PushSync.deferred s)
          (opened ++ [PushSync.SendDelivery peer (chAddress ch) (chData ch);
                      PushSync.ReceiveReceipt peer;
                      PushSync.StreamReset peer] ++ blocked e), None)) /\
  (forall s' n, PushSync.attempt env ch i s = (s', None) ->
     PushSync.attempts env ch (S n) i s = PushSync.attempts env ch n (S i) s') /\
  (forall p', PushSync.closestPeer env (chAddress ch) skipped = Ok p' ->
     p' <> peer /\ ~ In p' (PushSync.skipPeers s)) /\
  PushSync.blocklistDuration = 60 * 1000000000 /\ PushSync.maxPeers = 5%nat.
Proof.
  intros Hpick Hres. cbn zeta.
  rewrite (attempt_picks env ch i s peer Hpick).
  assert (Hskip : PushSync.skipPeers (PushSync.picked_state ch i s) = PushSync.skipPeers s)
    by (unfold PushSync.picked_state; destruct (i =? 0)%nat; reflexivity).
  assert (Hdef : PushSync.deferred (PushSync.picked_state ch i s) = PushSync.deferred s)
    by (unfold PushSync.picked_state; destruct (i =? 0)%nat; reflexivity).
  unfold PushSync.push_to_peer. rewrite Hres.
  repeat split.
  - intros e He. rewrite He.
    unfold PushSync.set_lastErr, PushSync.log, PushSync.defer, PushSync.skip.
    cbn [PushSync.skipPeers PushSync.lastErr PushSync.deferred PushSync.trace].
    rewrite Hskip, Hdef, <- !app_assoc. reflexivity.
  - intros e Hn He. rewrite Hn, He.
    unfold PushSync.blocklistPeer.
    destruct (errors_Is e DeadlineExceeded);
      unfold PushSync.set_lastErr, PushSync.log, PushSync.defer, PushSync.skip;
      cbn [PushSync.skipPeers PushSync.lastErr PushSync.deferred PushSync.trace];
      rewrite Hskip, Hdef, <- !app_assoc; reflexivity.
  - intros e Hn Hs He. rewrite Hn, Hs, He.
    unfold PushSync.blocklistPeer.
    destruct (errors_Is e DeadlineExceeded);
      unfold PushSync.set_lastErr, PushSync.log, PushSync.defer, PushSync.skip;
      cbn [PushSync.skipPeers PushSync.lastErr PushSync.deferred PushSync.trace];
      rewrite Hskip, Hdef, <- !app_assoc; reflexivity.
  - intros s' n H. apply attempts_continue.
    rewrite (attempt_picks env ch i s peer Hpick).
    unfold PushSync.push_to_peer. rewrite Hres. exact H.
  - intros ->. apply closestPeer_not_skipped in H as [_ H].
    apply H. apply in_or_app. right. now left.
  - intros Hin. apply closestPeer_not_skipped in H as [_ H].
    apply H. apply in_or_app. now left.
Qed.

Lemma attempt_failure_blocklist_witness :
  let env := PushSync.flaky_env DeadlineExceeded in
  PushSync.attempt env PushSync.chunk1 0 (PushSync.mkLoop [] None [] []) =
    (PushSync.mkLoop [PushSync.peerA] (Some (Wrap "chunk deliver to peer" DeadlineExceeded))
       [PushSync.GoFullClose PushSync.peerA; PushSync.Release PushSync.peerA 1]
       [PushSync.ClosestPeer [x01]; PushSync.Reserve PushSync.peerA 1;
        PushSync.NewStream PushSync.peerA;
        PushSync.SendDelivery PushSync.peerA [x01] [x2a];
        PushSync.StreamReset PushSync.peerA;
        PushSync.Blocklist PushSync.peerA (60 * 1000000000)], None).
Proof.
  cbn zeta.
  destruct (attempt_failure_blocklist (PushSync.flaky_env DeadlineExceeded)
              PushSync.chunk1 0 (PushSync.mkLoop [] None [] []) PushSync.peerA
              (conj eq_refl eq_refl) eq_refl) as (_ & H & _).
  exact (H DeadlineExceeded eq_refl eq_refl).
Defined.

(** C3, as stated, fails: the receipt and the debit follow only a successful
    store.  The node is the closest one ([ErrWantSelf]) and its local store
    fails: the handler returns the store error and resets the stream; no
    receipt is sent and the sender is not debited. *)
Lemma handler_store_failure_no_receipt :
  let env := PushSync.full_disk_env in
  PushSync.readDelivery env = Ok ([x01], [x2a]) /\
  PushSync.ValidWithCallback env (NewChunk [x01] [x2a]) = (true, true) /\
  PushSync.topoClosestPeer env [x01] = Err ErrWantSelf /\
  PushSync.handler env PushSync.peerA =
    ([PushSync.ReadDelivery; PushSync.ClosestPeer [x01]; PushSync.GoCallback;
      PushSync.StorerPut ModePutSync (NewChunk [x01] [x2a]); PushSync.InboundReset],
     Some (Wrap "chunk store" (ErrOther "disk full"))) /\
  ~ In (PushSync.SendReceipt PushSync.peerA [x01]) (fst (PushSync.handler env PushSync.peerA)) /\
  forall price,
    ~ In (PushSync.Debit PushSync.peerA price) (fst (PushSync.handler env PushSync.peerA)).
Proof.
  cbn zeta. repeat split; try reflexivity.
  - vm_compute. intros H. repeat (destruct H as [H|H]; [discriminate|]). exact H.
  - intros price. vm_compute. intros H.
    repeat (destruct H as [H|H]; [discriminate|]). exact H.
Qed.

(** When the sender itself is the closest peer, the handler stores, sends the
    receipt and debits, but does not start the validator's callback, which
    the [ErrWantSelf] branch does. *)
Lemma handler_sender_closest_no_callback :
  let env := PushSync.base_env (Ok PushSync.peerA) [] [x01] in
  PushSync.ValidWithCallback env (NewChunk [x01] [x2a]) = (true, true) /\
  PushSync.handler env PushSync.peerA =
    ([PushSync.ReadDelivery; PushSync.ClosestPeer [x01];
      PushSync.StorerPut ModePutSync (NewChunk [x01] [x2a]);
      PushSync.SendReceipt PushSync.peerA [x01]; PushSync.Debit PushSync.peerA 1;
      PushSync.InboundFullClose],
     None).
Proof. cbn zeta. split; reflexivity. Qed.

(** C3 (amended): for every valid received delivery for which [ClosestPeer]
    returns [ErrWantSelf] or the sending peer itself, the handler puts the
    chunk into the local store under [ModePutSync]; if the store succeeds it
    sends the sender a receipt with the chunk's address; if that succeeds it
    debits the sender the chunk's price; the first failure is returned and
    the inbound stream reset.  On the [ErrWantSelf] branch the validator's
    delivery callback, when there is one, is started before the store. *)
Theorem handler_local_delivery (env : PushSync.Env) (p a : Address) (d : list byte)
    (cb : bool) :
  PushSync.readDelivery env = Ok (a, d) ->
  PushSync.ValidWithCallback env (NewChunk a d) = (true, cb) ->
  (exists e, PushSync.topoClosestPeer env a = Err e /\ errors_Is e ErrWantSelf = true) \/
  PushSync.topoClosestPeer env a = Ok p ->
  let chunk := NewChunk a d in
  exists pre tl,
    fst (PushSync.handler env p) = pre ++ PushSync.StorerPut ModePutSync chunk :: tl /\
    (forall ev, In ev pre ->
       ev = PushSync.ReadDelivery \/ ev = PushSync.ClosestPeer a \/ ev = PushSync.GoCallback) /\
    ((exists e, PushSync.topoClosestPeer env a = Err e) -> cb = true ->
     In PushSync.GoCallback pre) /\
    match PushSync.storerPut env ModePutSync chunk with
    | Some e =>
      tl = [PushSync.InboundReset] /\
      snd (PushSync.handler env p) = Some (Wrap "chunk store" e)
    | None =>
      match PushSync.sendReceipt env a with
      | Some e =>
        tl = [PushSync.SendReceipt p a; PushSync.InboundReset] /\
        snd (PushSync.handler env p) = Some (Wrap "send receipt to peer" e)
      | None =>
        tl = [PushSync.SendReceipt p a; PushSync.Debit p (PushSync.Price env a);
              match PushSync.accDebit env p (PushSync.Price env a) with
              | Some _ => PushSync.InboundReset
              | None => PushSync.InboundFullClose
              end] /\
        snd (PushSync.handler env p) = PushSync.accDebit env p (PushSync.Price env a)
      end
    end.
Proof.
  intros Hread Hvalid Hclosest. cbn zeta.
  assert (Htail : forall pre,
    (forall ev, In ev pre ->
       ev = PushSync.ReadDelivery \/ ev = PushSync.ClosestPeer a \/ ev = PushSync.GoCallback) ->
    (cb = true -> (exists e, PushSync.topoClosestPeer env a = Err e) ->
     In PushSync.GoCallback pre) ->
    PushSync.handler env p =
      (let '(tr', r) := PushSync.handleDeliveryResponse env p (NewChunk a d) in
       ((pre ++ tr') ++
        [match r with Some _ => PushSync.InboundReset | None => PushSync.InboundFullClose end],
        r)) ->
    exists pre0 tl,
      fst (PushSync.handler env p) =
        pre0 ++ PushSync.StorerPut ModePutSync (NewChunk a d) :: tl /\
      (forall ev, In ev pre0 ->
         ev = PushSync.ReadDelivery \/ ev = PushSync.ClosestPeer a \/ ev = PushSync.GoCallback) /\
      ((exists e, PushSync.topoClosestPeer env a = Err e) -> cb = true ->
       In PushSync.GoCallback pre0) /\
      match PushSync.storerPut env ModePutSync (NewChunk a d) with
      | Some e =>
        tl = [PushSync.InboundReset] /\
        snd (PushSync.handler env p) = Some (Wrap "chunk store" e)
      | None =>
        match PushSync.sendReceipt env a with
        | Some e =>
          tl = [PushSync.SendReceipt p a; PushSync.InboundReset] /\
          snd (PushSync.handler env p) = Some (Wrap "send receipt to peer" e)
        | None =>
          tl = [PushSync.SendReceipt p a; PushSync.Debit p (PushSync.Price env a);
                match PushSync.accDebit env p (PushSync.Price env a) with
                | Some _ => PushSync.InboundReset
                | None => PushSync.InboundFullClose
                end] /\
          snd (PushSync.handler env p) = PushSync.accDebit env p (PushSync.Price env a)
        end
      end).
  { intros pre Hpre Hcb ->. unfold PushSync.handleDeliveryResponse.
    cbn [chAddress NewChunk].
    exists pre.
    destruct (PushSync.storerPut env ModePutSync (NewChunk a d)) as [e|].
    - eexists. cbn [fst snd]. rewrite <- app_assoc. cbn [app].
      split; [reflexivity|]. split; [assumption|]. split; [auto|]. now split.
    - destruct (PushSync.sendReceipt env a) as [e|].
      + eexists. cbn [fst snd]. rewrite <- app_assoc. cbn [app].
        split; [reflexivity|]. split; [assumption|]. split; [auto|]. now split.
      + eexists. cbn [fst snd]. rewrite <- app_assoc. cbn [app].
        split; [reflexivity|]. split; [assumption|]. split; [auto|]. now split. }
  destruct Hclosest as [(e & Hcp & Hself) | Hcp].
  - apply (Htail ([PushSync.ReadDelivery; PushSync.ClosestPeer a] ++
                  if cb then [PushSync.GoCallback] else [])).
    + intros ev Hin. apply in_app_or in Hin as [[<-|[<-|[]]]|Hin]; auto.
      destruct cb; [destruct Hin as [<-|[]]; auto | destruct Hin].
    + intros -> _. apply in_or_app. right. now left.
    + unfold PushSync.handler. rewrite Hread, Hvalid. cbn [negb chAddress NewChunk].
      rewrite Hcp, Hself.
      destruct (PushSync.handleDeliveryResponse env p (NewChunk a d)) as [tr' r].
      now destruct cb.
  - apply (Htail [PushSync.ReadDelivery; PushSync.ClosestPeer a]).
    + intros ev [<-|[<-|[]]]; auto.
    + intros _ [e He]. congruence.
    + unfold PushSync.handler. rewrite Hread, Hvalid. cbn [negb chAddress NewChunk].
      rewrite Hcp, Address_Equal_refl.
      now destruct (PushSync.handleDeliveryResponse env p (NewChunk a d)) as [tr' r].
Qed.

Lemma handler_local_delivery_witness :
  exists pre tl,
    fst (PushSync.handler PushSync.self_env PushSync.peerA) =
      pre ++ PushSync.StorerPut ModePutSync (NewChunk [x01] [x2a]) :: tl /\
    In PushSync.GoCallback pre /\
    tl = [PushSync.SendReceipt PushSync.peerA [x01]; PushSync.Debit PushSync.peerA 1;
          PushSync.InboundFullClose] /\
    snd (PushSync.handler PushSync.self_env PushSync.peerA) = None.
Proof.
  destruct (handler_local_delivery PushSync.self_env PushSync.peerA [x01] [x2a] true
              eq_refl eq_refl
              (or_introl (ex_intro _ ErrWantSelf (conj eq_refl eq_refl))))
    as (pre & tl & E & _ & Hcb & Htl & Hr).
  exists pre, tl. split; [exact E|]. split; [|split; assumption].
  apply Hcb; [now exists ErrWantSelf | reflexivity].
Defined.

(** * Further properties of the code *)

(** ** Joiner: what the level count means *)

(** The level count for the constants of the program, up to three levels. *)
Lemma getLevels_value (l : Z) :
  1 <= l <= 67108864 ->
  Joiner.getLevelsFromLength l 32 128 =
  Returned (if l <=? 4096 then 1 else if l <=? 524288 then 2 else 3).
Proof.
  intros Hl. destruct (Z.leb_spec l 4096) as [Hsmall|Hbig].
  - unfold Joiner.getLevelsFromLength. cbn zeta.
    change (Joiner.int64 (32 * 128)) with 4096.
    destruct (Z.eqb_spec l 0) as [|_]; [lia|].
    destruct (Z.leb_spec l 4096); [reflexivity | lia].
  - destruct (getLevels_small l ltac:(lia)) as [E Hc]. rewrite E.
    rewrite floor_log_128 by assumption. f_equal.
    destruct (Z.ltb_spec ((l - 1) / 32) 16384) as [Hlt|Hge];
      destruct (Z.leb_spec l 524288) as [Hle|Hgt]; try reflexivity; exfalso.
    + assert (524288 <= l - 1) by lia.
      assert (16384 <= (l - 1) / 32) by (apply Z.div_le_lower_bound; lia). lia.
    + assert ((l - 1) / 32 < 16384) by (apply Z.div_lt_upper_bound; lia). lia.
Qed.

(** For the section size and branching of the program and a file of 1 to
    [32 * 128^3] bytes, the level count [L] is the least such that [L]
    levels hold the file: [32 * 128^(L-1) < l <= 32 * 128^L] (the lower
    bound for [L > 1]). *)
Theorem getLevelsFromLength_capacity (l : Z) :
  1 <= l <= 67108864 ->
  exists L, Joiner.getLevelsFromLength l 32 128 = Returned L /\
            1 <= L <= 3 /\
            l <= 32 * 128 ^ L /\
            (1 < L -> 32 * 128 ^ (L - 1) < l).
Proof.
  intros Hl. rewrite (getLevels_value l Hl).
  eexists. split; [reflexivity|].
  destruct (Z.leb_spec l 4096); [|destruct (Z.leb_spec l 524288)].
  - change (128 ^ 1) with 128. lia.
  - change (128 ^ 2) with 16384. change (128 ^ (2 - 1)) with 128. lia.
  - change (128 ^ 3) with 2097152. change (128 ^ (3 - 1)) with 16384. lia.
Qed.

Lemma getLevelsFromLength_capacity_witness :
  exists L, Joiner.getLevelsFromLength 4097 32 128 = Returned L /\
            1 <= L <= 3 /\
            4097 <= 32 * 128 ^ L /\
            (1 < L -> 32 * 128 ^ (L - 1) < 4097).
Proof. apply (getLevelsFromLength_capacity 4097); lia. Defined.

(** Up to [32 * 128^3] bytes a longer file never has fewer levels. *)
Theorem getLevelsFromLength_monotone (l1 l2 : Z) :
  0 <= l1 -> l1 <= l2 -> l2 <= 67108864 ->
  exists L1 L2,
    Joiner.getLevelsFromLength l1 32 128 = Returned L1 /\
    Joiner.getLevelsFromLength l2 32 128 = Returned L2 /\
    L1 <= L2.
Proof.
  intros H0 Hle Hmax.
  destruct (Z.eq_dec l1 0) as [->|Hnz1].
  - destruct (Z.eq_dec l2 0) as [->|Hnz2].
    + exists 0, 0. repeat split; lia.
    + exists 0. eexists. split; [reflexivity|].
      rewrite (getLevels_value l2) by lia. split; [reflexivity|].
      destruct (l2 <=? 4096); [lia|]. destruct (l2 <=? 524288); lia.
  - do 2 eexists.
    rewrite (getLevels_value l1), (getLevels_value l2) by lia.
    split; [reflexivity|]. split; [reflexivity|].
    destruct (Z.leb_spec l1 4096); destruct (Z.leb_spec l2 4096); try lia;
      destruct (Z.leb_spec l1 524288); destruct (Z.leb_spec l2 524288); lia.
Qed.

Lemma getLevelsFromLength_monotone_witness :
  exists L1 L2,
    Joiner.getLevelsFromLength 4096 32 128 = Returned L1 /\
    Joiner.getLevelsFromLength 4097 32 128 = Returned L2 /\
    L1 <= L2.
Proof. apply (getLevelsFromLength_monotone 4096 4097); lia. Defined.

(** ** The span header: encoding and decoding *)

Lemma lor_shiftl_add (a b n : Z) :
  0 <= n -> 0 <= a < 2 ^ n -> Z.lor a (Z.shiftl b n) = a + b * 2 ^ n.
Proof.
  intros Hn Ha.
  assert (Hland : Z.land a (Z.shiftl b n) = 0).
  { apply Z.bits_inj'. intros m Hm. rewrite Z.land_spec, Z.bits_0.
    destruct (Z.lt_ge_cases m n) as [Hlt|Hge].
    - rewrite Z.shiftl_spec_low by assumption. apply andb_false_r.
    - destruct (Z.eq_dec a 0) as [->|Hnz]; [now rewrite Z.bits_0|].
      rewrite (Z.bits_above_log2 a m); [reflexivity | lia |].
      apply Z.log2_lt_pow2; [lia|].
      apply Z.lt_le_trans with (2 ^ n); [lia|].
      apply Z.pow_le_mono_r; lia. }
  rewrite <- Z.lxor_lor by assumption.
  rewrite <- Z.add_nocarry_lxor by assumption.
  now rewrite Z.shiftl_mul_pow2 by assumption.
Qed.

Lemma byte_to_of_Z (z : Z) : Joiner.byte_to_Z (Pipeline.byte_of_Z z) = z mod 256.
Proof.
  unfold Joiner.byte_to_Z, Pipeline.byte_of_Z.
  assert (Hm : 0 <= z mod 256 < 256) by (apply Z.mod_pos_bound; lia).
  destruct (Byte.of_N (Z.to_N (z mod 256))) as [b|] eqn:E.
  - apply Byte.to_of_N in E. rewrite E. apply Z2N.id. lia.
  - apply Byte.of_N_None_iff in E. lia.
Qed.

Lemma byte_to_Z_range (b : byte) : 0 <= Joiner.byte_to_Z b < 256.
Proof.
  unfold Joiner.byte_to_Z. pose proof (Byte.to_N_bounded b). lia.
Qed.

Lemma Uint64_PutUint64 (v : Z) :
  Joiner.Uint64 (Pipeline.PutUint64 v) = Returned (v mod 2 ^ 64).
Proof.
  unfold Pipeline.PutUint64. cbn [map Joiner.Uint64]. f_equal.
  rewrite !byte_to_of_Z.
  rewrite !Z.shiftr_div_pow2 by lia.
  change (8 * 0) with 0. change (8 * 1) with 8. change (8 * 2) with 16.
  change (8 * 3) with 24. change (8 * 4) with 32. change (8 * 5) with 40.
  change (8 * 6) with 48. change (8 * 7) with 56.
  rewrite Z.pow_0_r, Z.div_1_r.
  assert (R : forall k, 0 <= (v / 2 ^ k) mod 256 < 256)
    by (intros k; apply Z.mod_pos_bound; lia).
  pose proof (R 8) as R1. pose proof (R 16) as R2. pose proof (R 24) as R3.
  pose proof (R 32) as R4. pose proof (R 40) as R5. pose proof (R 48) as R6.
  pose proof (R 56) as R7.
  assert (R0 : 0 <= v mod 256 < 256) by (apply Z.mod_pos_bound; lia).
  set (d0 := v mod 256) in *. set (d1 := (v / 2 ^ 8) mod 256) in *.
  set (d2 := (v / 2 ^ 16) mod 256) in *. set (d3 := (v / 2 ^ 24) mod 256) in *.
  set (d4 := (v / 2 ^ 32) mod 256) in *. set (d5 := (v / 2 ^ 40) mod 256) in *.
  set (d6 := (v / 2 ^ 48) mod 256) in *. set (d7 := (v / 2 ^ 56) mod 256) in *.
  rewrite (lor_shiftl_add d0 d1 8) by (change (2 ^ 8) with 256; lia).
  change (2 ^ 8) with 256.
  rewrite (lor_shiftl_add _ d2 16) by (change (2 ^ 16) with 65536; lia).
  change (2 ^ 16) with 65536.
  rewrite (lor_shiftl_add _ d3 24) by (change (2 ^ 24) with 16777216; lia).
  change (2 ^ 24) with 16777216.
  rewrite (lor_shiftl_add _ d4 32) by (change (2 ^ 32) with 4294967296; lia).
  change (2 ^ 32) with 4294967296.
  rewrite (lor_shiftl_add _ d5 40) by (change (2 ^ 40) with 1099511627776; lia).
  change (2 ^ 40) with 1099511627776.
  rewrite (lor_shiftl_add _ d6 48) by (change (2 ^ 48) with 281474976710656; lia).
  change (2 ^ 48) with 281474976710656.
  rewrite (lor_shiftl_add _ d7 56) by (change (2 ^ 56) with 72057594037927936; lia).
  change (2 ^ 56) with 72057594037927936.
  subst d0 d1 d2 d3 d4 d5 d6 d7.
  assert (S : forall k m, 0 <= k -> 0 < m ->
            (v / 2 ^ k) mod (256 * m) =
            (v / 2 ^ k) mod 256 + 256 * ((v / 2 ^ (k + 8)) mod m)).
  { intros k m Hk Hm. rewrite Z.rem_mul_r by lia. do 3 f_equal.
    rewrite Z.pow_add_r by lia. rewrite Z.div_div by (try apply Z.pow_pos_nonneg; lia).
    reflexivity. }
  pose proof (S 0 (2 ^ 56) ltac:(lia) ltac:(lia)) as S0.
  rewrite Z.pow_0_r, Z.div_1_r in S0.
  pose proof (S 8 (2 ^ 48) ltac:(lia) ltac:(lia)) as S1.
  pose proof (S 16 (2 ^ 40) ltac:(lia) ltac:(lia)) as S2.
  pose proof (S 24 (2 ^ 32) ltac:(lia) ltac:(lia)) as S3.
  pose proof (S 32 (2 ^ 24) ltac:(lia) ltac:(lia)) as S4.
  pose proof (S 40 (2 ^ 16) ltac:(lia) ltac:(lia)) as S5.
  pose proof (S 48 (2 ^ 8) ltac:(lia) ltac:(lia)) as S6.
  change (0 + 8) with 8 in S0. change (8 + 8) with 16 in S1.
  change (16 + 8) with 24 in S2. change (24 + 8) with 32 in S3.
  change (32 + 8) with 40 in S4. change (40 + 8) with 48 in S5.
  change (48 + 8) with 56 in S6.
  change (256 * 2 ^ 56) with (2 ^ 64) in S0.
  change (256 * 2 ^ 48) with (2 ^ 56) in S1.
  change (256 * 2 ^ 40) with (2 ^ 48) in S2.
  change (256 * 2 ^ 32) with (2 ^ 40) in S3.
  change (256 * 2 ^ 24) with (2 ^ 32) in S4.
  change (256 * 2 ^ 16) with (2 ^ 24) in S5.
  change (256 * 2 ^ 8) with (2 ^ 16) in S6.
  change (2 ^ 8) with 256 in S6.
  rewrite S0, S1, S2, S3, S4, S5, S6. lia.
Qed.

Lemma Uint64_value (b0 b1 b2 b3 b4 b5 b6 b7 : byte) (rest : list byte) :
  Joiner.Uint64 (b0 :: b1 :: b2 :: b3 :: b4 :: b5 :: b6 :: b7 :: rest) =
  Returned (Joiner.byte_to_Z b0 + Joiner.byte_to_Z b1 * 256 +
            Joiner.byte_to_Z b2 * 65536 + Joiner.byte_to_Z b3 * 16777216 +
            Joiner.byte_to_Z b4 * 4294967296 + Joiner.byte_to_Z b5 * 1099511627776 +
            Joiner.byte_to_Z b6 * 281474976710656 +
            Joiner.byte_to_Z b7 * 72057594037927936).
Proof.
  cbn [Joiner.Uint64]. f_equal.
  pose proof (byte_to_Z_range b0). pose proof (byte_to_Z_range b1).
  pose proof (byte_to_Z_range b2). pose proof (byte_to_Z_range b3).
  pose proof (byte_to_Z_range b4). pose proof (byte_to_Z_range b5).
  pose proof (byte_to_Z_range b6). pose proof (byte_to_Z_range b7).
  rewrite (lor_shiftl_add _ _ 8) by (change (2 ^ 8) with 256; lia).
  change (2 ^ 8) with 256.
  rewrite (lor_shiftl_add _ _ 16) by (change (2 ^ 16) with 65536; lia).
  change (2 ^ 16) with 65536.
  rewrite (lor_shiftl_add _ _ 24) by (change (2 ^ 24) with 16777216; lia).
  change (2 ^ 24) with 16777216.
  rewrite (lor_shiftl_add _ _ 32) by (change (2 ^ 32) with 4294967296; lia).
  change (2 ^ 32) with 4294967296.
  rewrite (lor_shiftl_add _ _ 40) by (change (2 ^ 40) with 1099511627776; lia).
  change (2 ^ 40) with 1099511627776.
  rewrite (lor_shiftl_add _ _ 48) by (change (2 ^ 48) with 281474976710656; lia).
  change (2 ^ 48) with 281474976710656.
  rewrite (lor_shiftl_add _ _ 56) by (change (2 ^ 56) with 72057594037927936; lia).
  reflexivity.
Qed.

Lemma Uint64_range (b : list byte) :
  (8 <= length b)%nat ->
  exists v, Joiner.Uint64 b = Returned v /\ 0 <= v < 2 ^ 64.
Proof.
  intros Hl.
  destruct b as [|b0 [|b1 [|b2 [|b3 [|b4 [|b5 [|b6 [|b7 rest]]]]]]]];
    try (simpl in Hl; lia).
  eexists. split; [apply Uint64_value|].
  pose proof (byte_to_Z_range b0). pose proof (byte_to_Z_range b1).
  pose proof (byte_to_Z_range b2). pose proof (byte_to_Z_range b3).
  pose proof (byte_to_Z_range b4). pose proof (byte_to_Z_range b5).
  pose proof (byte_to_Z_range b6). pose proof (byte_to_Z_range b7).
  change (2 ^ 64) with 18446744073709551616. lia.
Qed.

Lemma PutUint64_length (v : Z) : length (Pipeline.PutUint64 v) = 8%nat.
Proof. reflexivity. Qed.

(** The feeder's record and the joiner's reading of it: the first 8 bytes of
    a record decode, with [binary.LittleEndian.Uint64], to the length of the
    payload that follows them. *)
Theorem record_span_roundtrip (d : list byte) :
  Pipeline.len d < 2 ^ 64 ->
  Joiner.Uint64 (take 8 (Pipeline.data (Pipeline.record_of d))) = Returned (Pipeline.len d) /\
  drop 8 (Pipeline.data (Pipeline.record_of d)) = d.
Proof.
  intros Hlen. unfold Pipeline.record_of. cbn [Pipeline.data].
  rewrite take_app_length' by reflexivity.
  rewrite drop_app_length' by reflexivity.
  split; [|reflexivity].
  rewrite Uint64_PutUint64. f_equal. apply Z.mod_small.
  unfold Pipeline.len in *. lia.
Qed.

Lemma record_span_roundtrip_witness :
  Joiner.Uint64 (take 8 (Pipeline.data (Pipeline.record_of [x66; x6f; x6f]))) = Returned 3 /\
  drop 8 (Pipeline.data (Pipeline.record_of [x66; x6f; x6f])) = [x66; x6f; x6f].
Proof.
  apply (record_span_roundtrip [x66; x6f; x6f]). vm_compute. reflexivity.
Defined.

Lemma getLevels_one (l : Z) :
  l <> 0 -> l <= 4096 ->
  Joiner.getLevelsFromLength l Joiner.SectionSize Joiner.Branches = Returned 1.
Proof.
  intros Hnz Hle. unfold Joiner.getLevelsFromLength, Joiner.SectionSize, Joiner.Branches.
  cbn zeta. change (Joiner.int64 (32 * 128)) with 4096.
  destruct (Z.eqb_spec l 0) as [|_]; [contradiction|].
  destruct (Z.leb_spec l 4096); [reflexivity | lia].
Qed.

(** The level count of a span of up to [32 * 128^3], and of a span that is
    negative as an [int64]. *)
Lemma getLevels_of_span (span : Z) :
  0 < span <= 67108864 \/ 2 ^ 63 <= span < 2 ^ 64 ->
  exists lc,
    Joiner.getLevelsFromLength (Joiner.int64_of_uint64 span)
      Joiner.SectionSize Joiner.Branches = Returned lc /\
    1 <= lc <= 3 /\ (2 ^ 63 <= span -> lc = 1).
Proof.
  unfold Joiner.int64_of_uint64.
  change (2 ^ 63) with 9223372036854775808.
  change (2 ^ 64) with 18446744073709551616.
  intros [Hs|Hs].
  - destruct (Z.ltb_spec span 9223372036854775808); [|lia].
    unfold Joiner.SectionSize, Joiner.Branches.
    rewrite getLevels_value by lia. eexists. split; [reflexivity|].
    destruct (span <=? 4096); [lia|]. destruct (span <=? 524288); lia.
  - destruct (Z.ltb_spec span 9223372036854775808); [lia|].
    exists 1. split; [apply getLevels_one; lia | lia].
Qed.

(** [NewSimpleJoinerJob] panics on root data shorter than the 8-byte span and
    on a span of zero (the index [levelCount-1] is then -1).  For a span of
    up to [32 * 128^3], and for a span of [2^63] or more, which is negative
    as an [int64] and has level count 1, it returns a job whose level count
    is between 1 and 3, with the root payload alone at
    [data[levelCount-1]]. *)
Theorem NewSimpleJoinerJob_cases (rootData : Joiner.bslice) :
  (Joiner.slice_len rootData < 8 ->
   Joiner.NewSimpleJoinerJob rootData = Panicked SliceBounds) /\
  (8 <= Joiner.slice_len rootData ->
   exists span,
     Joiner.Uint64 (take 8 (Joiner.elems rootData)) = Returned span /\
     0 <= span < 2 ^ 64 /\
     (span = 0 -> Joiner.NewSimpleJoinerJob rootData = Panicked IndexOutOfRange) /\
     (0 < span <= 67108864 \/ 2 ^ 63 <= span ->
      exists j, Joiner.NewSimpleJoinerJob rootData = Returned j /\
        Joiner.spanLength j = Joiner.int64_of_uint64 span /\
        Joiner.getLevelsFromLength (Joiner.spanLength j)
          Joiner.SectionSize Joiner.Branches = Returned (Joiner.levelCount j) /\
        1 <= Joiner.levelCount j <= 3 /\
        (2 ^ 63 <= span -> Joiner.levelCount j = 1) /\
        Joiner.cursors j = repeat 0 9 /\
        Joiner.dataC j = [] /\
        length (Joiner.data j) = 9%nat /\
        forall i : nat, (i < 9)%nat ->
          Joiner.data j !! i =
            Some (if Nat.eq_dec i (Z.to_nat (Joiner.levelCount j - 1))
                  then Joiner.mkSlice (drop 8 (Joiner.elems rootData))
                                      (Joiner.spare rootData)
                  else Joiner.nil_slice))).
Proof.
  split.
  - intros Hl. unfold Joiner.NewSimpleJoinerJob.
    apply Z.ltb_lt in Hl. now rewrite Hl.
  - intros Hl. unfold Joiner.NewSimpleJoinerJob.
    assert (Hlt : (Joiner.slice_len rootData <? 8) = false) by (apply Z.ltb_ge; lia).
    rewrite Hlt.
    destruct (Uint64_range (take 8 (Joiner.elems rootData))) as (span & E & Hr).
    { rewrite length_take. unfold Joiner.slice_len in Hl. lia. }
    exists span. rewrite E. split; [reflexivity|]. split; [assumption|].
    assert (Ht : Joiner.slice_tail rootData 8 =
                 Some (Joiner.mkSlice (drop 8 (Joiner.elems rootData))
                                      (Joiner.spare rootData))).
    { unfold Joiner.slice_tail.
      assert (H8 : (8 <=? Joiner.slice_len rootData) = true) by (apply Z.leb_le; lia).
      rewrite H8. reflexivity. }
    split.
    + intros ->. cbn. rewrite Ht. reflexivity.
    + intros Hspan.
      destruct (getLevels_of_span span) as (lc & Elc & Hlc & Hneg); [lia|].
      rewrite Elc, Ht.
      assert (Hin : (0 <=? lc - 1) && (lc - 1 <? 9) = true).
      { apply andb_true_iff. split; [apply Z.leb_le | apply Z.ltb_lt]; lia. }
      rewrite Hin. eexists. split; [reflexivity|].
      cbn [Joiner.spanLength Joiner.levelCount Joiner.data Joiner.cursors Joiner.dataC].
      split; [reflexivity|]. split; [exact Elc|]. split; [assumption|].
      split; [assumption|].
      split; [reflexivity|]. split; [reflexivity|].
      split; [now rewrite length_insert|].
      intros i Hi.
      destruct (Nat.eq_dec i (Z.to_nat (lc - 1))) as [->|Hne].
      * apply list_lookup_insert_eq. cbn [repeat length]. lia.
      * rewrite list_lookup_insert_ne by congruence.
        do 9 (destruct i as [|i]; [reflexivity|]). lia.
Qed.

(** ** Joiner: the traversal *)

Lemma index_Some {T : Type} (a : list T) (i : Z) (x : T) :
  Joiner.index a i = Some x -> 0 <= i /\ a !! Z.to_nat i = Some x.
Proof.
  unfold Joiner.index. destruct (Z.ltb_spec i 0); [discriminate|]. auto.
Qed.

Lemma index_insert {T : Type} (a : list T) (i : Z) (x c : T) :
  Joiner.index a i = Some x -> Joiner.index (<[Z.to_nat i := c]> a) i = Some c.
Proof.
  intros H. apply index_Some in H as [Hi H]. unfold Joiner.index.
  destruct (Z.ltb_spec i 0); [lia|].
  apply list_lookup_insert_eq. eapply lookup_lt_Some. exact H.
Qed.

Lemma slice_range_section (done r rest sp : list byte) :
  length r = 32%nat ->
  Joiner.slice_range (Joiner.mkSlice (done ++ r ++ rest) sp)
    (Z.of_nat (length done)) (Z.of_nat (length done) + Joiner.SectionSize) =
  Some (Joiner.mkSlice r (rest ++ sp)).
Proof.
  intros Hr. unfold Joiner.slice_range, Joiner.SectionSize.
  cbn [Joiner.elems Joiner.spare].
  assert (C : (0 <=? Z.of_nat (length done)) &&
              (Z.of_nat (length done) <=? Z.of_nat (length done) + 32) &&
              (Z.of_nat (length done) + 32 <=?
               Z.of_nat (length ((done ++ r ++ rest) ++ sp))) = true).
  { rewrite !andb_true_iff. repeat split; apply Z.leb_le; try lia.
    rewrite !length_app. lia. }
  rewrite C. f_equal.
  replace (Z.to_nat (Z.of_nat (length done) + 32 - Z.of_nat (length done)))
    with (length r) by lia.
  replace (Z.to_nat (Z.of_nat (length done) + 32))
    with (length (done ++ r)) by (rewrite length_app; lia).
  rewrite Nat2Z.id.
  f_equal.
  - rewrite <- !app_assoc. rewrite drop_app_length.
    now rewrite take_app_length.
  - replace ((done ++ r ++ rest) ++ sp) with ((done ++ r) ++ rest ++ sp)
      by (now rewrite <- !app_assoc).
    now rewrite drop_app_length.
Qed.

Lemma slice_range_short (done tail sp : list byte) :
  (length tail + length sp < 32)%nat ->
  Joiner.slice_range (Joiner.mkSlice (done ++ tail) sp)
    (Z.of_nat (length done)) (Z.of_nat (length done) + Joiner.SectionSize) = None.
Proof.
  intros Hs. unfold Joiner.slice_range, Joiner.SectionSize.
  cbn [Joiner.elems Joiner.spare].
  assert (C : (Z.of_nat (length done) + 32 <=?
               Z.of_nat (length ((done ++ tail) ++ sp))) = false).
  { apply Z.leb_gt. rewrite !length_app. lia. }
  rewrite C. now rewrite andb_false_r.
Qed.

Lemma slice_tail_8 (d : Joiner.bslice) :
  8 <= Joiner.slice_len d ->
  Joiner.slice_tail d 8 =
  Some (Joiner.mkSlice (drop 8 (Joiner.elems d)) (Joiner.spare d)).
Proof.
  intros H. unfold Joiner.slice_tail.
  assert (C : (8 <=? Joiner.slice_len d) = true) by (apply Z.leb_le; lia).
  rewrite C. reflexivity.
Qed.

(** Below level 1 [descend] is the leaf case, whatever the depth allowed. *)
Lemma descend_leaf (Get : Address -> result Joiner.bslice) (depth : nat) (level : Z)
    (address : Address) (j : Joiner.SimpleJoinerJob) :
  level <= 0 ->
  Joiner.descend Get depth level address j =
  match Get address with
  | Err err => Some (Returned (j, Some err))
  | Ok chData =>
    match Joiner.slice_tail chData 8 with
    | None => Some (Panicked SliceBounds)
    | Some d => Some (Returned (Joiner.send j d, None))
    end
  end.
Proof.
  intros Hl.
  assert (C : (level >? 0) = false) by (rewrite Z.gtb_ltb; apply Z.ltb_ge; lia).
  destruct depth; cbn [Joiner.descend]; destruct (Get address); now rewrite ?C.
Qed.

(** The loop of [start] at a top level of 0 or 1, from any cursor position:
    [done] are the bytes before the cursor, [rest] the 32-byte sections from
    the cursor on, [tail] what is left after the last whole section. *)
Lemma start_loop_sections (Get : Address -> result Joiner.bslice) (level : Z)
    (tail sp : list byte) :
  0 <= level <= 1 ->
  (tail = [] \/ (length tail + length sp < 32)%nat) ->
  forall (rest : list Address) (done : list byte) (j : Joiner.SimpleJoinerJob)
         (fuel : nat),
    Forall (fun r => length r = 32%nat) rest ->
    (forall r d, In r rest -> Get r = Ok d -> 8 <= Joiner.slice_len d) ->
    Joiner.index (Joiner.cursors j) level = Some (Z.of_nat (length done)) ->
    Joiner.index (Joiner.data j) level =
      Some (Joiner.mkSlice (done ++ concat rest ++ tail) sp) ->
    (length rest < fuel)%nat ->
    exists j',
      Joiner.dataC j' = Joiner.dataC j ++ fst (Joiner.fetch Get rest) /\
      Joiner.start_loop Get fuel level j =
      Some (match snd (Joiner.fetch Get rest), tail with
            | Some err, _ => Returned (j', Some err)
            | None, [] => Returned (j', None)
            | None, _ :: _ => Panicked SliceBounds
            end).
Proof.
  intros Hlevel Htail rest.
  induction rest as [|r rest IH]; intros done j fuel Hlen Hbig Hc Hd Hfuel.
  - exists j. cbn [Joiner.fetch fst snd concat app] in *.
    split; [now rewrite app_nil_r|].
    destruct fuel as [|fuel]; [lia|].
    cbn [Joiner.start_loop]. rewrite Hc, Hd.
    unfold Joiner.slice_len at 1. cbn [Joiner.elems].
    destruct tail as [|t tail].
    + rewrite app_nil_r. rewrite Z.ltb_irrefl. reflexivity.
    + assert (C : (Z.of_nat (length done) <? Z.of_nat (length (done ++ t :: tail))) = true).
      { apply Z.ltb_lt. rewrite length_app. cbn [length]. lia. }
      rewrite C.
      destruct Htail as [Habs|Hshort]; [discriminate|].
      now rewrite slice_range_short.
  - destruct fuel as [|fuel]; [cbn [length] in Hfuel; lia|].
    apply Forall_cons in Hlen as [Hr Hlen].
    cbn [Joiner.start_loop]. rewrite Hc, Hd.
    unfold Joiner.slice_len at 1. cbn [Joiner.elems].
    assert (C : (Z.of_nat (length done) <?
                 Z.of_nat (length (done ++ concat (r :: rest) ++ tail))) = true).
    { apply Z.ltb_lt. cbn [concat]. rewrite !length_app. lia. }
    rewrite C.
    cbn [concat]. rewrite <- (app_assoc r).
    rewrite slice_range_section by assumption.
    cbn [Joiner.elems].
    rewrite descend_leaf by lia.
    cbn [Joiner.fetch].
    destruct (Get r) as [d|err] eqn:Eg.
    + rewrite slice_tail_8 by (eapply Hbig; [left; reflexivity | exact Eg]).
      cbn [Joiner.send Joiner.cursors]. rewrite Hc.
      set (j1 := Joiner.set_cursor _ level _).
      destruct (IH (done ++ r) j1 fuel) as (j' & Hout & Hrun).
      * assumption.
      * intros r' d' Hin. apply Hbig. now right.
      * subst j1. cbn [Joiner.set_cursor Joiner.cursors].
        erewrite index_insert by exact Hc.
        f_equal. rewrite length_app. unfold Joiner.SectionSize. lia.
      * subst j1. cbn [Joiner.set_cursor Joiner.send Joiner.data].
        rewrite Hd. f_equal. f_equal. cbn [concat]. now rewrite <- !app_assoc.
      * cbn [length] in Hfuel. lia.
      * exists j'. rewrite Hrun.
        destruct (Joiner.fetch Get rest) as [out e] eqn:Ef.
        cbn [fst snd] in *. split; [|reflexivity].
        rewrite Hout. subst j1. cbn [Joiner.set_cursor Joiner.send Joiner.dataC Joiner.elems].
        now rewrite <- app_assoc.
    + exists j. cbn [fst snd]. split; [now rewrite app_nil_r | reflexivity].
Qed.

Lemma concat_sections_length (rest : list Address) :
  Forall (fun r => length r = 32%nat) rest ->
  length (concat rest) = (32 * length rest)%nat.
Proof.
  induction 1 as [|r rest Hr _ IH]; [reflexivity|].
  cbn [concat length]. rewrite length_app. lia.
Qed.

(** A span between 1 and 32*128*128 gives a level count of 1 or 2. *)
Lemma getLevels_two (span : Z) :
  0 < span <= 524288 ->
  exists lc,
    Joiner.getLevelsFromLength (Joiner.int64_of_uint64 span)
      Joiner.SectionSize Joiner.Branches = Returned lc /\
    1 <= lc <= 2.
Proof.
  intros Hs.
  assert (E : Joiner.int64_of_uint64 span = span).
  { unfold Joiner.int64_of_uint64.
    change (2 ^ 63) with 9223372036854775808.
    destruct (Z.ltb_spec span 9223372036854775808); lia. }
  rewrite E. unfold Joiner.SectionSize, Joiner.Branches.
  rewrite getLevels_value by lia. eexists. split; [reflexivity|].
  destruct (span <=? 4096); [lia|].
  destruct (Z.leb_spec span 524288); lia.
Qed.

(** What the job of a root chunk of one or two levels does, from
    [NewSimpleJoinerJob] to the end of its goroutine. *)
Lemma job_sections (Get : Address -> result Joiner.bslice)
    (hdr tail sp : list byte) (refs : list Address) (span : Z) :
  length hdr = 8%nat ->
  Joiner.Uint64 hdr = Returned span ->
  0 < span <= 524288 ->
  Forall (fun r => length r = 32%nat) refs ->
  (forall r d, In r refs -> Get r = Ok d -> 8 <= Joiner.slice_len d) ->
  (tail = [] \/ (length tail + length sp < 32)%nat) ->
  exists j,
    Joiner.NewSimpleJoinerJob (Joiner.mkSlice (hdr ++ concat refs ++ tail) sp) =
      Returned j /\
    Joiner.goroutine Get j =
    Some (match snd (Joiner.fetch Get refs), tail with
          | Some _, _ => Returned (fst (Joiner.fetch Get refs), true)
          | None, [] => Returned (fst (Joiner.fetch Get refs), false)
          | None, _ :: _ => Panicked SliceBounds
          end).
Proof.
  intros Hh Hu Hspan Hrefs Hbig Htail.
  destruct (getLevels_two span Hspan) as (lc & Elc & Hlc).
  unfold Joiner.NewSimpleJoinerJob.
  unfold Joiner.slice_len at 1. cbn [Joiner.elems].
  assert (C : (Z.of_nat (length (hdr ++ concat refs ++ tail)) <? 8) = false).
  { apply Z.ltb_ge. rewrite length_app. lia. }
  rewrite C.
  rewrite take_app_length' by (now symmetry). rewrite Hu, Elc.
  rewrite slice_tail_8
    by (unfold Joiner.slice_len; cbn [Joiner.elems]; rewrite length_app; lia).
  cbn [Joiner.elems Joiner.spare].
  rewrite drop_app_length' by (now symmetry).
  assert (Hin : (0 <=? lc - 1) && (lc - 1 <? 9) = true).
  { apply andb_true_iff. split; [apply Z.leb_le | apply Z.ltb_lt]; lia. }
  rewrite Hin. eexists. split; [reflexivity|].
  set (j := Joiner.mkJob _ _ _ _ _ _).
  assert (Hd : Joiner.index (Joiner.data j) (lc - 1) =
               Some (Joiner.mkSlice ([] ++ concat refs ++ tail) sp)).
  { subst j. cbn [Joiner.data app].
    apply (index_insert _ _ Joiner.nil_slice).
    assert (Hc : lc - 1 = 0 \/ lc - 1 = 1) by lia.
    destruct Hc as [-> | ->]; reflexivity. }
  assert (Hc : Joiner.index (Joiner.cursors j) (lc - 1) = Some (Z.of_nat (length (@nil byte)))).
  { subst j. cbn [Joiner.cursors length].
    assert (Hc : lc - 1 = 0 \/ lc - 1 = 1) by lia.
    destruct Hc as [-> | ->]; reflexivity. }
  destruct (start_loop_sections Get (lc - 1) tail sp ltac:(lia) Htail refs [] j
              (S (length (concat refs ++ tail))) Hrefs Hbig Hc Hd) as (j' & Hout & Hrun).
  { rewrite length_app, concat_sections_length by assumption. lia. }
  unfold Joiner.goroutine, Joiner.start.
  replace (Joiner.levelCount j) with lc by reflexivity.
  rewrite Hd. cbn [Joiner.elems app]. rewrite Hrun.
  replace (Joiner.dataC j) with (@nil (list byte)) in Hout by reflexivity.
  cbn [app] in Hout. rewrite <- Hout.
  destruct (snd (Joiner.fetch Get refs)); [reflexivity|].
  destruct tail; reflexivity.
Qed.

(** A root chunk with a span between 1 and 524288 has a level count of 1 or
    2.  If its payload is a sequence of 32-byte sections, the job looks each
    section up in the store, in order, and sends the payload of each chunk
    found (its data after the first 8 bytes) on the channel; it stops at the
    first section the store fails on, and closes the channel exactly then. *)
Theorem joiner_job_fetches (Get : Address -> result Joiner.bslice)
    (hdr sp : list byte) (refs : list Address) (span : Z) :
  length hdr = 8%nat ->
  Joiner.Uint64 hdr = Returned span ->
  0 < span <= 524288 ->
  Forall (fun r => length r = 32%nat) refs ->
  (forall r d, In r refs -> Get r = Ok d -> 8 <= Joiner.slice_len d) ->
  exists j,
    Joiner.NewSimpleJoinerJob (Joiner.mkSlice (hdr ++ concat refs) sp) = Returned j /\
    Joiner.goroutine Get j =
    Some (Returned (fst (Joiner.fetch Get refs),
                    match snd (Joiner.fetch Get refs) with
                    | Some _ => true
                    | None => false
                    end)).
Proof.
  intros Hh Hu Hspan Hrefs Hbig.
  destruct (job_sections Get hdr [] sp refs span Hh Hu Hspan Hrefs Hbig
              (or_introl eq_refl)) as (j & Hj & Hrun).
  rewrite app_nil_r in Hj. exists j. split; [exact Hj|].
  rewrite Hrun. now destruct (snd (Joiner.fetch Get refs)).
Qed.

Lemma joiner_job_fetches_witness :
  exists j,
    Joiner.NewSimpleJoinerJob
      (Joiner.mkSlice (Pipeline.PutUint64 3 ++ concat [Pipeline.ref_a; Pipeline.ref_b]) []) =
      Returned j /\
    Joiner.goroutine Pipeline.two_records j =
    Some (Returned (fst (Joiner.fetch Pipeline.two_records [Pipeline.ref_a; Pipeline.ref_b]),
                    match snd (Joiner.fetch Pipeline.two_records
                                 [Pipeline.ref_a; Pipeline.ref_b]) with
                    | Some _ => true
                    | None => false
                    end)).
Proof.
  apply (joiner_job_fetches Pipeline.two_records (Pipeline.PutUint64 3) []
           [Pipeline.ref_a; Pipeline.ref_b] 3).
  - reflexivity.
  - reflexivity.
  - lia.
  - repeat constructor.
  - intros r d [<- | [<- | []]] E; vm_compute in E; injection E as <-;
      vm_compute; discriminate.
Defined.

(** If the payload of such a root chunk does not end on a 32-byte boundary
    and the slice has fewer than 32 bytes left up to its capacity, the
    goroutine panics on the slice expression for the last section, once the
    whole sections before it have been fetched.  A root chunk with 1 to 31
    bytes of payload is the case of no whole section. *)
Theorem joiner_job_ragged_panics (Get : Address -> result Joiner.bslice)
    (hdr tail sp : list byte) (refs : list Address) (span : Z) :
  length hdr = 8%nat ->
  Joiner.Uint64 hdr = Returned span ->
  0 < span <= 524288 ->
  Forall (fun r => length r = 32%nat) refs ->
  (forall r d, In r refs -> Get r = Ok d -> 8 <= Joiner.slice_len d) ->
  snd (Joiner.fetch Get refs) = None ->
  tail <> [] ->
  (length tail + length sp < 32)%nat ->
  exists j,
    Joiner.NewSimpleJoinerJob (Joiner.mkSlice (hdr ++ concat refs ++ tail) sp) =
      Returned j /\
    Joiner.goroutine Get j = Some (Panicked SliceBounds).
Proof.
  intros Hh Hu Hspan Hrefs Hbig Hfound Htail Hshort.
  destruct (job_sections Get hdr tail sp refs span Hh Hu Hspan Hrefs Hbig
              (or_intror Hshort)) as (j & Hj & Hrun).
  exists j. split; [exact Hj|].
  rewrite Hrun, Hfound. destruct tail; [contradiction | reflexivity].
Qed.

Lemma joiner_job_ragged_panics_witness :
  exists j,
    Joiner.NewSimpleJoinerJob
      (Joiner.mkSlice (Pipeline.PutUint64 3 ++ concat [Pipeline.ref_a] ++ [x01; x02; x03]) []) =
      Returned j /\
    Joiner.goroutine Pipeline.two_records j = Some (Panicked SliceBounds).
Proof.
  apply (joiner_job_ragged_panics Pipeline.two_records (Pipeline.PutUint64 3)
           [x01; x02; x03] [] [Pipeline.ref_a] 3).
  - reflexivity.
  - reflexivity.
  - lia.
  - repeat constructor.
  - intros r d [<- | []] E; vm_compute in E; injection E as <-;
      vm_compute; discriminate.
  - reflexivity.
  - discriminate.
  - cbn [length]. lia.
Defined.

Lemma index_insert_ne {T : Type} (a : list T) (i k : Z) (c : T) :
  0 <= i -> 0 <= k -> i <> k ->
  Joiner.index (<[Z.to_nat k := c]> a) i = Joiner.index a i.
Proof.
  intros Hi Hk Hne. unfold Joiner.index.
  destruct (Z.ltb_spec i 0); [reflexivity|].
  apply list_lookup_insert_ne. lia.
Qed.

(** One call of [descend] at level 1: it takes the section under the cursor
    of level 1, after loading the fetched chunk into level 1 if the cursor
    is at the end of what is there, and sends the leaf under that section;
    otherwise the chunk it has fetched is not used. *)
Lemma descend_level1 (Get : Address -> result Joiner.bslice) (r : Address)
    (ch dl dl' next : Joiner.bslice) (cl : Z) (j : Joiner.SimpleJoinerJob) :
  Get r = Ok ch ->
  Joiner.index (Joiner.data j) 1 = Some dl ->
  Joiner.index (Joiner.cursors j) 1 = Some cl ->
  let fresh := Joiner.slice_len dl =? cl in
  let cursor := if fresh then 0 else cl in
  let j1 := if fresh then Joiner.set_cursor (Joiner.set_data j 1 dl') 1 0 else j in
  (if fresh then Joiner.slice_tail ch 8 else Some dl) = Some dl' ->
  Joiner.slice_range dl' cursor (cursor + Joiner.SectionSize) = Some next ->
  Joiner.descend Get 1 1 r j =
  match Get (Joiner.elems next) with
  | Err err => Some (Returned (j1, Some err))
  | Ok d =>
    match Joiner.slice_tail d 8 with
    | None => Some (Panicked SliceBounds)
    | Some d' =>
      Some (Returned (Joiner.set_cursor (Joiner.send j1 d') 1 (cursor + Joiner.SectionSize),
                      None))
    end
  end.
Proof.
  intros Hr Hd Hc fresh cursor j1 Hdl Hnext.
  cbn [Joiner.descend]. rewrite Hr.
  change (1 >? 0) with true. cbn match. rewrite Hd, Hc.
  fold fresh. rewrite Hdl. fold cursor. rewrite Hnext. fold j1.
  change (1 - 1) with 0. change (0 >? 0) with false. cbn match.
  destruct (Get (Joiner.elems next)) as [d|err]; [|reflexivity].
  destruct (Joiner.slice_tail d 8) as [d'|]; [|reflexivity].
  assert (Hc1 : Joiner.index (Joiner.cursors (Joiner.send j1 d')) 1 = Some cursor).
  { subst j1 cursor. destruct fresh.
    - cbn [Joiner.send Joiner.set_cursor Joiner.set_data Joiner.cursors].
      apply (index_insert _ 1 cl). exact Hc.
    - exact Hc. }
  rewrite Hc1. reflexivity.
Qed.

Lemma descend_level1_loaded (Get : Address -> result Joiner.bslice) (r l : Address)
    (ch : Joiner.bslice) (ldone lrest sp0 : list byte) (j : Joiner.SimpleJoinerJob) :
  Get r = Ok ch ->
  Joiner.index (Joiner.data j) 1 = Some (Joiner.mkSlice (ldone ++ l ++ lrest) sp0) ->
  Joiner.index (Joiner.cursors j) 1 = Some (Z.of_nat (length ldone)) ->
  length l = 32%nat ->
  Joiner.descend Get 1 1 r j =
  match Get l with
  | Err err => Some (Returned (j, Some err))
  | Ok d =>
    match Joiner.slice_tail d 8 with
    | None => Some (Panicked SliceBounds)
    | Some d' =>
      Some (Returned (Joiner.set_cursor (Joiner.send j d') 1
                        (Z.of_nat (length ldone) + Joiner.SectionSize), None))
    end
  end.
Proof.
  intros Hr Hd Hc Hl.
  pose proof (descend_level1 Get r ch _ (Joiner.mkSlice (ldone ++ l ++ lrest) sp0)
                (Joiner.mkSlice l (lrest ++ sp0)) _ j Hr Hd Hc) as Hstep.
  cbn zeta in Hstep.
  assert (Hfresh : (Joiner.slice_len (Joiner.mkSlice (ldone ++ l ++ lrest) sp0) =?
                    Z.of_nat (length ldone)) = false).
  { apply Z.eqb_neq. unfold Joiner.slice_len. cbn [Joiner.elems].
    rewrite !length_app. lia. }
  rewrite Hfresh in Hstep.
  apply Hstep; [reflexivity|]. now apply slice_range_section.
Qed.

Lemma descend_level1_fresh (Get : Address -> result Joiner.bslice) (r l : Address)
    (dl : Joiner.bslice) (h0 lrest sp0 : list byte) (j : Joiner.SimpleJoinerJob) :
  Get r = Ok (Joiner.mkSlice (h0 ++ l ++ lrest) sp0) ->
  length h0 = 8%nat ->
  Joiner.index (Joiner.data j) 1 = Some dl ->
  Joiner.index (Joiner.cursors j) 1 = Some (Joiner.slice_len dl) ->
  length l = 32%nat ->
  let j1 := Joiner.set_cursor (Joiner.set_data j 1 (Joiner.mkSlice (l ++ lrest) sp0)) 1 0 in
  Joiner.descend Get 1 1 r j =
  match Get l with
  | Err err => Some (Returned (j1, Some err))
  | Ok d =>
    match Joiner.slice_tail d 8 with
    | None => Some (Panicked SliceBounds)
    | Some d' =>
      Some (Returned (Joiner.set_cursor (Joiner.send j1 d') 1 (0 + Joiner.SectionSize), None))
    end
  end.
Proof.
  intros Hr Hh Hd Hc Hl j1.
  pose proof (descend_level1 Get r _ dl (Joiner.mkSlice (l ++ lrest) sp0)
                (Joiner.mkSlice l (lrest ++ sp0)) _ j Hr Hd Hc) as Hstep.
  cbn zeta in Hstep. rewrite Z.eqb_refl in Hstep.
  apply Hstep.
  - rewrite slice_tail_8
      by (unfold Joiner.slice_len; cbn [Joiner.elems]; rewrite length_app; lia).
    cbn [Joiner.elems Joiner.spare].
    now rewrite drop_app_length' by (now symmetry).
  - apply (slice_range_section [] l lrest sp0 Hl).
Qed.

(** The loop of [start] at top level 2 once level 1 is loaded and has at
    least as many sections left as the top level. *)
Lemma start_loop_level2 (Get : Address -> result Joiner.bslice) (sp sp0 : list byte) :
  forall (rest : list Address) (lrest : list Address) (done ldone : list byte)
         (j : Joiner.SimpleJoinerJob) (fuel : nat),
    Forall (fun r => length r = 32%nat) rest ->
    Forall (fun r => length r = 32%nat) lrest ->
    (forall r, In r rest -> exists ch, Get r = Ok ch) ->
    (forall r d, In r (take (length rest) lrest) -> Get r = Ok d ->
                 8 <= Joiner.slice_len d) ->
    (length rest <= length lrest)%nat ->
    Joiner.index (Joiner.cursors j) 2 = Some (Z.of_nat (length done)) ->
    Joiner.index (Joiner.data j) 2 = Some (Joiner.mkSlice (done ++ concat rest) sp) ->
    Joiner.index (Joiner.cursors j) 1 = Some (Z.of_nat (length ldone)) ->
    Joiner.index (Joiner.data j) 1 = Some (Joiner.mkSlice (ldone ++ concat lrest) sp0) ->
    (length rest < fuel)%nat ->
    exists j',
      Joiner.dataC j' = Joiner.dataC j ++ fst (Joiner.fetch Get (take (length rest) lrest)) /\
      Joiner.start_loop Get fuel 2 j =
      Some (Returned (j', snd (Joiner.fetch Get (take (length rest) lrest)))).
Proof.
  induction rest as [|r rest IH];
    intros lrest done ldone j fuel Hrest Hlrest Hfound Hbig Hlen Hc2 Hd2 Hc1 Hd1 Hfuel.
  - exists j. cbn [length take Joiner.fetch fst snd concat] in *.
    split; [now rewrite app_nil_r|].
    destruct fuel as [|fuel]; [lia|].
    cbn [Joiner.start_loop]. rewrite Hc2, Hd2.
    unfold Joiner.slice_len. cbn [Joiner.elems].
    rewrite app_nil_r, Z.ltb_irrefl. reflexivity.
  - destruct lrest as [|l lrest]; [cbn [length] in Hlen; lia|].
    destruct fuel as [|fuel]; [cbn [length] in Hfuel; lia|].
    apply Forall_cons in Hrest as [Hr Hrest].
    apply Forall_cons in Hlrest as [Hl Hlrest].
    destruct (Hfound r (or_introl eq_refl)) as [ch Hch].
    cbn [Joiner.start_loop]. rewrite Hc2, Hd2.
    unfold Joiner.slice_len at 1. cbn [Joiner.elems].
    assert (C : (Z.of_nat (length done) <?
                 Z.of_nat (length (done ++ concat (r :: rest)))) = true).
    { apply Z.ltb_lt. cbn [concat]. rewrite !length_app. lia. }
    rewrite C. cbn [concat].
    rewrite slice_range_section by assumption.
    cbn [Joiner.elems].
    change (2 - 1) with 1. change (Z.to_nat 1) with 1%nat.
    cbn [concat] in Hd1.
    rewrite (descend_level1_loaded Get r l ch ldone (concat lrest) sp0 j Hch Hd1 Hc1 Hl).
    cbn [length take Joiner.fetch].
    destruct (Get l) as [d|err] eqn:Eg.
    + rewrite slice_tail_8 by (eapply Hbig; [left; reflexivity | exact Eg]).
      set (j1 := Joiner.set_cursor (Joiner.send j _) 1 _).
      assert (Hc2' : Joiner.index (Joiner.cursors j1) 2 = Some (Z.of_nat (length done))).
      { subst j1. cbn [Joiner.set_cursor Joiner.send Joiner.cursors].
        rewrite index_insert_ne by lia. exact Hc2. }
      rewrite Hc2'.
      set (j2 := Joiner.set_cursor j1 2 _).
      destruct (IH lrest (done ++ r) (ldone ++ l) j2 fuel) as (j' & Hout & Hrun);
        try assumption.
      * intros r' Hin. apply Hfound. now right.
      * intros r' d' Hin. apply Hbig. cbn [length take]. now right.
      * cbn [length] in Hlen. lia.
      * subst j2. cbn [Joiner.set_cursor Joiner.cursors].
        erewrite index_insert by exact Hc2'.
        f_equal. rewrite length_app. unfold Joiner.SectionSize. lia.
      * subst j2 j1. cbn [Joiner.set_cursor Joiner.send Joiner.data].
        rewrite Hd2. f_equal. f_equal. now rewrite <- !app_assoc.
      * subst j2 j1. cbn [Joiner.set_cursor Joiner.send Joiner.cursors].
        rewrite index_insert_ne by lia.
        erewrite index_insert by exact Hc1.
        f_equal. rewrite length_app. unfold Joiner.SectionSize. lia.
      * subst j2 j1. cbn [Joiner.set_cursor Joiner.send Joiner.data].
        rewrite Hd1. f_equal. f_equal. now rewrite <- !app_assoc.
      * cbn [length] in Hfuel. lia.
      * exists j'. rewrite Hrun.
        destruct (Joiner.fetch Get (take (length rest) lrest)) as [out e] eqn:Ef.
        cbn [fst snd] in *. split; [|reflexivity].
        rewrite Hout. subst j2 j1.
        cbn [Joiner.set_cursor Joiner.send Joiner.dataC Joiner.elems].
        now rewrite <- app_assoc.
    + exists j. cbn [fst snd]. split; [now rewrite app_nil_r | reflexivity].
Qed.

Lemma getLevels_three_levels (span : Z) :
  524288 < span <= 67108864 ->
  Joiner.getLevelsFromLength (Joiner.int64_of_uint64 span)
    Joiner.SectionSize Joiner.Branches = Returned 3.
Proof.
  intros Hs.
  assert (E : Joiner.int64_of_uint64 span = span).
  { unfold Joiner.int64_of_uint64.
    change (2 ^ 63) with 9223372036854775808.
    destruct (Z.ltb_spec span 9223372036854775808); lia. }
  rewrite E. unfold Joiner.SectionSize, Joiner.Branches.
  rewrite getLevels_value by lia.
  destruct (Z.leb_spec span 4096); [lia|].
  destruct (Z.leb_spec span 524288); [lia | reflexivity].
Qed.

(** At three levels the job sends one leaf for each reference of the root
    chunk, and takes all of them from the first intermediate chunk: the k-th
    reference of the root yields the k-th leaf referenced by the chunk of
    the first one.  The chunks of the later root references are fetched and
    not looked at. *)
Theorem joiner_three_levels (Get : Address -> result Joiner.bslice)
    (hdr sp h0 sp0 : list byte) (r0 : Address) (roots leafs : list Address) (span : Z) :
  length hdr = 8%nat ->
  Joiner.Uint64 hdr = Returned span ->
  524288 < span <= 67108864 ->
  Forall (fun r => length r = 32%nat) (r0 :: roots) ->
  Forall (fun r => length r = 32%nat) leafs ->
  length h0 = 8%nat ->
  Get r0 = Ok (Joiner.mkSlice (h0 ++ concat leafs) sp0) ->
  (forall r, In r roots -> exists ch, Get r = Ok ch) ->
  (length (r0 :: roots) <= length leafs)%nat ->
  (forall r d, In r (take (length (r0 :: roots)) leafs) -> Get r = Ok d ->
               8 <= Joiner.slice_len d) ->
  exists j,
    Joiner.NewSimpleJoinerJob (Joiner.mkSlice (hdr ++ concat (r0 :: roots)) sp) =
      Returned j /\
    Joiner.levelCount j = 3 /\
    Joiner.goroutine Get j =
    Some (Returned (fst (Joiner.fetch Get (take (length (r0 :: roots)) leafs)),
                    match snd (Joiner.fetch Get (take (length (r0 :: roots)) leafs)) with
                    | Some _ => true
                    | None => false
                    end)).
Proof.
  intros Hh Hu Hspan Hroots Hleafs Hh0 Hr0 Hfound Hlen Hbig.
  pose proof (getLevels_three_levels span Hspan) as Hlc.
  unfold Joiner.NewSimpleJoinerJob.
  unfold Joiner.slice_len at 1. cbn [Joiner.elems].
  assert (C : (Z.of_nat (length (hdr ++ concat (r0 :: roots))) <? 8) = false).
  { apply Z.ltb_ge. rewrite length_app. lia. }
  rewrite C.
  rewrite take_app_length' by (now symmetry). rewrite Hu.
  rewrite slice_tail_8
    by (unfold Joiner.slice_len; cbn [Joiner.elems]; rewrite length_app; lia).
  cbn [Joiner.elems Joiner.spare].
  rewrite drop_app_length' by (now symmetry).
  rewrite Hlc. change ((0 <=? 3 - 1) && (3 - 1 <? 9)) with true. cbn match.
  change (Z.to_nat (3 - 1)) with 2%nat.
  eexists. split; [reflexivity|]. split; [reflexivity|].
  set (j := Joiner.mkJob _ _ _ _ _ _).
  destruct leafs as [|l leafs]; [cbn [length] in Hlen; lia|].
  apply Forall_cons in Hroots as [Hr0len Hroots].
  apply Forall_cons in Hleafs as [Hl Hleafs].
  unfold Joiner.goroutine, Joiner.start.
  change (Joiner.levelCount j - 1) with 2.
  change (Joiner.index (Joiner.data j) 2)
    with (Some (Joiner.mkSlice ([] ++ r0 ++ concat roots) sp)).
  cbn [Joiner.elems]. cbn [Joiner.start_loop].
  change (Joiner.index (Joiner.cursors j) 2) with (Some (Z.of_nat (length (@nil byte)))).
  change (Joiner.index (Joiner.data j) 2)
    with (Some (Joiner.mkSlice ([] ++ r0 ++ concat roots) sp)).
  unfold Joiner.slice_len at 1. cbn [Joiner.elems].
  assert (C0 : (Z.of_nat (length (@nil byte)) <?
                Z.of_nat (length ([] ++ r0 ++ concat roots))) = true).
  { apply Z.ltb_lt. cbn [app length]. rewrite length_app. lia. }
  rewrite C0.
  rewrite slice_range_section by assumption.
  cbn [Joiner.elems].
  change (2 - 1) with 1. change (Z.to_nat 1) with 1%nat.
  cbn [concat] in Hr0.
  rewrite (descend_level1_fresh Get r0 l Joiner.nil_slice h0 (concat leafs) sp0 j
             Hr0 Hh0 eq_refl eq_refl Hl).
  cbn zeta. cbn [length take Joiner.fetch].
  destruct (Get l) as [d|err] eqn:Eg; [|reflexivity].
  rewrite slice_tail_8 by (eapply Hbig; [left; reflexivity | exact Eg]).
  set (j1 := Joiner.set_cursor (Joiner.send _ _) 1 _).
  change (Joiner.index (Joiner.cursors j1) 2) with (Some (Z.of_nat (length (@nil byte)))).
  cbn match.
  set (j2 := Joiner.set_cursor j1 2 _).
  lazymatch goal with
  | |- context [Joiner.start_loop Get ?f 2 j2] =>
    destruct (start_loop_level2 Get sp sp0 roots leafs ([] ++ r0) ([] ++ l) j2 f)
      as (j' & Hout & Hrun)
  end; try assumption.
  - intros r' d' Hin. apply Hbig. cbn [length take]. now right.
  - cbn [length] in Hlen. lia.
  - subst j2 j1 j. cbn [app]. rewrite Hr0len. reflexivity.
  - subst j2 j1 j. cbn [app]. reflexivity.
  - subst j2 j1 j. cbn [app]. rewrite Hl. reflexivity.
  - subst j2 j1 j. cbn [app]. reflexivity.
  - cbn [app]. rewrite length_app, concat_sections_length by assumption. lia.
  - rewrite Hrun.
    destruct (Joiner.fetch Get (take (length roots) leafs)) as [out e] eqn:Ef.
    cbn [fst snd] in *. rewrite Hout.
    subst j2 j1 j. cbn [Joiner.set_cursor Joiner.send Joiner.set_data Joiner.dataC
                          Joiner.elems app].
    destruct e; reflexivity.
Qed.

Lemma joiner_three_levels_witness :
  exists j,
    Joiner.NewSimpleJoinerJob
      (Joiner.mkSlice (Pipeline.PutUint64 600000 ++ concat (Pipeline.ref_c :: [Pipeline.ref_d]))
                      []) = Returned j /\
    Joiner.levelCount j = 3 /\
    Joiner.goroutine Pipeline.three_levels j =
    Some (Returned (fst (Joiner.fetch Pipeline.three_levels
                           (take (length (Pipeline.ref_c :: [Pipeline.ref_d]))
                                 [Pipeline.ref_a; Pipeline.ref_b])),
                    match snd (Joiner.fetch Pipeline.three_levels
                                 (take (length (Pipeline.ref_c :: [Pipeline.ref_d]))
                                       [Pipeline.ref_a; Pipeline.ref_b])) with
                    | Some _ => true
                    | None => false
                    end)).
Proof.
  apply (joiner_three_levels Pipeline.three_levels (Pipeline.PutUint64 600000) []
           (Pipeline.PutUint64 8192) [] Pipeline.ref_c [Pipeline.ref_d]
           [Pipeline.ref_a; Pipeline.ref_b] 600000).
  - reflexivity.
  - reflexivity.
  - lia.
  - repeat constructor.
  - repeat constructor.
  - reflexivity.
  - reflexivity.
  - intros r [<- | []]. eexists. reflexivity.
  - cbn [length]. lia.
  - intros r d [<- | [<- | []]] E; vm_compute in E; injection E as <-;
      vm_compute; discriminate.
Defined.

(** What a reader of such a job sees while the context is not done: the
    k-th [Read] copies the k-th block into the buffer and reports the length
    of the buffer, whatever the length of the block; after the last block
    [Read] returns [io.EOF] if the traversal failed, and after a complete
    traversal it blocks, the channel being left open. *)
Theorem joiner_Read_sequence (Get : Address -> result Joiner.bslice)
    (hdr sp : list byte) (refs : list Address) (span : Z) :
  length hdr = 8%nat ->
  Joiner.Uint64 hdr = Returned span ->
  0 < span <= 524288 ->
  Forall (fun r => length r = 32%nat) refs ->
  (forall r d, In r refs -> Get r = Ok d -> 8 <= Joiner.slice_len d) ->
  exists j blocks closed,
    Joiner.NewSimpleJoinerJob (Joiner.mkSlice (hdr ++ concat refs) sp) = Returned j /\
    Joiner.goroutine Get j = Some (Returned (blocks, closed)) /\
    (forall (k : nat) (blk b : list byte),
       blocks !! k = Some blk ->
       Joiner.Read b (drop k blocks) closed =
       Some (take (length b) blk ++ drop (length blk) b, Z.of_nat (length b), None,
             drop (S k) blocks)) /\
    (forall b : list byte,
       Joiner.Read b (drop (length blocks) blocks) closed =
       match snd (Joiner.fetch Get refs) with
       | Some _ => Some (b, 0, Some (ErrOther "EOF"), [])
       | None => None
       end).
Proof.
  intros Hh Hu Hspan Hrefs Hbig.
  destruct (job_sections Get hdr [] sp refs span Hh Hu Hspan Hrefs Hbig
              (or_introl eq_refl)) as (j & Hj & Hrun).
  rewrite app_nil_r in Hj.
  exists j, (fst (Joiner.fetch Get refs)),
    (match snd (Joiner.fetch Get refs) with Some _ => true | None => false end).
  split; [exact Hj|]. split.
  { rewrite Hrun. now destruct (snd (Joiner.fetch Get refs)). }
  split.
  - intros k blk b Hk.
    rewrite (drop_S _ _ _ Hk). reflexivity.
  - intros b. rewrite drop_all.
    now destruct (snd (Joiner.fetch Get refs)).
Qed.

Lemma joiner_Read_sequence_witness :
  exists j blocks closed,
    Joiner.NewSimpleJoinerJob
      (Joiner.mkSlice (Pipeline.PutUint64 3 ++ concat [Pipeline.ref_a; Pipeline.ref_b]) []) =
      Returned j /\
    Joiner.goroutine Pipeline.two_records j = Some (Returned (blocks, closed)) /\
    (forall (k : nat) (blk b : list byte),
       blocks !! k = Some blk ->
       Joiner.Read b (drop k blocks) closed =
       Some (take (length b) blk ++ drop (length blk) b, Z.of_nat (length b), None,
             drop (S k) blocks)) /\
    (forall b : list byte,
       Joiner.Read b (drop (length blocks) blocks) closed =
       match snd (Joiner.fetch Pipeline.two_records [Pipeline.ref_a; Pipeline.ref_b]) with
       | Some _ => Some (b, 0, Some (ErrOther "EOF"), [])
       | None => None
       end).
Proof.
  apply (joiner_Read_sequence Pipeline.two_records (Pipeline.PutUint64 3) []
           [Pipeline.ref_a; Pipeline.ref_b] 3).
  - reflexivity.
  - reflexivity.
  - lia.
  - repeat constructor.
  - intros r d [<- | [<- | []]] E; vm_compute in E; injection E as <-;
      vm_compute; discriminate.
Defined.

(** ** Chunk feeder: round trip and edge cases *)

Lemma feed_ok_log {NS : Type} (CW : NS -> Pipeline.pipeWriteArgs -> NS * result Z)
    (recs : list Pipeline.pipeWriteArgs) :
  forall w st log st' log' w',
    Pipeline.feed CW recs w st log = (st', log', Returned (Ok w')) ->
    log' = log ++ recs.
Proof.
  induction recs as [|a rest IH]; intros w st log st' log' w' H; cbn [Pipeline.feed] in H.
  - injection H as _ <- _. now rewrite app_nil_r.
  - destruct (CW st a) as [st1 [n|e]]; [|discriminate].
    apply IH in H. rewrite H, <- app_assoc. reflexivity.
Qed.

Lemma pieces_fuel_bounds (n fuel : nat) :
  (0 < n)%nat ->
  forall b : list byte,
    Forall (fun p => (1 <= length p <= n)%nat /\ (length p <= length b)%nat)
           (Pipeline.pieces_fuel fuel n b).
Proof.
  intros Hn. induction fuel as [|f IH]; intros b; cbn [Pipeline.pieces_fuel].
  - constructor.
  - destruct b as [|x b']; [constructor|].
    constructor.
    + rewrite length_take. simpl. lia.
    + eapply Forall_impl; [apply IH|].
      intros p [H1 H2]. split; [assumption|].
      rewrite length_drop in H2. lia.
Qed.

(** What [Write] hands down can be read back: when [Write] returns without
    error, stripping the 8-byte header from each chain write and
    concatenating gives the input again, and each header decodes to the
    length of its payload, which is between 1 and the feeder size. *)
Theorem chunkFeeder_Write_roundtrip {NS : Type}
    (CW : NS -> Pipeline.pipeWriteArgs -> NS * result Z)
    (size : Z) (b : list byte) (st st' : NS) (log : list Pipeline.pipeWriteArgs) (w : Z) :
  0 < size ->
  Pipeline.len b < 2 ^ 63 ->
  Pipeline.Write CW size b st = Some (st', log, Returned (Ok w)) ->
  concat (map (fun a => drop 8 (Pipeline.data a)) log) = b /\
  Forall (fun a =>
            Joiner.Uint64 (take 8 (Pipeline.data a)) =
              Returned (Pipeline.len (drop 8 (Pipeline.data a))) /\
            1 <= Pipeline.len (drop 8 (Pipeline.data a)) <= size) log.
Proof.
  intros Hsize Hlen Hw. rewrite Write_feed in Hw by assumption.
  injection Hw as Hw. apply feed_ok_log in Hw. cbn [app] in Hw. subst log.
  assert (Hb := pieces_fuel_bounds (Z.to_nat size) (length b) ltac:(lia) b).
  fold (Pipeline.pieces (Z.to_nat size) b) in Hb.
  split.
  - rewrite map_map.
    rewrite <- (pieces_fuel_concat (Z.to_nat size) (length b) ltac:(lia) b (Nat.le_refl _)) at 2.
    fold (Pipeline.pieces (Z.to_nat size) b). f_equal.
    rewrite <- (List.map_id (Pipeline.pieces (Z.to_nat size) b)) at 2.
    apply map_ext. intros d. unfold Pipeline.record_of. cbn [Pipeline.data].
    now rewrite drop_app_length' by reflexivity.
  - apply Forall_map. eapply Forall_impl; [exact Hb|].
    intros d [[H1 H2] H3].
    unfold Pipeline.record_of. cbn [Pipeline.data].
    rewrite take_app_length' by reflexivity.
    rewrite drop_app_length' by reflexivity.
    split.
    + rewrite Uint64_PutUint64. f_equal. apply Z.mod_small.
      unfold Pipeline.len in *.
      assert (2 ^ 63 < 2 ^ 64) by (apply Z.pow_lt_mono_r; lia). lia.
    + unfold Pipeline.len. lia.
Qed.

Lemma chunkFeeder_Write_roundtrip_witness :
  concat (map (fun a => drop 8 (Pipeline.data a))
              [Pipeline.record_of [x01; x02]; Pipeline.record_of [x03]]) = [x01; x02; x03] /\
  Forall (fun a =>
            Joiner.Uint64 (take 8 (Pipeline.data a)) =
              Returned (Pipeline.len (drop 8 (Pipeline.data a))) /\
            1 <= Pipeline.len (drop 8 (Pipeline.data a)) <= 2)
         [Pipeline.record_of [x01; x02]; Pipeline.record_of [x03]].
Proof.
  apply (chunkFeeder_Write_roundtrip Pipeline.accepting_next 2 [x01; x02; x03] tt tt
           [Pipeline.record_of [x01; x02]; Pipeline.record_of [x03]] 19).
  - lia.
  - vm_compute. reflexivity.
  - reflexivity.
Defined.

Lemma Write_log_records {NS : Type}
    (CW : NS -> Pipeline.pipeWriteArgs -> NS * result Z)
    (size : Z) (b : list byte) (st st' : NS) (log : list Pipeline.pipeWriteArgs) (w : Z) :
  0 < size ->
  Pipeline.Write CW size b st = Some (st', log, Returned (Ok w)) ->
  exists ps, log = map Pipeline.record_of ps /\ concat ps = b.
Proof.
  intros Hsize Hw. rewrite Write_feed in Hw by assumption.
  injection Hw as Hw. apply feed_ok_log in Hw. cbn [app] in Hw. subst log.
  exists (Pipeline.pieces (Z.to_nat size) b). split; [reflexivity|].
  apply pieces_fuel_concat; lia.
Qed.

Lemma fetch_records (Get : Address -> result Joiner.bslice) :
  forall (refs : list Address) (ps : list (list byte)),
    Forall2 (fun r d =>
               exists sp, Get r =
                 Ok (Joiner.mkSlice (Pipeline.data (Pipeline.record_of d)) sp)) refs ps ->
    Joiner.fetch Get refs = (ps, None) /\
    forall r d, In r refs -> Get r = Ok d -> 8 <= Joiner.slice_len d.
Proof.
  induction 1 as [|r d refs ps (sp & Hr) _ [IH1 IH2]].
  - split; [reflexivity | intros ? ? []].
  - split.
    + cbn [Joiner.fetch]. rewrite Hr, IH1. cbn [Joiner.elems].
      unfold Pipeline.record_of. cbn [Pipeline.data].
      now rewrite drop_app_length' by reflexivity.
    + intros r' d' [<- | Hin] E; [|now apply (IH2 r')].
      rewrite Hr in E. injection E as <-.
      unfold Joiner.slice_len, Pipeline.record_of. cbn [Joiner.elems Pipeline.data].
      cbn [length]. lia.
Qed.

(** Splitting and joining compose at one or two levels: if the store holds
    each record that [Write] handed down under a 32-byte reference, and the
    root chunk lists these references in order, the job sends blocks whose
    concatenation is the input of [Write], and leaves the channel open. *)
Theorem feeder_joiner_roundtrip {NS : Type}
    (CW : NS -> Pipeline.pipeWriteArgs -> NS * result Z)
    (Get : Address -> result Joiner.bslice)
    (size : Z) (b : list byte) (st st' : NS) (log : list Pipeline.pipeWriteArgs) (w : Z)
    (hdr sp : list byte) (refs : list Address) (span : Z) :
  0 < size ->
  Pipeline.Write CW size b st = Some (st', log, Returned (Ok w)) ->
  Forall (fun r => length r = 32%nat) refs ->
  Forall2 (fun r a => exists sp', Get r = Ok (Joiner.mkSlice (Pipeline.data a) sp'))
          refs log ->
  length hdr = 8%nat ->
  Joiner.Uint64 hdr = Returned span ->
  0 < span <= 524288 ->
  exists j blocks,
    Joiner.NewSimpleJoinerJob (Joiner.mkSlice (hdr ++ concat refs) sp) = Returned j /\
    Joiner.goroutine Get j = Some (Returned (blocks, false)) /\
    length blocks = length log /\
    concat blocks = b.
Proof.
  intros Hsize Hw Hrefs Hstore Hh Hu Hspan.
  destruct (Write_log_records CW size b st st' log w Hsize Hw) as (ps & -> & Hps).
  apply Forall2_fmap_r in Hstore.
  destruct (fetch_records Get refs ps Hstore) as [Hf Hbig].
  destruct (job_sections Get hdr [] sp refs span Hh Hu Hspan Hrefs Hbig
              (or_introl eq_refl)) as (j & Hj & Hrun).
  rewrite app_nil_r in Hj. rewrite Hf in Hrun. cbn [fst snd] in Hrun.
  exists j, ps. repeat split; try assumption.
  now rewrite length_map.
Qed.

Lemma feeder_joiner_roundtrip_witness :
  exists j blocks,
    Joiner.NewSimpleJoinerJob
      (Joiner.mkSlice (Pipeline.PutUint64 3 ++ concat [Pipeline.ref_a; Pipeline.ref_b]) []) =
      Returned j /\
    Joiner.goroutine Pipeline.two_records j = Some (Returned (blocks, false)) /\
    length blocks =
      length [Pipeline.record_of [x01; x02]; Pipeline.record_of [x03]] /\
    concat blocks = [x01; x02; x03].
Proof.
  apply (feeder_joiner_roundtrip Pipeline.accepting_next Pipeline.two_records
           2 [x01; x02; x03] tt tt
           [Pipeline.record_of [x01; x02]; Pipeline.record_of [x03]] 19
           (Pipeline.PutUint64 3) [] [Pipeline.ref_a; Pipeline.ref_b] 3).
  - lia.
  - reflexivity.
  - repeat constructor.
  - repeat constructor; exists []; reflexivity.
  - reflexivity.
  - reflexivity.
  - lia.
Defined.

(** A feeder whose size is not positive: on empty input [Write] makes no
    chain write and returns 0 whatever the size; on non-empty input a
    negative size panics on the slice expression before any chain write, and
    size 0 never leaves the loop while the next stage accepts the empty
    records it is fed. *)
Theorem chunkFeeder_Write_degenerate {NS : Type}
    (CW : NS -> Pipeline.pipeWriteArgs -> NS * result Z)
    (size : Z) (b : list byte) (st : NS) :
  Pipeline.Write CW size [] st = Some (st, [], Returned (Ok 0)) /\
  (b <> [] -> size < 0 ->
   Pipeline.Write CW size b st = Some (st, [], Panicked SliceBounds)) /\
  (b <> [] -> (forall s a, exists s' n, CW s a = (s', Ok n)) ->
   forall fuel, Pipeline.Write_loop CW fuel 0 b 0 0 st [] = None).
Proof.
  split; [reflexivity|]. split.
  - intros Hb Hneg. unfold Pipeline.Write.
    destruct b as [|x b']; [congruence|].
    cbn [length Pipeline.Write_loop].
    assert (Hlen : (0 <? Pipeline.len (x :: b')) = true)
      by (apply Z.ltb_lt; unfold Pipeline.len; simpl; lia).
    rewrite Hlen. cbn zeta.
    assert (Hgt : (0 + size >? Pipeline.len (x :: b')) = false).
    { apply Z.ltb_lt in Hlen. destruct (Z.gtb_spec (0 + size) (Pipeline.len (x :: b'))); lia. }
    rewrite Hgt. unfold Pipeline.slice.
    assert (Hle : (0 <=? 0 + size) = false) by (apply Z.leb_gt; lia).
    rewrite Hle. reflexivity.
  - intros Hb Hok fuel. now apply Write_loop_size0_diverges.
Qed.

(** ** Mock storer: chunks *)

Lemma fold_store_set_fields (chs : list Chunk) :
  forall m,
    MockStorer.validator (fold_left MockStorer.store_set chs m) = MockStorer.validator m /\
    MockStorer.bins (fold_left MockStorer.store_set chs m) = MockStorer.bins m /\
    MockStorer.baseAddress (fold_left MockStorer.store_set chs m) = MockStorer.baseAddress m.
Proof.
  induction chs as [|ch rest IH]; intros m; cbn [fold_left]; [auto|].
  destruct (IH (MockStorer.store_set m ch)) as (A & B & C).
  rewrite A, B, C. auto.
Qed.

Lemma fold_store_set_other (chs : list Chunk) (a : Address) :
  forall m,
    (forall ch, In ch chs -> chAddress ch <> a) ->
    MockStorer.store (fold_left MockStorer.store_set chs m) a = MockStorer.store m a.
Proof.
  induction chs as [|ch rest IH]; intros m H; cbn [fold_left]; [reflexivity|].
  rewrite IH by (intros ch' Hin; apply H; now right).
  cbn [MockStorer.store_set MockStorer.store].
  assert (Hne : Address_Equal a (chAddress ch) = false).
  { apply Address_Equal_false. intros ->. apply (H ch); [now left | reflexivity]. }
  now rewrite Hne.
Qed.

Lemma fold_store_set_last (pre post : list Chunk) (ch : Chunk) (m : MockStorer.Chunks) :
  (forall ch', In ch' post -> chAddress ch' <> chAddress ch) ->
  MockStorer.store (fold_left MockStorer.store_set (pre ++ ch :: post) m) (chAddress ch)
  = Some (chData ch).
Proof.
  intros H. rewrite fold_left_app. cbn [fold_left].
  rewrite fold_store_set_other by assumption.
  cbn [MockStorer.store_set MockStorer.store]. now rewrite Address_Equal_refl.
Qed.

Lemma accepted_cons (m : MockStorer.Chunks) (ch : Chunk) (rest : list Chunk) :
  MockStorer.accepted m (ch :: rest) ->
  match MockStorer.validator m with Some v => negb (v ch) | None => false end = false /\
  MockStorer.accepted (MockStorer.store_set m ch) rest.
Proof.
  unfold MockStorer.accepted. cbn [MockStorer.store_set MockStorer.validator].
  destruct (MockStorer.validator m) as [v|]; [|auto].
  intros H. apply Forall_cons in H as [H1 H2]. rewrite H1. auto.
Qed.

Lemma Put_loop_accepted (P : list byte -> list byte -> nat) (chs : list Chunk) :
  forall (m : MockStorer.Chunks) (exist : list bool),
    MockStorer.accepted m chs ->
    MockStorer.Put_loop P m chs exist =
    Returned (fold_left MockStorer.store_set chs m,
              Ok (exist ++ repeat true (length chs))).
Proof.
  induction chs as [|ch rest IH]; intros m exist Hacc;
    cbn [MockStorer.Put_loop fold_left length repeat].
  - now rewrite app_nil_r.
  - destruct (accepted_cons m ch rest Hacc) as [Hv Hrest]. rewrite Hv.
    cbn zeta. unfold MockStorer.has at 1.
    cbn [MockStorer.store_set MockStorer.store]. rewrite Address_Equal_refl.
    rewrite IH by assumption. now rewrite <- app_assoc.
Qed.

(** [Put] reports every chunk as already present, whether the store had it
    or not, and never advances a bin id: it asks [has] only after it has
    written the chunk.  It never panics either. *)
Theorem MockStorer_Put_reports_existing (P : list byte -> list byte -> nat)
    (m : MockStorer.Chunks) (mode : ModePut) (chs : list Chunk) :
  MockStorer.accepted m chs ->
  exists m',
    MockStorer.Put P m mode chs = Returned (m', Ok (repeat true (length chs))) /\
    MockStorer.bins m' = MockStorer.bins m.
Proof.
  intros Hacc. unfold MockStorer.Put. rewrite Put_loop_accepted by assumption.
  eexists. split; [reflexivity|]. apply fold_store_set_fields.
Qed.

Lemma MockStorer_Put_reports_existing_witness :
  exists m',
    MockStorer.Put (fun _ _ => 0%nat) (MockStorer.mkChunks (fun _ => None) None [] [0; 0])
      ModePutUpload [NewChunk [x01] [x2a]] = Returned (m', Ok [true]) /\
    MockStorer.bins m' = [0; 0].
Proof.
  apply (MockStorer_Put_reports_existing (fun _ _ => 0%nat)
           (MockStorer.mkChunks (fun _ => None) None [] [0; 0]) ModePutUpload
           [NewChunk [x01] [x2a]]).
  exact I.
Defined.

(** After a [Put] that the validator lets through, [Get] and [Has] find each
    chunk under its address, with the data of the last chunk put at that
    address; addresses that were not put are as before.  An address the
    store does not hold gives [ErrNotFound]. *)
Theorem MockStorer_Put_Get (P : list byte -> list byte -> nat)
    (m : MockStorer.Chunks) (mode : ModePut) (mode' : ModeGet)
    (pre post : list Chunk) (ch : Chunk) :
  MockStorer.accepted m (pre ++ ch :: post) ->
  (forall ch', In ch' post -> chAddress ch' <> chAddress ch) ->
  exists m' exist,
    MockStorer.Put P m mode (pre ++ ch :: post) = Returned (m', Ok exist) /\
    MockStorer.Get m' mode' (chAddress ch) = Ok (NewChunk (chAddress ch) (chData ch)) /\
    MockStorer.Has m' (chAddress ch) = Ok true /\
    (forall a, (forall ch', In ch' (pre ++ ch :: post) -> chAddress ch' <> a) ->
       MockStorer.Get m' mode' a = MockStorer.Get m mode' a /\
       MockStorer.Has m' a = MockStorer.Has m a) /\
    (forall a, MockStorer.store m' a = None -> MockStorer.Get m' mode' a = Err ErrNotFound).
Proof.
  intros Hacc Hlast. unfold MockStorer.Put. rewrite Put_loop_accepted by assumption.
  do 2 eexists. split; [reflexivity|].
  unfold MockStorer.Get, MockStorer.Has, MockStorer.has.
  rewrite fold_store_set_last by assumption.
  split; [reflexivity|]. split; [reflexivity|]. split.
  - intros a Ha. now rewrite fold_store_set_other by assumption.
  - intros a ->. reflexivity.
Qed.

Lemma MockStorer_Put_Get_witness :
  exists m' exist,
    MockStorer.Put (fun _ _ => 0%nat) (MockStorer.mkChunks (fun _ => None) None [] [])
      ModePutUpload ([NewChunk [x01] [x2a]] ++ NewChunk [x01] [x2b] :: []) =
      Returned (m', Ok exist) /\
    MockStorer.Get m' ModeGetRequest [x01] = Ok (NewChunk [x01] [x2b]).
Proof.
  destruct (MockStorer_Put_Get (fun _ _ => 0%nat)
              (MockStorer.mkChunks (fun _ => None) None [] []) ModePutUpload
              ModeGetRequest [NewChunk [x01] [x2a]] [] (NewChunk [x01] [x2b]) I
              (fun ch' (H : In ch' []) => match H with end))
    as (m' & exist & E & G & _).
  exists m', exist. split; assumption.
Defined.

(** [Put] does not roll back: when the validator rejects a chunk, the call
    fails with [ErrInvalidChunk] and the chunks before it stay stored, in the
    very state a [Put] of those chunks alone would leave. *)
Theorem MockStorer_Put_partial (P : list byte -> list byte -> nat)
    (m : MockStorer.Chunks) (mode : ModePut) (v : Chunk -> bool)
    (pre post : list Chunk) (ch : Chunk) :
  MockStorer.validator m = Some v ->
  Forall (fun c => v c = true) pre ->
  v ch = false ->
  exists m',
    MockStorer.Put P m mode (pre ++ ch :: post) = Returned (m', Err ErrInvalidChunk) /\
    MockStorer.Put P m mode pre = Returned (m', Ok (repeat true (length pre))).
Proof.
  intros Hv Hpre Hch. unfold MockStorer.Put.
  assert (Hacc : MockStorer.accepted m pre) by (unfold MockStorer.accepted; now rewrite Hv).
  rewrite (Put_loop_accepted P pre m [] Hacc).
  exists (fold_left MockStorer.store_set pre m). split; [|reflexivity].
  generalize (@nil bool) as exist. revert m Hv Hacc.
  induction pre as [|c pre IH]; intros m Hv Hacc exist; cbn [app fold_left MockStorer.Put_loop].
  - rewrite Hv, Hch. reflexivity.
  - destruct (accepted_cons m c pre Hacc) as [Hvc Hrest]. rewrite Hvc.
    cbn zeta. unfold MockStorer.has at 1.
    cbn [MockStorer.store_set MockStorer.store]. rewrite Address_Equal_refl.
    apply IH.
    + now apply Forall_cons in Hpre as [_ H].
    + exact Hv.
    + exact Hrest.
Qed.

Lemma MockStorer_Put_partial_witness :
  exists m',
    MockStorer.Put (fun _ _ => 0%nat)
      (MockStorer.mkChunks (fun _ => None) (Some (fun c => negb (Address_Equal (chAddress c) [x02])))
         [] [])
      ModePutUpload ([NewChunk [x01] [x2a]] ++ NewChunk [x02] [x2b] :: [NewChunk [x03] [x2c]]) =
      Returned (m', Err ErrInvalidChunk) /\
    MockStorer.Put (fun _ _ => 0%nat)
      (MockStorer.mkChunks (fun _ => None) (Some (fun c => negb (Address_Equal (chAddress c) [x02])))
         [] [])
      ModePutUpload [NewChunk [x01] [x2a]] = Returned (m', Ok (repeat true 1)).
Proof.
  apply (MockStorer_Put_partial (fun _ _ => 0%nat) _ ModePutUpload
           (fun c => negb (Address_Equal (chAddress c) [x02]))
           [NewChunk [x01] [x2a]] [NewChunk [x03] [x2c]] (NewChunk [x02] [x2b])).
  - reflexivity.
  - constructor; [reflexivity | constructor].
  - reflexivity.
Defined.

(** ** Mock storer: views of the pinned set, and pin followed by unpin *)

Lemma unpin_removes_last (ms : Address -> option ModeSet) (a : Address)
    (pre : list Address) (cpre : list Z) (c : Z) :
  a ∉ pre -> length pre = length cpre -> MockStorer.u64 (c - 1) = 0 ->
  MockStorer.unpin (MockStorer.mkStorer ms (pre ++ [a]) (cpre ++ [c])) a =
  Returned (MockStorer.mkStorer ms pre cpre).
Proof.
  intros Hpre Hlpre Hz. unfold MockStorer.unpin.
  cbn [MockStorer.pinnedAddress MockStorer.pinnedCounter MockStorer.modeSet].
  rewrite (unpin_reaches_entry a pre [] cpre [] Hpre Hlpre eq_refl).
  cbn [MockStorer.unpin_loop length].
  rewrite list_lookup_middle by reflexivity.
  rewrite Address_Equal_refl.
  assert (Hlt : (length pre <? length (cpre ++ [c]))%nat = true).
  { apply Nat.ltb_lt. rewrite length_app. cbn [length]. lia. }
  rewrite Hlt. cbn [negb].
  rewrite list_lookup_middle by assumption.
  rewrite Hz. cbn [Z.eqb].
  assert (Hle : (S (length pre) <=? length (pre ++ [a]))%nat = true).
  { apply Nat.leb_le. rewrite length_app. cbn [length]. lia. }
  rewrite Hle. cbn [negb].
  rewrite shift_out_middle.
  replace (<[length pre := 0]> (cpre ++ [c])) with (cpre ++ [0])
    by (rewrite Hlpre; now rewrite insert_middle).
  replace (MockStorer.shift_out 0 (length pre) (length (cpre ++ [c])) (cpre ++ [0]))
    with ((cpre ++ []) ++ [0]).
  2:{ rewrite Hlpre.
      replace (length (cpre ++ [c])) with (length (cpre ++ [0]))
        by (rewrite !length_app; reflexivity).
      now rewrite shift_out_middle. }
  rewrite !app_nil_r.
  rewrite !take_app_length'; [reflexivity | |].
  - rewrite length_app. cbn [length]. lia.
  - rewrite length_app. cbn [length]. lia.
Qed.

Lemma Address_Equal_sym (a b : Address) : Address_Equal a b = Address_Equal b a.
Proof.
  destruct (Address_Equal b a) eqn:E.
  - apply Address_Equal_true in E. subst. apply Address_Equal_refl.
  - apply Address_Equal_false in E. apply Address_Equal_false. congruence.
Qed.

Lemma PinInfo_loop_miss (rs : list Address) :
  forall (i : nat) (a : Address) (cnt : list Z),
    a ∉ rs -> MockStorer.PinInfo_loop rs i a cnt = Returned (Err ErrNotFound).
Proof.
  induction rs as [|ad rest IH]; intros i a cnt Hni; cbn [MockStorer.PinInfo_loop].
  - reflexivity.
  - apply not_elem_of_cons in Hni as [Hne Hrest].
    apply Address_Equal_false in Hne. rewrite Address_Equal_sym, Hne. now apply IH.
Qed.

Lemma PinInfo_loop_hit (pre post : list Address) :
  forall (i : nat) (a : Address) (cnt : list Z),
    a ∉ pre ->
    MockStorer.PinInfo_loop (pre ++ a :: post) i a cnt =
    match cnt !! (i + length pre)%nat with
    | Some c => Returned (Ok c)
    | None => Panicked IndexOutOfRange
    end.
Proof.
  induction pre as [|ad pre IH]; intros i a cnt Hpre;
    cbn [app MockStorer.PinInfo_loop length].
  - rewrite Address_Equal_refl, Nat.add_0_r. reflexivity.
  - apply not_elem_of_cons in Hpre as [Hne Hpre].
    apply Address_Equal_false in Hne. rewrite Address_Equal_sym, Hne.
    rewrite IH by assumption. now replace (S i + length pre)%nat with (i + S (length pre))%nat by lia.
Qed.

(** [PinInfo] returns the counter of a pinned address, which is at least 1,
    and [ErrNotFound] for an address that is not pinned. *)
Theorem PinInfo_pinned (m : MockStorer.MockStorer) (a : Address) :
  MockStorer.wf m ->
  (a ∈ MockStorer.pinnedAddress m ->
   MockStorer.PinInfo m a = Returned (Ok (MockStorer.count m a)) /\
   1 <= MockStorer.count m a) /\
  (a ∉ MockStorer.pinnedAddress m ->
   MockStorer.PinInfo m a = Returned (Err ErrNotFound)).
Proof.
  destruct m as [ms A C]. unfold MockStorer.wf, MockStorer.count, MockStorer.PinInfo.
  cbn [MockStorer.pinnedAddress MockStorer.pinnedCounter].
  intros (Hl & Hnd & Hall).
  destruct (pinned_cases a A C Hl Hnd)
    as [Hni | (pre & post & cpre & c & cpost & -> & -> & H1 & H2 & Hp & Hq & Hn)].
  - split; [contradiction|]. intros _. now apply PinInfo_loop_miss.
  - split.
    + intros _. rewrite PinInfo_loop_hit by assumption. cbn [Nat.add].
      rewrite list_lookup_middle by assumption.
      rewrite count_in_middle by assumption.
      apply Forall_app in Hall as (_ & Hall2).
      apply Forall_cons in Hall2 as (Hc & _). split; [reflexivity | lia].
    + intros H. exfalso. apply H. apply elem_of_app. right. now left.
Qed.

Lemma PinInfo_pinned_witness :
  ([x01] ∈ [[x01]] ->
   MockStorer.PinInfo (MockStorer.mkStorer (fun _ => None) [[x01]] [3]) [x01] =
     Returned (Ok (MockStorer.count (MockStorer.mkStorer (fun _ => None) [[x01]] [3]) [x01])) /\
   1 <= MockStorer.count (MockStorer.mkStorer (fun _ => None) [[x01]] [3]) [x01]) /\
  ([x01] ∉ [[x01]] ->
   MockStorer.PinInfo (MockStorer.mkStorer (fun _ => None) [[x01]] [3]) [x01] =
     Returned (Err ErrNotFound)).
Proof.
  apply (PinInfo_pinned (MockStorer.mkStorer (fun _ => None) [[x01]] [3]) [x01]).
  split; [reflexivity|]. split.
  - apply NoDup_singleton.
  - constructor; [lia | constructor].
Defined.

Lemma PinnedChunks_loop_zip (rs : list Address) :
  forall (i : nat) (cpre C : list Z) (acc : list (Address * Z)),
    length cpre = i -> length rs = length C ->
    MockStorer.PinnedChunks_loop rs i (cpre ++ C) acc = Returned (acc ++ zip rs C).
Proof.
  induction rs as [|ad rest IH]; intros i cpre C acc Hi Hl;
    cbn [MockStorer.PinnedChunks_loop].
  - destruct C; [|discriminate]. cbn. now rewrite app_nil_r.
  - destruct C as [|c C]; [discriminate|].
    rewrite list_lookup_middle by (symmetry; assumption).
    replace (cpre ++ c :: C) with ((cpre ++ [c]) ++ C) by (now rewrite <- app_assoc).
    rewrite IH.
    + cbn [zip zip_with]. now rewrite <- app_assoc.
    + rewrite length_app. simpl. lia.
    + simpl in Hl. lia.
Qed.

(** [PinnedChunks] lists every pinned address once, with its counter, in the
    order of pinning, and never returns its "not found" error: for an empty
    pinned set it returns an empty list and no error. *)
Theorem PinnedChunks_lists_pins (m : MockStorer.MockStorer) :
  length (MockStorer.pinnedAddress m) = length (MockStorer.pinnedCounter m) ->
  MockStorer.PinnedChunks m =
    Returned (Ok (zip (MockStorer.pinnedAddress m) (MockStorer.pinnedCounter m))) /\
  (forall a, MockStorer.wf m ->
     In (a, MockStorer.count m a)
        (zip (MockStorer.pinnedAddress m) (MockStorer.pinnedCounter m))
     <-> a ∈ MockStorer.pinnedAddress m).
Proof.
  destruct m as [ms A C]. unfold MockStorer.PinnedChunks, MockStorer.count.
  cbn [MockStorer.pinnedAddress MockStorer.pinnedCounter].
  intros Hl. split.
  - destruct A as [|a A].
    + destruct C; [reflexivity | discriminate].
    + cbn [length Nat.eqb].
      pose proof (PinnedChunks_loop_zip (a :: A) 0 [] C [] eq_refl Hl) as E.
      cbn [app] in E. rewrite E.
      destruct C as [|c C]; [discriminate|]. reflexivity.
  - intros a (_ & Hnd & _).
    cbn [MockStorer.pinnedAddress MockStorer.pinnedCounter] in Hnd.
    destruct (pinned_cases a A C Hl Hnd)
      as [Hni | (pre & post & cpre & c & cpost & -> & -> & H1 & H2 & Hp & Hq & Hn)].
    + split; [|contradiction]. intros Hin. exfalso. apply Hni.
      apply list_elem_of_In. apply (in_map fst) in Hin. cbn in Hin.
      rewrite fst_zip in Hin by lia. exact Hin.
    + rewrite count_in_middle by assumption. split.
      * intros _. apply elem_of_app. right. now left.
      * intros _. rewrite zip_with_app by assumption. apply in_or_app. right. now left.
Qed.

Lemma PinnedChunks_lists_pins_witness :
  MockStorer.PinnedChunks MockStorer.NewStorer = Returned (Ok []).
Proof.
  apply (PinnedChunks_lists_pins MockStorer.NewStorer). reflexivity.
Defined.

Lemma Set_single (m : MockStorer.MockStorer) (mode : ModeSet) (a : Address) :
  MockStorer.Set' m mode [a] = MockStorer.Set_addr m mode a.
Proof.
  cbn [MockStorer.Set']. now destruct (MockStorer.Set_addr m mode a).
Qed.

(** Pinning an address and then unpinning it leaves the two slices of the
    pinned set exactly as they were, for every address (the filler
    included), short of [uint64] overflow of its counter. *)
Theorem Set_pin_then_unpin (m : MockStorer.MockStorer) (a : Address) :
  MockStorer.wf m ->
  MockStorer.count m a < 2 ^ 64 - 1 ->
  exists m1 m2,
    MockStorer.Set' m ModeSetPin [a] = Returned m1 /\
    MockStorer.Set' m1 ModeSetUnpin [a] = Returned m2 /\
    MockStorer.count m1 a = MockStorer.count m a + 1 /\
    MockStorer.pinnedAddress m2 = MockStorer.pinnedAddress m /\
    MockStorer.pinnedCounter m2 = MockStorer.pinnedCounter m.
Proof.
  destruct m as [ms A C]. unfold MockStorer.wf, MockStorer.count.
  cbn [MockStorer.pinnedAddress MockStorer.pinnedCounter].
  intros (Hl & Hnd & Hall) Hmax. rewrite Set_single. unfold MockStorer.Set_addr at 1.
  cbn [MockStorer.pinnedAddress MockStorer.pinnedCounter MockStorer.modeSet].
  destruct (pinned_cases a A C Hl Hnd)
    as [Hni | (pre & post & cpre & c & cpost & -> & -> & H1 & H2 & Hp & Hq & Hn)].
  - rewrite pin_new by assumption. eexists. eexists. split; [reflexivity|].
    rewrite Set_single. unfold MockStorer.Set_addr.
    cbn [MockStorer.pinnedAddress MockStorer.pinnedCounter MockStorer.modeSet].
    rewrite unpin_removes_last by (try assumption; reflexivity).
    split; [reflexivity|].
    cbn [MockStorer.pinnedAddress MockStorer.pinnedCounter].
    rewrite count_in_snoc_new by assumption.
    rewrite count_in_absent by assumption. auto.
  - rewrite count_in_middle in Hmax by assumption.
    apply Forall_app in Hall as (Hall1 & Hall2).
    apply Forall_cons in Hall2 as (Hc & Hall2).
    rewrite pin_increments by assumption. eexists. eexists. split; [reflexivity|].
    rewrite Set_single. unfold MockStorer.Set_addr.
    cbn [MockStorer.pinnedAddress MockStorer.pinnedCounter MockStorer.modeSet].
    rewrite (u64_small (c + 1)) by lia.
    assert (Hu : MockStorer.u64 (c + 1 - 1) = c)
      by (replace (c + 1 - 1) with c by lia; apply u64_small; lia).
    rewrite unpin_decrements by (try assumption; lia).
    rewrite Hu. split; [reflexivity|].
    cbn [MockStorer.pinnedAddress MockStorer.pinnedCounter].
    rewrite !count_in_middle by assumption. auto.
Qed.

Lemma Set_pin_then_unpin_witness :
  exists m1 m2,
    MockStorer.Set' MockStorer.NewStorer ModeSetPin [MockStorer.filler] = Returned m1 /\
    MockStorer.Set' m1 ModeSetUnpin [MockStorer.filler] = Returned m2 /\
    MockStorer.count m1 MockStorer.filler = MockStorer.count MockStorer.NewStorer MockStorer.filler + 1 /\
    MockStorer.pinnedAddress m2 = [] /\
    MockStorer.pinnedCounter m2 = [].
Proof.
  apply (Set_pin_then_unpin MockStorer.NewStorer MockStorer.filler).
  - apply NewStorer_wf.
  - vm_compute. reflexivity.
Defined.

Lemma pin_modeSet (m m' : MockStorer.MockStorer) (a : Address) :
  MockStorer.pin m a = Returned m' -> MockStorer.modeSet m' = MockStorer.modeSet m.
Proof.
  unfold MockStorer.pin.
  destruct (MockStorer.pin_loop _ _ _ _ _) as [[cnt found]|p]; [|discriminate].
  destruct found; cbn [negb]; intros [= <-]; reflexivity.
Qed.

Lemma unpin_modeSet (m m' : MockStorer.MockStorer) (a : Address) :
  MockStorer.unpin m a = Returned m' -> MockStorer.modeSet m' = MockStorer.modeSet m.
Proof.
  unfold MockStorer.unpin.
  destruct (MockStorer.unpin_loop _ _ _ _ _ _ _) as [[[arrA lenA] [arrC lenC]]|p];
    [|discriminate].
  intros [= <-]. reflexivity.
Qed.

Lemma Set_addr_modeSet (m m' : MockStorer.MockStorer) (mode : ModeSet) (a b : Address) :
  MockStorer.Set_addr m mode a = Returned m' ->
  MockStorer.modeSet m' b =
    if Address_Equal b a then Some mode else MockStorer.modeSet m b.
Proof.
  unfold MockStorer.Set_addr. intros H.
  destruct mode;
    try (injection H as <-; reflexivity).
  - apply pin_modeSet in H. now rewrite H.
  - apply unpin_modeSet in H. now rewrite H.
Qed.

(** [Set'] records the mode for every address it is given, whatever the mode
    and whether or not the address is pinned or stored, and for no other
    address: [GetModeSet] returns the mode of the latest [Set'] that named
    the address. *)
Theorem Set_then_GetModeSet (zero : ModeSet) (mode : ModeSet) (addrs : list Address) :
  forall (m m' : MockStorer.MockStorer) (a : Address),
    MockStorer.Set' m mode addrs = Returned m' ->
    MockStorer.GetModeSet zero m' a =
      if existsb (Address_Equal a) addrs then mode else MockStorer.GetModeSet zero m a.
Proof.
  induction addrs as [|x rest IH]; intros m m' a H; cbn [MockStorer.Set' existsb] in *.
  - now injection H as <-.
  - destruct (MockStorer.Set_addr m mode x) as [m1|p] eqn:E; [|discriminate].
    rewrite (IH m1 m' a H).
    destruct (existsb (Address_Equal a) rest); [now rewrite orb_true_r|].
    rewrite orb_false_r. unfold MockStorer.GetModeSet.
    rewrite (Set_addr_modeSet m m1 mode x a E).
    now destruct (Address_Equal a x).
Qed.

Lemma Set_then_GetModeSet_witness :
  MockStorer.GetModeSet ModeSetAccess
    (MockStorer.mkStorer
       (fun a => if Address_Equal a [x01] then Some ModeSetSync else None) [] [])
    [x01] = ModeSetSync.
Proof.
  apply (Set_then_GetModeSet ModeSetAccess ModeSetSync [[x01]] MockStorer.NewStorer _ [x01]).
  reflexivity.
Defined.

Lemma Set_pin_inv (addrs : list Address) :
  forall (m : MockStorer.MockStorer) (k : Z),
    MockStorer.wf m -> (forall a, MockStorer.count m a <= k) ->
    k + Z.of_nat (length addrs) < 2 ^ 64 - 1 ->
    exists m', MockStorer.Set' m ModeSetPin addrs = Returned m' /\ MockStorer.wf m' /\
               forall a, MockStorer.count m' a <= k + Z.of_nat (length addrs).
Proof.
  induction addrs as [|x rest IH]; intros m k Hwf Hk Hmax; cbn [MockStorer.Set'].
  - exists m. cbn [length]. split; [reflexivity|]. split; [assumption|].
    intros a. specialize (Hk a). lia.
  - cbn [length] in Hmax. rewrite Nat2Z.inj_succ in Hmax.
    destruct (Set_addr_pin_spec m x Hwf) as (m1 & E & Hwf1 & Hx & Hother).
    { specialize (Hk x). lia. }
    rewrite E.
    destruct (IH m1 (k + 1) Hwf1) as (m' & E' & Hwf' & Hk').
    + intros a. destruct (Address_eq_dec a x) as [->|Hne].
      * rewrite Hx. specialize (Hk x). lia.
      * rewrite (Hother a Hne). specialize (Hk a). lia.
    + lia.
    + exists m'. split; [assumption|]. split; [assumption|].
      intros a. specialize (Hk' a). cbn [length]. lia.
Qed.

Lemma Set_unpin_inv (addrs : list Address) :
  forall (m : MockStorer.MockStorer) (k : Z),
    MockStorer.wf m -> 0 <= k -> (forall a, MockStorer.count m a <= k) ->
    ~ In MockStorer.filler addrs ->
    exists m', MockStorer.Set' m ModeSetUnpin addrs = Returned m' /\ MockStorer.wf m' /\
               forall a, MockStorer.count m' a <= k.
Proof.
  induction addrs as [|x rest IH]; intros m k Hwf H0 Hk Hfill; cbn [MockStorer.Set'].
  - exists m. auto.
  - destruct (Set_addr_unpin_spec m x Hwf) as (m1 & E & Hwf1 & Hx & Hother & _).
    { intros ->. apply Hfill. now left. }
    rewrite E. apply (IH m1 k Hwf1 H0).
    + intros a. destruct (Address_eq_dec a x) as [->|Hne].
      * rewrite Hx. specialize (Hk x). lia.
      * rewrite (Hother a Hne). apply Hk.
    + intros Hin. apply Hfill. now right.
Qed.

Lemma Set_other_inv (mode : ModeSet) (addrs : list Address) :
  mode <> ModeSetPin -> mode <> ModeSetUnpin ->
  forall m : MockStorer.MockStorer,
    exists m', MockStorer.Set' m mode addrs = Returned m' /\
               MockStorer.pinnedAddress m' = MockStorer.pinnedAddress m /\
               MockStorer.pinnedCounter m' = MockStorer.pinnedCounter m.
Proof.
  intros Hp Hu. induction addrs as [|x rest IH]; intros m; cbn [MockStorer.Set'].
  - exists m. auto.
  - assert (E : exists m1, MockStorer.Set_addr m mode x = Returned m1 /\
                 MockStorer.pinnedAddress m1 = MockStorer.pinnedAddress m /\
                 MockStorer.pinnedCounter m1 = MockStorer.pinnedCounter m).
    { unfold MockStorer.Set_addr. destruct mode; try congruence; eexists; split; reflexivity || auto. }
    destruct E as (m1 & -> & EA & EC).
    destruct (IH m1) as (m' & E' & EA' & EC').
    exists m'. split; [assumption|]. split; congruence.
Qed.

Lemma run_inv (calls : list (ModeSet * list Address)) :
  forall (m : MockStorer.MockStorer) (k : Z),
    MockStorer.wf m -> 0 <= k -> (forall a, MockStorer.count m a <= k) ->
    MockStorer.spares_filler calls ->
    k + MockStorer.pin_requests calls < 2 ^ 64 - 1 ->
    exists m', MockStorer.run m calls = Returned m' /\ MockStorer.wf m' /\
               forall a, MockStorer.count m' a <= k + MockStorer.pin_requests calls.
Proof.
  induction calls as [|[mode addrs] rest IH]; intros m k Hwf H0 Hk Hsp Hmax;
    cbn [MockStorer.run].
  - exists m. split; [reflexivity|]. split; [assumption|].
    intros a. cbn [MockStorer.pin_requests]. specialize (Hk a). lia.
  - destruct mode.
    + cbn [MockStorer.pin_requests MockStorer.spares_filler] in *.
      destruct (Set_other_inv ModeSetAccess addrs ltac:(discriminate) ltac:(discriminate) m)
        as (m1 & -> & EA & EC).
      apply IH; try assumption.
      * unfold MockStorer.wf in *. now rewrite EA, EC.
      * intros a. unfold MockStorer.count in *. rewrite EA, EC. apply Hk.
    + cbn [MockStorer.pin_requests MockStorer.spares_filler] in *.
      destruct (Set_other_inv ModeSetSync addrs ltac:(discriminate) ltac:(discriminate) m)
        as (m1 & -> & EA & EC).
      apply IH; try assumption.
      * unfold MockStorer.wf in *. now rewrite EA, EC.
      * intros a. unfold MockStorer.count in *. rewrite EA, EC. apply Hk.
    + cbn [MockStorer.pin_requests MockStorer.spares_filler] in *.
      destruct (Set_other_inv ModeSetRemove addrs ltac:(discriminate) ltac:(discriminate) m)
        as (m1 & -> & EA & EC).
      apply IH; try assumption.
      * unfold MockStorer.wf in *. now rewrite EA, EC.
      * intros a. unfold MockStorer.count in *. rewrite EA, EC. apply Hk.
    + cbn [MockStorer.pin_requests MockStorer.spares_filler] in *.
      assert (0 <= MockStorer.pin_requests rest).
      { clear. induction rest as [|[md ad] r IHr]; cbn [MockStorer.pin_requests]; [lia|].
        destruct md; lia. }
      destruct (Set_pin_inv addrs m k Hwf Hk ltac:(lia)) as (m1 & -> & Hwf1 & Hk1).
      destruct (IH m1 (k + Z.of_nat (length addrs)) Hwf1 ltac:(lia) Hk1 Hsp ltac:(lia))
        as (m' & E & Hwf' & Hk').
      exists m'. split; [assumption|]. split; [assumption|].
      intros a. specialize (Hk' a). lia.
    + cbn [MockStorer.pin_requests MockStorer.spares_filler] in *.
      destruct Hsp as [Hfill Hsp].
      destruct (Set_unpin_inv addrs m k Hwf H0 Hk Hfill) as (m1 & -> & Hwf1 & Hk1).
      now apply IH.
Qed.

(** From a new storer, any sequence of [Set'] calls that stays below
    [2^64 - 1] pin requests and never unpins the one-byte filler address
    returns without panic and keeps the pinned set in shape: the two slices
    have the same length, no address occurs twice, every counter is at least
    1, and an address is in the pinned set exactly when its counter is. *)
Theorem run_keeps_pinned_set (calls : list (ModeSet * list Address)) :
  MockStorer.spares_filler calls ->
  MockStorer.pin_requests calls < 2 ^ 64 - 1 ->
  exists m,
    MockStorer.run MockStorer.NewStorer calls = Returned m /\
    MockStorer.wf m /\
    forall a, (a ∈ MockStorer.pinnedAddress m <-> 1 <= MockStorer.count m a) /\
              MockStorer.count m a <= MockStorer.pin_requests calls.
Proof.
  intros Hsp Hmax.
  destruct (run_inv calls MockStorer.NewStorer 0 NewStorer_wf ltac:(lia)) as (m & E & Hwf & Hk).
  - intros a. cbn. lia.
  - assumption.
  - lia.
  - exists m. split; [assumption|]. split; [assumption|].
    intros a. split; [now apply wf_pinned_iff_counted | apply Hk].
Qed.

Lemma run_keeps_pinned_set_witness :
  exists m,
    MockStorer.run MockStorer.NewStorer
      [(ModeSetPin, [[x01]; [x02]; [x01]]); (ModeSetUnpin, [[x02]]); (ModeSetSync, [[x03]])]
      = Returned m /\
    MockStorer.wf m /\
    forall a, (a ∈ MockStorer.pinnedAddress m <-> 1 <= MockStorer.count m a) /\
              MockStorer.count m a <= 3.
Proof.
  apply (run_keeps_pinned_set
           [(ModeSetPin, [[x01]; [x02]; [x01]]); (ModeSetUnpin, [[x02]]);
            (ModeSetSync, [[x03]])]).
  - cbn. split; [|exact I]. intros [H|[]]. discriminate.
  - vm_compute. reflexivity.
Defined.

(** Unpinning the filler address from any entry but the last one, when its
    counter is 1, panics: the vacated last slot receives the filler, which
    the range loop then takes for a second entry of the address. *)
Theorem Set_unpin_filler_panics (ms : Address -> option ModeSet)
    (pre post : list Address) (cpre cpost : list Z) :
  MockStorer.filler ∉ pre -> MockStorer.filler ∉ post ->
  length pre = length cpre -> length post = length cpost ->
  post <> [] ->
  MockStorer.Set' (MockStorer.mkStorer ms (pre ++ MockStorer.filler :: post)
                     (cpre ++ 1 :: cpost))
    ModeSetUnpin [MockStorer.filler] = Panicked IndexOutOfRange.
Proof.
  intros Hpre Hpost Hl1 Hl2 Hne. rewrite Set_single. unfold MockStorer.Set_addr.
  cbn [MockStorer.pinnedAddress MockStorer.pinnedCounter MockStorer.modeSet].
  now apply unpin_filler_panics.
Qed.

Lemma Set_unpin_filler_panics_witness :
  MockStorer.Set' (MockStorer.mkStorer (fun _ => None)
                     ([[x07]] ++ MockStorer.filler :: [[x09]]) ([2] ++ 1 :: [5]))
    ModeSetUnpin [MockStorer.filler] = Panicked IndexOutOfRange.
Proof.
  apply (Set_unpin_filler_panics (fun _ => None) [[x07]] [[x09]] [2] [5]).
  - intros H. apply list_elem_of_singleton in H. discriminate.
  - intros H. apply list_elem_of_singleton in H. discriminate.
  - reflexivity.
  - reflexivity.
  - discriminate.
Defined.

(** ** Netstore: what reaches the local store, and when the network is asked *)

Lemma valid_Exists {S : Type} (s : Netstore.store S) (ch : Chunk) :
  Netstore.valid s ch = true <-> Exists (fun v => v ch = true) (Netstore.validators s).
Proof. apply valid_loop_Exists. Qed.

(** Whatever [Get] or [Put] hands to the wrapped store's [Put] has been
    accepted by a registered validator: [Get] puts at most the one retrieved
    chunk, under [ModePutRequest]; [Put] passes on its own arguments. *)
Theorem netstore_stores_only_valid {S : Type} (s : Netstore.store S)
    (ctx : Netstore.Context) (mode : ModeGet) (addr : Address)
    (pmode : ModePut) (chs : list Chunk) (st : S) :
  (forall m cs,
     In (Netstore.StorerPut m cs) (snd (fst (Netstore.Get s ctx mode addr st))) ->
     m = ModePutRequest /\
     exists data, Netstore.retrieval s addr = Ok data /\ cs = [NewChunk addr data] /\
       Exists (fun v => v (NewChunk addr data) = true) (Netstore.validators s)) /\
  (forall m cs,
     In (Netstore.StorerPut m cs) (snd (fst (Netstore.Put s pmode chs st))) ->
     m = pmode /\ cs = chs /\
     Forall (fun ch => Exists (fun v => v ch = true) (Netstore.validators s)) chs).
Proof.
  split.
  - intros m cs. unfold Netstore.Get.
    destruct (Netstore.Storer_Get s st mode addr) as [st1 [ch|e]]; cbn [fst snd].
    + intros [H|[]]; discriminate.
    + destruct (errors_Is e ErrNotFound).
      * destruct (Netstore.retrieval s addr) as [data|e'].
        -- destruct (Netstore.valid s (NewChunk addr data)) eqn:Hv; cbn [negb].
           ++ destruct (Netstore.Storer_Put s st1 ModePutRequest [NewChunk addr data])
                as [st2 [ex|e2]]; cbn [fst snd];
                (intros [H|[H|[H|[]]]]; try discriminate;
                 injection H as <- <-; split; [reflexivity|];
                 exists data; split; [reflexivity|]; split; [reflexivity|];
                 now apply valid_Exists).
           ++ cbn [fst snd]. intros [H|[H|[]]]; discriminate.
        -- destruct (negb (Netstore.is_nil (Netstore.recoveryCallback s)) &&
                     negb (Netstore.is_nil (Netstore.targets ctx))); cbn [fst snd].
           ++ intros [H|[H|[H|[]]]]; discriminate.
           ++ intros [H|[H|[]]]; discriminate.
      * cbn [fst snd]. intros [H|[]]; discriminate.
  - intros m cs. unfold Netstore.Put.
    destruct (Netstore.all_valid s chs) eqn:Hv.
    + destruct (Netstore.Storer_Put s st pmode chs) as [st' r]. cbn [fst snd].
      intros [H|[]]. injection H as <- <-. split; [reflexivity|]. split; [reflexivity|].
      now apply all_valid_Forall.
    + cbn [fst snd]. intros [].
Qed.



(** ** Netstore over the mock storer *)

(** A chunk that [Get] had to fetch from the network is served from the
    local store afterwards: the second [Get] of the address returns the same
    chunk and neither asks the retrieval client nor puts anything. *)
Theorem netstore_second_Get_is_local (P : list byte -> list byte -> nat)
    (r : Address -> result (list byte)) (vs : list (Chunk -> bool))
    (m : MockStorer.Chunks) (ctx ctx' : Netstore.Context) (mode mode' : ModeGet)
    (addr : Address) (data : list byte) :
  MockStorer.store m addr = None ->
  r addr = Ok data ->
  Exists (fun v => v (NewChunk addr data) = true) vs ->
  MockStorer.accepted m [NewChunk addr data] ->
  let ns := NetOverMock.netstore P r vs in
  exists m1,
    Netstore.Get ns ctx mode addr m =
      (m1, [Netstore.StorerGet mode addr; Netstore.RetrieveChunk addr;
            Netstore.StorerPut ModePutRequest [NewChunk addr data]],
       Ok (NewChunk addr data)) /\
    Netstore.Get ns ctx' mode' addr m1 =
      (m1, [Netstore.StorerGet mode' addr], Ok (NewChunk addr data)).
Proof.
  intros Hmiss Hr Hv Hacc. cbn zeta.
  exists (MockStorer.store_set m (NewChunk addr data)).
  unfold Netstore.Get, NetOverMock.netstore, Netstore.New, NetOverMock.mock_Get,
    NetOverMock.mock_Put, MockStorer.Get, MockStorer.Put, Netstore.valid.
  cbn [Netstore.Storer_Get Netstore.Storer_Put Netstore.retrieval Netstore.validators
       Netstore.recoveryCallback].
  rewrite Hmiss. cbn [errors_Is error_head_eqb]. rewrite Hr.
  apply valid_loop_Exists in Hv. rewrite Hv. cbn [negb].
  rewrite Put_loop_accepted by assumption. cbn [fold_left].
  split; [reflexivity|].
  cbn [MockStorer.store_set MockStorer.store chAddress NewChunk chData].
  now rewrite Address_Equal_refl.
Qed.

Lemma netstore_second_Get_is_local_witness :
  exists m1,
    Netstore.Get (NetOverMock.netstore (fun _ _ => 0%nat) Netstore.deliver_2a
                    [Netstore.mock_Validate])
      (Netstore.mkContext None) ModeGetRequest [x01]
      (MockStorer.mkChunks (fun _ => None) None [] []) =
      (m1, [Netstore.StorerGet ModeGetRequest [x01]; Netstore.RetrieveChunk [x01];
            Netstore.StorerPut ModePutRequest [NewChunk [x01] [x2a]]],
       Ok (NewChunk [x01] [x2a])) /\
    Netstore.Get (NetOverMock.netstore (fun _ _ => 0%nat) Netstore.deliver_2a
                    [Netstore.mock_Validate])
      (Netstore.mkContext None) ModeGetLookup [x01] m1 =
      (m1, [Netstore.StorerGet ModeGetLookup [x01]], Ok (NewChunk [x01] [x2a])).
Proof.
  apply (netstore_second_Get_is_local (fun _ _ => 0%nat) Netstore.deliver_2a
           [Netstore.mock_Validate] (MockStorer.mkChunks (fun _ => None) None [] [])
           (Netstore.mkContext None) (Netstore.mkContext None)
           ModeGetRequest ModeGetLookup [x01] [x2a]).
  - reflexivity.
  - reflexivity.
  - constructor. reflexivity.
  - exact I.
Defined.

(** ** Single-owner chunks: signer and chunk creation *)

(** [AddSigner] either fails and leaves the [Soc] as it was, or succeeds,
    which it does exactly when the signer yields a public key whose Ethereum
    address has 20 bytes; it then installs the signer and that address as
    owner, replacing any owner set with [WithOwnerAddress], and keeps the
    identifier and the wrapped chunk. *)
Theorem AddSigner_cases (NewEthereumAddress : list byte -> result (list byte))
    (s : Soc.Soc) (sg : Soc.Signer) :
  let s' := fst (Soc.AddSigner NewEthereumAddress s sg) in
  let err := snd (Soc.AddSigner NewEthereumAddress s sg) in
  (err <> None -> s' = s) /\
  (err = None <->
   exists pk bytes, Soc.PublicKey sg = Ok pk /\ NewEthereumAddress pk = Ok bytes /\
                    length bytes = 20%nat) /\
  (err = None ->
   exists pk bytes, Soc.PublicKey sg = Ok pk /\ NewEthereumAddress pk = Ok bytes /\
     Soc.owner s' = Some (Soc.mkOwner bytes) /\ Soc.signer s' = Some sg /\
     Soc.id s' = Soc.id s /\ Soc.chunk s' = Soc.chunk s).
Proof.
  cbn zeta. unfold Soc.AddSigner.
  destruct (Soc.PublicKey sg) as [pk|e1]; cbn [fst snd].
  - destruct (NewEthereumAddress pk) as [bytes|e2] eqn:E2; cbn [fst snd].
    + unfold Soc.NewOwner, Soc.AddressSize.
      destruct (Z.eqb_spec (Z.of_nat (length bytes)) 20) as [Hl|Hl]; cbn [negb fst snd].
      * split; [congruence|]. split.
        -- split; [|reflexivity]. intros _. exists pk, bytes.
           split; [reflexivity|]. split; [assumption|]. lia.
        -- intros _. exists pk, bytes. cbn. auto 10.
      * split; [reflexivity|]. split; [|discriminate].
        split; [discriminate|]. intros (pk' & bytes' & [= <-] & H2 & H3).
        rewrite E2 in H2. injection H2 as <-. lia.
    + split; [reflexivity|]. split; [|discriminate].
      split; [discriminate|]. intros (pk' & bytes' & [= <-] & H2 & _). congruence.
  - split; [reflexivity|]. split; [|discriminate].
    split; [discriminate|]. intros (pk' & bytes' & H1 & _). discriminate.
Qed.

(** [CreateChunk] needs a signer: with only an owner address set it returns
    the "signer missing" error.  After a successful [AddSigner], if the
    signer signs, the chunk it returns has the address [Address()] gives,
    [keccak256(id ++ owner)], and the data [id ++ signature ++ data] of the
    wrapped chunk, the signature being that of [id ++ address] of the wrapped
    chunk; if the signer fails, its error is returned. *)
Theorem CreateChunk_layout (keccak256 : list byte -> list byte)
    (NewEthereumAddress : list byte -> result (list byte))
    (i : list byte) (ch : Chunk) (o : option Soc.Owner) (sg : Soc.Signer) :
  let s0 := Soc.WithOwnerAddress (Soc.NewSoc i ch) o in
  let s := fst (Soc.AddSigner NewEthereumAddress s0 sg) in
  Soc.CreateChunk keccak256 s0 = Returned (Err (ErrOther "signer missing")) /\
  (snd (Soc.AddSigner NewEthereumAddress s0 sg) = None ->
   exists owner,
     Soc.OwnerAddress s = Returned owner /\
     match Soc.Sign sg (i ++ chAddress ch) with
     | Err err => Soc.CreateChunk keccak256 s = Returned (Err err)
     | Ok sig =>
       Soc.CreateChunk keccak256 s =
         Returned (Ok (NewChunk (keccak256 (i ++ owner)) (i ++ sig ++ chData ch))) /\
       Soc.Address keccak256 s = Returned (Ok (keccak256 (i ++ owner)))
     end).
Proof.
  cbn zeta. split; [reflexivity|].
  unfold Soc.AddSigner.
  destruct (Soc.PublicKey sg) as [pk|e1]; cbn [fst snd]; [|discriminate].
  destruct (NewEthereumAddress pk) as [bytes|e2]; cbn [fst snd]; [|discriminate].
  destruct (Soc.NewOwner bytes) as [ow|e3]; cbn [fst snd]; [|discriminate].
  intros _. exists (Soc.address ow). split; [reflexivity|].
  unfold Soc.CreateChunk.
  cbn [Soc.signer Soc.id Soc.chunk Soc.WithOwnerAddress Soc.NewSoc].
  destruct (Soc.Sign sg (i ++ chAddress ch)) as [sig|err]; [|reflexivity].
  split; reflexivity.
Qed.

(** ** Push-sync: the choice of the peer *)

Lemma IsZero_nil (a : Address) : PushSync.IsZero a = true <-> a = [].
Proof. destruct a; split; congruence || reflexivity || discriminate. Qed.

Lemma skipped_In (skip : list Address) (peer : Address) :
  existsb (fun a => Address_Equal a peer) skip = true <-> In peer skip.
Proof.
  rewrite existsb_exists. split.
  - intros (x & Hin & Heq). apply Address_Equal_true in Heq. now subst.
  - intros Hin. exists peer. split; [assumption | apply Address_Equal_refl].
Qed.

Lemma closestPeer_each_min (env : PushSync.Env) (addr : Address)
    (skip : list Address) (dist : Address -> Z)
    (Hcmp : PushSync.compares_by env addr dist) (peers : list Address) :
  Forall (fun p => p <> []) peers ->
  forall closest,
  exists p,
    PushSync.closestPeer_each env addr skip peers closest = Ok p /\
    (closest <> [] -> p <> [] /\ dist p <= dist closest) /\
    (p = closest \/ (In p peers /\ ~ In p skip)) /\
    (forall q, In q peers -> ~ In q skip -> p <> [] /\ dist p <= dist q).
Proof.
  induction peers as [|peer rest IH]; intros Hnz closest;
    cbn [PushSync.closestPeer_each].
  - exists closest. split; [reflexivity|]. split; [intros H; split; [assumption | lia]|].
    split; [now left|]. intros q [].
  - apply Forall_cons in Hnz as [Hpeer Hrest].
    destruct (existsb (fun a => Address_Equal a peer) skip) eqn:Hsk.
    + destruct (IH Hrest closest) as (p & E & Hc & Hor & Hmin).
      exists p. split; [assumption|]. split; [assumption|]. split.
      * destruct Hor as [->|[Hin Hns]]; [now left | right; split; [now right | assumption]].
      * intros q [<-|Hq] Hns; [|now apply Hmin].
        exfalso. apply Hns. now apply skipped_In.
    + assert (Hns : ~ In peer skip).
      { intros Hin. apply skipped_In in Hin. congruence. }
      assert (Hnext : forall c', (c' = peer \/ c' = closest) -> c' <> [] ->
                (closest <> [] -> dist c' <= dist closest) -> dist c' <= dist peer ->
                exists p,
                  PushSync.closestPeer_each env addr skip rest c' = Ok p /\
                  (closest <> [] -> p <> [] /\ dist p <= dist closest) /\
                  (p = closest \/ (In p (peer :: rest) /\ ~ In p skip)) /\
                  (forall q, In q (peer :: rest) -> ~ In q skip ->
                     p <> [] /\ dist p <= dist q)).
      { intros c' Hc' Hc'nz Hc'cl Hc'peer.
        destruct (IH Hrest c') as (p & E & Hc & Hor & Hmin).
        destruct (Hc Hc'nz) as [Hpnz Hpc'].
        exists p. split; [assumption|]. split.
        - intros Hcl. split; [assumption|]. specialize (Hc'cl Hcl). lia.
        - split.
          + destruct Hor as [->|[Hin Hns']].
            * destruct Hc' as [->| ->]; [right; split; [now left | assumption] | now left].
            * right. split; [now right | assumption].
          + intros q [<-|Hq] Hq'; [split; [assumption | lia] | now apply Hmin]. }
      destruct (PushSync.IsZero closest) eqn:Hz.
      * apply IsZero_nil in Hz. subst closest.
        apply Hnext; [now left | assumption | congruence | lia].
      * assert (Hcnz : closest <> []).
        { intros ->. discriminate. }
        destruct (Hcmp closest peer) as (c & Ec & Hc). rewrite Ec.
        destruct (Z.eqb_spec c (-1)) as [Hm|Hm].
        -- apply Hnext; [now left | assumption | | lia].
           intros _. apply Hc in Hm. lia.
        -- apply Hnext; [now right | assumption | lia |].
           destruct (Z.lt_ge_cases (dist peer) (dist closest)) as [Hlt|Hge]; [|lia].
           apply Hc in Hlt. contradiction.
Qed.

(** [closestPeer] returns a peer that is closest to the address among the
    topology's peers that are not to be skipped, and [topology.ErrNotFound]
    exactly when every peer is to be skipped, provided [DistanceCmp] compares
    by a distance and no peer has the empty address. *)
Theorem closestPeer_is_closest (env : PushSync.Env) (addr : Address)
    (skip : list Address) (dist : Address -> Z) :
  PushSync.compares_by env addr dist ->
  Forall (fun p => p <> []) (PushSync.topoPeers env) ->
  match PushSync.closestPeer env addr skip with
  | Ok p =>
    In p (PushSync.topoPeers env) /\ ~ In p skip /\
    forall q, In q (PushSync.topoPeers env) -> ~ In q skip -> dist p <= dist q
  | Err e =>
    e = TopologyErrNotFound /\ forall q, In q (PushSync.topoPeers env) -> In q skip
  end.
Proof.
  intros Hcmp Hnz. unfold PushSync.closestPeer.
  destruct (closestPeer_each_min env addr skip dist Hcmp (PushSync.topoPeers env) Hnz [])
    as (p & E & _ & Hor & Hmin).
  rewrite E. destruct (PushSync.IsZero p) eqn:Hz.
  - apply IsZero_nil in Hz. subst p. split; [reflexivity|].
    intros q Hq. destruct (in_dec Address_eq_dec q skip) as [|Hns]; [assumption|].
    destruct (Hmin q Hq Hns) as [H _]. congruence.
  - destruct Hor as [->|[Hin Hns]]; [discriminate|].
    split; [assumption|]. split; [assumption|].
    intros q Hq Hq'. now apply Hmin.
Qed.

Lemma closestPeer_is_closest_witness :
  match PushSync.closestPeer PushSync.ordered_env [x01] [[x0a]] with
  | Ok p =>
    In p [[x0b]; [x0a]; [x0c]] /\ ~ In p [[x0a]] /\
    forall q, In q [[x0b]; [x0a]; [x0c]] -> ~ In q [[x0a]] ->
              PushSync.byte_dist p <= PushSync.byte_dist q
  | Err e => e = TopologyErrNotFound /\ forall q, In q [[x0b]; [x0a]; [x0c]] -> In q [[x0a]]
  end.
Proof.
  apply (closestPeer_is_closest PushSync.ordered_env [x01] [[x0a]] PushSync.byte_dist).
  - intros x y. eexists. split; [reflexivity|].
    destruct (Z.ltb_spec (PushSync.byte_dist y) (PushSync.byte_dist x)).
    + split; [intros _; assumption | reflexivity].
    + destruct (Z.ltb_spec (PushSync.byte_dist x) (PushSync.byte_dist y));
        (split; [discriminate | lia]).
  - repeat constructor; discriminate.
Defined.

(** ** Push-sync: what a push does to the accounts and the peers *)

Ltac loop_simpl :=
  lazy beta iota zeta delta
    [PushSync.over PushSync.blocklistPeer PushSync.set_lastErr PushSync.log
     PushSync.defer PushSync.skip PushSync.start_state
     PushSync.skipPeers PushSync.lastErr PushSync.deferred PushSync.trace fst snd];
  cbn [app]; rewrite <- ?app_assoc; cbn [app].

Lemma incSent_frame (env : PushSync.Env) (ch : Chunk) (s : PushSync.LoopState) :
  PushSync.incSent env ch s =
  (PushSync.mkLoop (PushSync.skipPeers s) (PushSync.lastErr s) (PushSync.deferred s)
     (PushSync.trace s ++
      PushSync.TaggerGet (chTagID ch) ::
      (if PushSync.tagFound env (chTagID ch)
       then [PushSync.TagIncSent (chTagID ch)] else [])),
   if PushSync.tagFound env (chTagID ch) then PushSync.tagInc env (chTagID ch) else None).
Proof.
  unfold PushSync.incSent. destruct (PushSync.tagFound env (chTagID ch)); loop_simpl; reflexivity.
Qed.

(** A pass through [push_to_peer] adds to the state it is given what it adds
    to the empty state. *)
Lemma push_to_peer_frame (env : PushSync.Env) (ch : Chunk) (peer : Address)
    (s : PushSync.LoopState) :
  PushSync.push_to_peer env ch peer s =
  (PushSync.over s (fst (PushSync.push_to_peer env ch peer PushSync.start_state)),
   snd (PushSync.push_to_peer env ch peer PushSync.start_state)).
Proof.
  unfold PushSync.push_to_peer. rewrite !incSent_frame.
  destruct (PushSync.accReserve env peer _); [loop_simpl; reflexivity|].
  destruct (PushSync.newStream env peer); [loop_simpl; reflexivity|].
  destruct (PushSync.sendDelivery env peer) as [e|].
  { destruct (errors_Is e DeadlineExceeded); loop_simpl; reflexivity. }
  destruct (PushSync.receiveReceipt env peer) as [ra|e].
  2:{ destruct (errors_Is e DeadlineExceeded); loop_simpl; reflexivity. }
  destruct (PushSync.tagFound env (chTagID ch)).
  - destruct (PushSync.tagInc env (chTagID ch)); [loop_simpl; reflexivity|].
    destruct (negb (Address_Equal (chAddress ch) ra)); [loop_simpl; reflexivity|].
    destruct (PushSync.accCredit env peer _); loop_simpl; reflexivity.
  - destruct (negb (Address_Equal (chAddress ch) ra)); [loop_simpl; reflexivity|].
    destruct (PushSync.accCredit env peer _); loop_simpl; reflexivity.
Qed.

Lemma push_to_peer_delta (env : PushSync.Env) (ch : Chunk) (peer : Address) :
  let d := fst (PushSync.push_to_peer env ch peer PushSync.start_state) in
  let out := snd (PushSync.push_to_peer env ch peer PushSync.start_state) in
  let price := PushSync.PeerPrice env peer (chAddress ch) in
  PushSync.skipPeers d = [peer] /\
  PushSync.contacted (PushSync.trace d) = [peer] /\
  PushSync.contacted (PushSync.deferred d) = [] /\
  PushSync.released (PushSync.trace d) = [] /\
  PushSync.released (PushSync.deferred d) =
    rev (PushSync.reserved_ok env (PushSync.trace d)) /\
  PushSync.reserved_ok env (PushSync.deferred d) = [] /\
  PushSync.credited (PushSync.deferred d) = [] /\
  (out = None -> PushSync.credited (PushSync.trace d) = []) /\
  (PushSync.credited (PushSync.trace d) = [] \/
   (PushSync.credited (PushSync.trace d) = [(peer, price)] /\
    PushSync.receiveReceipt env peer = Ok (chAddress ch))) /\
  (forall rec, out = Some (Ok rec) -> PushSync.Receipt_Address rec = chAddress ch).
Proof.
  cbn zeta. unfold PushSync.push_to_peer. rewrite !incSent_frame.
  destruct (PushSync.accReserve env peer _) eqn:Hres.
  { loop_simpl. cbn. rewrite Hres. repeat split; auto; discriminate. }
  destruct (PushSync.newStream env peer).
  { loop_simpl. cbn. rewrite Hres. repeat split; auto; discriminate. }
  destruct (PushSync.sendDelivery env peer) as [e|].
  { destruct (errors_Is e DeadlineExceeded); loop_simpl; cbn; rewrite Hres;
      repeat split; auto; discriminate. }
  destruct (PushSync.receiveReceipt env peer) as [ra|e].
  2:{ destruct (errors_Is e DeadlineExceeded); loop_simpl; cbn; rewrite Hres;
      repeat split; auto; discriminate. }
  assert (Hra : negb (Address_Equal (chAddress ch) ra) = false -> ra = chAddress ch).
  { intros H. apply negb_false_iff in H. apply Address_Equal_true in H. congruence. }
  destruct (PushSync.tagFound env (chTagID ch)).
  - destruct (PushSync.tagInc env (chTagID ch)).
    { loop_simpl. cbn. rewrite Hres. repeat split; auto; discriminate. }
    destruct (negb (Address_Equal (chAddress ch) ra)) eqn:Heq.
    { loop_simpl. cbn. rewrite Hres. repeat split; auto; discriminate. }
    rewrite (Hra eq_refl).
    destruct (PushSync.accCredit env peer _); loop_simpl; cbn; rewrite Hres;
      repeat split; auto; try discriminate.
    intros rec [= <-]. reflexivity.
  - destruct (negb (Address_Equal (chAddress ch) ra)) eqn:Heq.
    { loop_simpl. cbn. rewrite Hres. repeat split; auto; discriminate. }
    rewrite (Hra eq_refl).
    destruct (PushSync.accCredit env peer _); loop_simpl; cbn; rewrite Hres;
      repeat split; auto; try discriminate.
    intros rec [= <-]. reflexivity.
Qed.

Lemma between_attempts_log (env : PushSync.Env) (i : nat) (s : PushSync.LoopState)
    (evs : list PushSync.event) :
  PushSync.contacted evs = [] -> PushSync.released evs = [] ->
  PushSync.reserved_ok env evs = [] -> PushSync.credited evs = [] ->
  PushSync.between_attempts env i s ->
  PushSync.between_attempts env i (PushSync.log s evs).
Proof.
  intros H1 H2 H3 H4 (A & B & C & D & E & F & G & H & I).
  unfold PushSync.between_attempts, PushSync.log.
  cbn [PushSync.skipPeers PushSync.lastErr PushSync.deferred PushSync.trace].
  unfold PushSync.contacted, PushSync.released, PushSync.reserved_ok, PushSync.credited in *.
  rewrite !flat_map_app, H1, H2, H3, H4, !app_nil_r. auto 10.
Qed.

Lemma between_attempts_return (env : PushSync.Env) (ch : Chunk) (i : nat)
    (s : PushSync.LoopState) (r : result PushSync.Receipt) :
  PushSync.between_attempts env i s ->
  (forall rec, r = Ok rec -> PushSync.Receipt_Address rec = chAddress ch) ->
  PushSync.at_return env ch i s r.
Proof.
  intros (A & B & C & D & E & F & G & H & I) Hr.
  unfold PushSync.at_return. auto 15.
Qed.

Lemma push_to_peer_inv (env : PushSync.Env) (ch : Chunk) (peer : Address) (i : nat)
    (s : PushSync.LoopState) :
  PushSync.between_attempts env i s ->
  ~ In peer (PushSync.skipPeers s) ->
  match snd (PushSync.push_to_peer env ch peer s) with
  | None => PushSync.between_attempts env (S i) (fst (PushSync.push_to_peer env ch peer s))
  | Some r => PushSync.at_return env ch (S i) (fst (PushSync.push_to_peer env ch peer s)) r
  end.
Proof.
  intros (A & B & C & D & E & F & G & H & I) Hfresh.
  rewrite push_to_peer_frame. cbn [fst snd].
  destruct (push_to_peer_delta env ch peer)
    as (d1 & d2 & d3 & d4 & d5 & d6 & d7 & d8 & d9 & d10).
  set (d := fst (PushSync.push_to_peer env ch peer PushSync.start_state)) in *.
  set (out := snd (PushSync.push_to_peer env ch peer PushSync.start_state)) in *.
  assert (Hshared :
    PushSync.contacted (PushSync.trace (PushSync.over s d)) = PushSync.skipPeers (PushSync.over s d) /\
    PushSync.contacted (PushSync.deferred (PushSync.over s d)) = [] /\
    NoDup (PushSync.skipPeers (PushSync.over s d)) /\
    (length (PushSync.skipPeers (PushSync.over s d)) <= S i)%nat /\
    PushSync.released (PushSync.trace (PushSync.over s d)) = [] /\
    PushSync.released (PushSync.deferred (PushSync.over s d)) =
      rev (PushSync.reserved_ok env (PushSync.trace (PushSync.over s d))) /\
    PushSync.reserved_ok env (PushSync.deferred (PushSync.over s d)) = [] /\
    PushSync.credited (PushSync.deferred (PushSync.over s d)) = [] /\
    PushSync.credited (PushSync.trace (PushSync.over s d)) = PushSync.credited (PushSync.trace d) /\
    In peer (PushSync.skipPeers (PushSync.over s d))).
  { unfold PushSync.over.
    cbn [PushSync.skipPeers PushSync.lastErr PushSync.deferred PushSync.trace].
    unfold PushSync.contacted, PushSync.released, PushSync.reserved_ok, PushSync.credited in *.
    rewrite !flat_map_app.
    rewrite A, B, E, F, G, H, I, d1, d2, d3, d4, d5, d6, d7.
    rewrite rev_app_distr, !app_nil_r.
    repeat split; try reflexivity.
    - apply NoDup_app. split; [assumption|]. split; [|apply NoDup_singleton].
      intros x Hx Hx'. apply list_elem_of_singleton in Hx'. subst x.
      apply Hfresh. now apply list_elem_of_In.
    - rewrite length_app. simpl. lia.
    - apply in_or_app. right. now left. }
  destruct Hshared as (S1 & S2 & S3 & S4 & S5 & S6 & S7 & S8 & S9 & S10).
  destruct out as [r|] eqn:Eout.
  - unfold PushSync.at_return. rewrite S9.
    repeat split; try assumption.
    + destruct d9 as [Hc|[Hc Hrr]]; [now left|]. right. exists peer. auto.
    + intros rec ->. now apply d10.
  - unfold PushSync.between_attempts. rewrite S9, (d8 eq_refl).
    repeat split; assumption.
Qed.

Lemma attempt_inv (env : PushSync.Env) (ch : Chunk) (i : nat) (s : PushSync.LoopState) :
  PushSync.between_attempts env i s ->
  match snd (PushSync.attempt env ch i s) with
  | None => PushSync.between_attempts env (S i) (fst (PushSync.attempt env ch i s))
  | Some r => PushSync.at_return env ch (S i) (fst (PushSync.attempt env ch i s)) r
  end.
Proof.
  intros Hinv.
  assert (Hweak : forall s', PushSync.between_attempts env i s' ->
                             PushSync.between_attempts env (S i) s').
  { intros s' (A & B & C & D & E). unfold PushSync.between_attempts. auto 10 with arith. }
  unfold PushSync.attempt.
  destruct (PushSync.ctxErr env i) as [e|].
  { cbn [fst snd]. apply between_attempts_return; [now apply Hweak | discriminate]. }
  destruct (Nat.eqb_spec i 0) as [->|Hi].
  - assert (Hlog : PushSync.between_attempts env 0
                     (PushSync.log s [PushSync.ClosestPeer (chAddress ch)]))
      by (now apply between_attempts_log).
    destruct (PushSync.topoClosestPeer env (chAddress ch)) as [peer|e].
    + apply push_to_peer_inv; [assumption|].
      destruct Hinv as (_ & _ & _ & Hlen & _).
      cbn [PushSync.log PushSync.skipPeers].
      destruct (PushSync.skipPeers s); [intros [] | simpl in Hlen; lia].
    + destruct (errors_Is e TopologyErrNotFound).
      { cbn [fst snd]. now apply Hweak. }
      destruct (errors_Is e ErrWantSelf).
      * rewrite incSent_frame.
        assert (Hinc : PushSync.between_attempts env 1
                  (PushSync.mkLoop
                     (PushSync.skipPeers (PushSync.log s [PushSync.ClosestPeer (chAddress ch)]))
                     (PushSync.lastErr (PushSync.log s [PushSync.ClosestPeer (chAddress ch)]))
                     (PushSync.deferred (PushSync.log s [PushSync.ClosestPeer (chAddress ch)]))
                     (PushSync.trace (PushSync.log s [PushSync.ClosestPeer (chAddress ch)]) ++
                      PushSync.TaggerGet (chTagID ch) ::
                      (if PushSync.tagFound env (chTagID ch)
                       then [PushSync.TagIncSent (chTagID ch)] else [])))).
        { apply Hweak.
          apply (between_attempts_log env 0
                   (PushSync.log s [PushSync.ClosestPeer (chAddress ch)])
                   (PushSync.TaggerGet (chTagID ch) ::
                      (if PushSync.tagFound env (chTagID ch)
                       then [PushSync.TagIncSent (chTagID ch)] else [])));
            try assumption; destruct (PushSync.tagFound env (chTagID ch)); reflexivity. }
        destruct (if PushSync.tagFound env (chTagID ch)
                  then PushSync.tagInc env (chTagID ch) else None); cbn [fst snd];
          (apply between_attempts_return; [assumption|]).
        -- discriminate.
        -- intros rec [= <-]. reflexivity.
      * cbn [fst snd]. apply between_attempts_return; [now apply Hweak | discriminate].
  - assert (Hlog : PushSync.between_attempts env i (PushSync.log s [PushSync.EachPeerRev]))
      by (now apply between_attempts_log).
    destruct (PushSync.closestPeer env (chAddress ch) (PushSync.skipPeers s)) as [peer|e] eqn:Ecp.
    + apply push_to_peer_inv; [assumption|].
      apply closestPeer_not_skipped in Ecp. apply Ecp.
    + cbn [fst snd]. apply between_attempts_return; [now apply Hweak | discriminate].
Qed.

Lemma attempts_inv (env : PushSync.Env) (ch : Chunk) (n : nat) :
  forall (i : nat) (s : PushSync.LoopState),
    PushSync.between_attempts env i s ->
    PushSync.at_return env ch (i + n)
      (fst (PushSync.attempts env ch n i s)) (snd (PushSync.attempts env ch n i s)).
Proof.
  induction n as [|n IH]; intros i s Hinv; cbn [PushSync.attempts].
  - rewrite Nat.add_0_r.
    destruct (PushSync.lastErr s); cbn [fst snd];
      (apply between_attempts_return; [assumption | discriminate]).
  - pose proof (attempt_inv env ch i s Hinv) as Hstep.
    destruct (PushSync.attempt env ch i s) as [s' [r|]]; cbn [fst snd] in *.
    + destruct Hstep as (A & B & C & D & E). unfold PushSync.at_return.
      repeat split; try tauto. lia.
    + replace (i + S n)%nat with (S i + n)%nat by lia. now apply IH.
Qed.

Lemma start_state_between (env : PushSync.Env) :
  PushSync.between_attempts env 0 PushSync.start_state.
Proof. unfold PushSync.between_attempts. cbn. repeat split; auto. constructor. Qed.

Lemma PushChunkToClosest_at_return (env : PushSync.Env) (ch : Chunk) :
  exists s,
    PushSync.PushChunkToClosest env ch =
      (PushSync.trace s ++ PushSync.deferred s, snd (PushSync.PushChunkToClosest env ch)) /\
    PushSync.at_return env ch PushSync.maxPeers s (snd (PushSync.PushChunkToClosest env ch)).
Proof.
  unfold PushSync.PushChunkToClosest.
  pose proof (attempts_inv env ch PushSync.maxPeers 0 PushSync.start_state
                (start_state_between env)) as H.
  fold PushSync.start_state.
  destruct (PushSync.attempts env ch PushSync.maxPeers 0 PushSync.start_state) as [s r].
  exists s. split; [reflexivity | exact H].
Qed.

Lemma streams_log (s : PushSync.LoopState) (evs : list PushSync.event) :
  PushSync.streamed evs = [] -> PushSync.credited evs = [] ->
  PushSync.streams_inv s -> PushSync.streams_inv (PushSync.log s evs).
Proof.
  intros H1 H2 (A & B & C).
  unfold PushSync.streams_inv, PushSync.log.
  cbn [PushSync.skipPeers PushSync.lastErr PushSync.deferred PushSync.trace].
  unfold PushSync.streamed, PushSync.credited in *.
  rewrite !flat_map_app, H1, H2, !app_nil_r. auto.
Qed.

Ltac streams_leaf :=
  loop_simpl; cbn;
  split; [first [apply sublist_nil_l | reflexivity]|];
  split; [reflexivity|];
  let H := fresh in
  intros ? ? H; repeat (destruct H as [H|H]); try contradiction;
  injection H as <- _; now left.

Lemma push_to_peer_streams (env : PushSync.Env) (ch : Chunk) (peer : Address) :
  PushSync.streams_inv
    (PushSync.mkLoop [peer] None
       (PushSync.deferred (fst (PushSync.push_to_peer env ch peer PushSync.start_state)))
       (PushSync.trace (fst (PushSync.push_to_peer env ch peer PushSync.start_state)))).
Proof.
  unfold PushSync.streams_inv.
  cbn [PushSync.skipPeers PushSync.deferred PushSync.trace].
  unfold PushSync.push_to_peer. rewrite !incSent_frame.
  destruct (PushSync.accReserve env peer _); [streams_leaf|].
  destruct (PushSync.newStream env peer); [streams_leaf|].
  destruct (PushSync.sendDelivery env peer) as [e|].
  { destruct (errors_Is e DeadlineExceeded); streams_leaf. }
  destruct (PushSync.receiveReceipt env peer) as [ra|e].
  2:{ destruct (errors_Is e DeadlineExceeded); streams_leaf. }
  destruct (PushSync.tagFound env (chTagID ch)).
  - destruct (PushSync.tagInc env (chTagID ch)); [streams_leaf|].
    destruct (negb (Address_Equal (chAddress ch) ra)); [streams_leaf|].
    destruct (PushSync.accCredit env peer _); streams_leaf.
  - destruct (negb (Address_Equal (chAddress ch) ra)); [streams_leaf|].
    destruct (PushSync.accCredit env peer _); streams_leaf.
Qed.

Lemma push_to_peer_streams_inv (env : PushSync.Env) (ch : Chunk) (peer : Address)
    (s : PushSync.LoopState) :
  PushSync.streams_inv s ->
  PushSync.streams_inv (fst (PushSync.push_to_peer env ch peer s)).
Proof.
  intros (A & B & C).
  rewrite push_to_peer_frame. cbn [fst].
  destruct (push_to_peer_delta env ch peer) as (d1 & _).
  destruct (push_to_peer_streams env ch peer) as (D1 & D2 & D3).
  cbn [PushSync.skipPeers PushSync.deferred PushSync.trace] in D1, D2, D3.
  set (d := fst (PushSync.push_to_peer env ch peer PushSync.start_state)) in *.
  unfold PushSync.streams_inv, PushSync.over.
  cbn [PushSync.skipPeers PushSync.deferred PushSync.trace].
  rewrite d1.
  unfold PushSync.streamed, PushSync.credited in *.
  rewrite !flat_map_app, B, D2.
  split; [now apply sublist_app|]. split; [reflexivity|].
  intros p pr Hin. apply in_app_or in Hin. apply in_or_app.
  destruct Hin as [Hin|Hin]; [left; now apply (C p pr) | right; now apply (D3 p pr)].
Qed.

Lemma attempt_streams (env : PushSync.Env) (ch : Chunk) (i : nat) (s : PushSync.LoopState) :
  PushSync.streams_inv s ->
  PushSync.streams_inv (fst (PushSync.attempt env ch i s)).
Proof.
  intros Hinv. unfold PushSync.attempt.
  destruct (PushSync.ctxErr env i) as [e|]; [exact Hinv|].
  destruct (i =? 0)%nat.
  - assert (Hlog : PushSync.streams_inv
                     (PushSync.log s [PushSync.ClosestPeer (chAddress ch)]))
      by (now apply streams_log).
    destruct (PushSync.topoClosestPeer env (chAddress ch)) as [peer|e].
    + now apply push_to_peer_streams_inv.
    + destruct (errors_Is e TopologyErrNotFound); [exact Hlog|].
      destruct (errors_Is e ErrWantSelf); [|exact Hlog].
      rewrite incSent_frame.
      assert (Hinc : PushSync.streams_inv
                (PushSync.log (PushSync.log s [PushSync.ClosestPeer (chAddress ch)])
                   (PushSync.TaggerGet (chTagID ch) ::
                      (if PushSync.tagFound env (chTagID ch)
                       then [PushSync.TagIncSent (chTagID ch)] else [])))).
      { apply streams_log; try assumption;
          destruct (PushSync.tagFound env (chTagID ch)); reflexivity. }
      destruct (if PushSync.tagFound env (chTagID ch)
                then PushSync.tagInc env (chTagID ch) else None); exact Hinc.
  - assert (Hlog : PushSync.streams_inv (PushSync.log s [PushSync.EachPeerRev]))
      by (now apply streams_log).
    destruct (PushSync.closestPeer env (chAddress ch) (PushSync.skipPeers s)) as [peer|e].
    + now apply push_to_peer_streams_inv.
    + exact Hlog.
Qed.

Lemma attempts_streams (env : PushSync.Env) (ch : Chunk) (n : nat) :
  forall (i : nat) (s : PushSync.LoopState),
    PushSync.streams_inv s ->
    PushSync.streams_inv (fst (PushSync.attempts env ch n i s)).
Proof.
  induction n as [|n IH]; intros i s Hinv; cbn [PushSync.attempts].
  - destruct (PushSync.lastErr s); exact Hinv.
  - pose proof (attempt_streams env ch i s Hinv) as Hstep.
    destruct (PushSync.attempt env ch i s) as [s' [r|]]; cbn [fst] in *.
    + exact Hstep.
    + now apply IH.
Qed.

Lemma PushChunkToClosest_streams (env : PushSync.Env) (ch : Chunk) :
  exists s,
    PushSync.PushChunkToClosest env ch =
      (PushSync.trace s ++ PushSync.deferred s, snd (PushSync.PushChunkToClosest env ch)) /\
    PushSync.at_return env ch PushSync.maxPeers s (snd (PushSync.PushChunkToClosest env ch)) /\
    PushSync.streams_inv s.
Proof.
  unfold PushSync.PushChunkToClosest.
  pose proof (attempts_inv env ch PushSync.maxPeers 0 PushSync.start_state
                (start_state_between env)) as H.
  assert (H0 : PushSync.streams_inv PushSync.start_state).
  { unfold PushSync.streams_inv. cbn. split; [constructor|]. split; [reflexivity|].
    intros ? ? []. }
  pose proof (attempts_streams env ch PushSync.maxPeers 0 PushSync.start_state H0) as H'.
  fold PushSync.start_state.
  destruct (PushSync.attempts env ch PushSync.maxPeers 0 PushSync.start_state) as [s r].
  exists s. split; [reflexivity|]. split; [exact H | exact H'].
Qed.

(** Every reservation that succeeded during [PushChunkToClosest] is released
    when the function returns, however it returns, and nothing else is
    released: the releases are the successful reservations in reverse
    order. *)
Theorem PushChunkToClosest_releases_reservations (env : PushSync.Env) (ch : Chunk) :
  PushSync.released (fst (PushSync.PushChunkToClosest env ch)) =
  rev (PushSync.reserved_ok env (fst (PushSync.PushChunkToClosest env ch))).
Proof.
  destruct (PushChunkToClosest_at_return env ch) as (s & -> & H).
  destruct H as (A & B & C & D & E & F & G & _). cbn [fst].
  unfold PushSync.released, PushSync.reserved_ok in *.
  rewrite !flat_map_app, E, F, G, app_nil_r. reflexivity.
Qed.

(** [PushChunkToClosest] asks for a reservation for at most [maxPeers]
    peers and for no peer twice, and it opens streams only to peers among
    them, in the same order: so it opens a stream to at most [maxPeers]
    peers, and to no peer twice. *)
Theorem PushChunkToClosest_peers_once (env : PushSync.Env) (ch : Chunk) :
  let tr := fst (PushSync.PushChunkToClosest env ch) in
  NoDup (PushSync.streamed tr) /\
  (length (PushSync.streamed tr) <= 5)%nat /\
  sublist (PushSync.streamed tr) (PushSync.contacted tr) /\
  NoDup (PushSync.contacted tr) /\
  (length (PushSync.contacted tr) <= 5)%nat.
Proof.
  cbn zeta. destruct (PushChunkToClosest_streams env ch) as (s & -> & H & S1 & S2 & _).
  destruct H as (A & B & C & D & _). cbn [fst].
  unfold PushSync.contacted, PushSync.streamed in *.
  rewrite !flat_map_app, A, B, S2, !app_nil_r.
  split; [eapply sublist_NoDup; eassumption|].
  split; [apply sublist_length in S1; unfold PushSync.maxPeers in D; lia|].
  split; [exact S1|]. split; [assumption | exact D].
Qed.

(** A receipt that [PushChunkToClosest] returns names the chunk; at most one
    peer is credited, with the price that was reserved for it, and only a
    peer that a stream was opened to and whose receipt names the chunk. *)
Theorem PushChunkToClosest_credits_valid_receipt (env : PushSync.Env) (ch : Chunk) :
  let tr := fst (PushSync.PushChunkToClosest env ch) in
  (forall rec, snd (PushSync.PushChunkToClosest env ch) = Ok rec ->
     PushSync.Receipt_Address rec = chAddress ch) /\
  (PushSync.credited tr = [] \/
   exists peer,
     PushSync.credited tr = [(peer, PushSync.PeerPrice env peer (chAddress ch))] /\
     PushSync.receiveReceipt env peer = Ok (chAddress ch) /\
     In peer (PushSync.contacted tr) /\
     In peer (PushSync.streamed tr)).
Proof.
  cbn zeta. destruct (PushChunkToClosest_streams env ch) as (s & E & H & S1 & S2 & S3).
  destruct H as (A & B & C & D & _ & _ & _ & F & G & I).
  split; [exact I|]. rewrite E. cbn [fst].
  unfold PushSync.credited, PushSync.contacted, PushSync.streamed in *.
  rewrite !flat_map_app, F, B, A, S2, !app_nil_r.
  destruct G as [G|(peer & G1 & G2 & G3)]; [now left|].
  right. exists peer. repeat split; try assumption.
  apply (S3 peer (PushSync.PeerPrice env peer (chAddress ch))).
  rewrite G1. now left.
Qed.

(** ** Push-sync: the handler *)

Ltac in_cases H :=
  repeat (destruct H as [H|H]; [try discriminate H|]); try contradiction.

Ltac earlier_index :=
  first [ exists 0%nat; split; [lia | reflexivity]
        | exists 1%nat; split; [lia | reflexivity]
        | exists 2%nat; split; [lia | reflexivity]
        | exists 3%nat; split; [lia | reflexivity]
        | exists 4%nat; split; [lia | reflexivity]
        | exists 5%nat; split; [lia | reflexivity]
        | exists 6%nat; split; [lia | reflexivity]
        | exists 7%nat; split; [lia | reflexivity]
        | exists 8%nat; split; [lia | reflexivity]
        | exists 9%nat; split; [lia | reflexivity]
        | exists 10%nat; split; [lia | reflexivity] ].

Ltac handler_leaf Hv Hp :=
  cbn [fst snd];
  split; [lazymatch goal with
          | |- exists tr0, ?tr = _ /\ _ => exists (removelast tr)
          end;
          cbn; split; [reflexivity|];
          split; (let H := fresh in intros H; in_cases H)|];
  split; [let m := fresh "m" in let q := fresh "q" in let pr := fresh "pr" in
          let H := fresh in
          intros m q pr H; cbn [app] in H;
          repeat (destruct m as [|m]; cbn [nth_error] in H; try discriminate H);
          try solve [injection H as <- <-; split; [reflexivity|];
                     do 2 eexists; split; [reflexivity|];
                     split; [now rewrite Hv|]; split; [reflexivity|];
                     split; [assumption|];
                     cbn [app]; earlier_index]|];
  split; [let m := fresh "m" in let c := fresh "c" in let H := fresh in
          intros m c H; cbn in H; in_cases H;
          try (injection H as <- <-; split; [reflexivity | now rewrite Hv])|];
  split; [let q := fresh "q" in let a' := fresh "a" in let d' := fresh "d" in
          let H := fresh in
          intros q a' d' H; cbn in H; in_cases H;
          try (injection H as <- <- <-; split; [now rewrite Hv | exact Hp])|];
  try discriminate;
  try (intros _; eexists; cbn; auto 12).

(** The handler and its two parties.  The inbound stream is reset when the
    handler returns an error and closed when it returns nil, as its last act.
    The sender alone is debited, with the price of the delivered chunk, and
    only after a receipt for that chunk has been written to it without
    error: the write comes earlier in the trace than the debit.  A nil
    return means that the sender was debited.  Only a chunk that the
    validator accepted is stored (under [ModePutSync]) or forwarded, and
    never back to the sender. *)
Theorem handler_accounts (env : PushSync.Env) (p : Address) :
  let tr := fst (PushSync.handler env p) in
  let r := snd (PushSync.handler env p) in
  (exists tr0,
     tr = tr0 ++ [match r with
                  | Some _ => PushSync.InboundReset
                  | None => PushSync.InboundFullClose
                  end] /\
     ~ In PushSync.InboundReset tr0 /\ ~ In PushSync.InboundFullClose tr0) /\
  (forall (m : nat) q price, nth_error tr m = Some (PushSync.Debit q price) ->
     q = p /\
     exists a d, PushSync.readDelivery env = Ok (a, d) /\
       fst (PushSync.ValidWithCallback env (NewChunk a d)) = true /\
       price = PushSync.Price env a /\
       PushSync.sendReceipt env a = None /\
       exists n : nat, (n < m)%nat /\
         nth_error tr n = Some (PushSync.SendReceipt p a)) /\
  (forall m c, In (PushSync.StorerPut m c) tr ->
     m = ModePutSync /\ fst (PushSync.ValidWithCallback env c) = true) /\
  (forall q a d, In (PushSync.SendDelivery q a d) tr ->
     fst (PushSync.ValidWithCallback env (NewChunk a d)) = true /\ q <> p) /\
  (r = None -> exists price, In (PushSync.Debit p price) tr).
Proof.
  cbn zeta. unfold PushSync.handler.
  destruct (PushSync.readDelivery env) as [[a d]|e].
  2:{ handler_leaf I I. }
  destruct (PushSync.ValidWithCallback env (NewChunk a d)) as [valid cb] eqn:Hv.
  destruct valid; cbn [negb].
  2:{ handler_leaf Hv I. }
  cbn [chAddress NewChunk].
  destruct (PushSync.topoClosestPeer env a) as [peer|e].
  - destruct (Address_Equal p peer) eqn:Hp.
    + unfold PushSync.handleDeliveryResponse. cbn [chAddress NewChunk].
      destruct (PushSync.storerPut env ModePutSync _); [handler_leaf Hv I|].
      destruct (PushSync.sendReceipt env a) eqn:Hsr; [handler_leaf Hv I|].
      destruct (PushSync.accDebit env p (PushSync.Price env a)); handler_leaf Hv I.
    + apply Address_Equal_false in Hp.
      assert (Hp' : peer <> p) by congruence.
      unfold PushSync.forward. cbn [chAddress NewChunk chData].
      destruct (PushSync.accReserve env peer _); [handler_leaf Hv Hp'|].
      destruct (PushSync.newStream env peer); [handler_leaf Hv Hp'|].
      destruct (PushSync.sendDelivery env peer); [handler_leaf Hv Hp'|].
      destruct (PushSync.receiveReceipt env peer) as [ra|e]; [|handler_leaf Hv Hp'].
      destruct (Address_Equal a ra) eqn:Hra; cbn [negb]; [|handler_leaf Hv Hp'].
      apply Address_Equal_true in Hra. subst ra.
      destruct (PushSync.accCredit env peer _); [handler_leaf Hv Hp'|].
      destruct (PushSync.sendReceipt env a) eqn:Hsr; [handler_leaf Hv Hp'|].
      destruct (PushSync.accDebit env p (PushSync.Price env a)); handler_leaf Hv Hp'.
  - destruct (errors_Is e ErrWantSelf).
    + unfold PushSync.handleDeliveryResponse. cbn [chAddress NewChunk].
      destruct cb;
        (destruct (PushSync.storerPut env ModePutSync _); [handler_leaf Hv I|];
         destruct (PushSync.sendReceipt env a) eqn:Hsr; [handler_leaf Hv I|];
         destruct (PushSync.accDebit env p (PushSync.Price env a)); handler_leaf Hv I).
    + handler_leaf Hv I.
Qed.
